(** * libgiddy: warp-level primitives and the run-position-encoding decompressor

    A shallow embedding of [cuda/on_device/primitives/warp.cuh] and of
    [kernels/decompression/run_position_encoding.cuh].

    Conventions of the embedding.
    - A fixed-width unsigned integer is a [Z] in [0, 2^w); every arithmetic
      operation of the source that can leave that range is followed by
      [wrap w].
    - A warp is the list of its lanes, lane [i] at position [i]; a per-lane
      variable is the list of the values the lanes hold.
    - A shuffle ([__shfl], [__shfl_up]) is an indexed read into the list of
      the values currently held by the lanes. In the decompression kernel
      the lane read may not be at the shuffle; the read is then not defined
      and the turn of the warp has no result ([None]).
    - A packed store through a pointer cast to a wider type needs the
      address to be a multiple of the size of that type; a store at another
      address faults, and the kernel has no result ([None]).
    - Device memory written by a kernel is described by the trace of the
      element writes ([write]); [apply_writes] replays a trace on a buffer. *)

From Stdlib Require Import ZArith List Lia Bool Permutation.
Import ListNotations.
Local Open Scope Z_scope.

(** ** Machine integers and buffers *)

Definition wrap (bits x : Z) : Z := x mod 2 ^ bits.

Definition wrap32 (x : Z) : Z := wrap 32 x.

(** [a[i]] for a buffer held as a list; the source never reads outside the
    buffers it is given, the model reads 0 there. *)
Definition zth (a : list Z) (i : Z) : Z := nth (Z.to_nat i) a 0.

(** [a + k] for a pointer [a]. *)
Definition offset_ptr (a : list Z) (k : Z) : list Z := skipn (Z.to_nat k) a.

Record write : Type := mk_write { w_pos : Z; w_val : Z }.

Fixpoint store (a : list Z) (i : nat) (v : Z) : list Z :=
  match a, i with
  | [], _ => []
  | _ :: t, O => v :: t
  | h :: t, S j => h :: store t j v
  end.

Definition apply_write (a : list Z) (w : write) : list Z :=
  if w_pos w <? 0 then a else store a (Z.to_nat (w_pos w)) (w_val w).

Definition apply_writes (tr : list write) (a : list Z) : list Z :=
  fold_left apply_write tr a.

(** The values of [i, i+1, ..., i+n-1] as lane or thread indices. *)
Definition zseq (i : Z) (n : nat) : list Z := map Z.of_nat (seq (Z.to_nat i) n).

(** ** Hardware builtins

    [cuda/on_device/builtins.cuh] and [cuda/bit_operations.cuh] are not part
    of the sources at hand; the functions below follow the instructions they
    wrap. *)
Module builtins.

(** Modelled from the spec: [population_count] ([__popc]), the number of set
    bits of a 32-bit word. *)
Fixpoint popcount_below (n : nat) (x : Z) : Z :=
  match n with
  | O => 0
  | S k => Z.b2z (Z.testbit x (Z.of_nat k)) + popcount_below k x
  end.

Definition population_count (x : Z) : Z := popcount_below 32 x.

(** Modelled from the spec: [count_leading_zeros] ([__clz]), the number of
    zero bits above the highest set bit of a 32-bit word, 32 for 0. *)
Fixpoint clz_below (n : nat) (x : Z) : Z :=
  match n with
  | O => 0
  | S k => if Z.testbit x (Z.of_nat k) then 0 else 1 + clz_below k x
  end.

Definition count_leading_zeros (x : Z) : Z := clz_below 32 x.

(** Modelled from the spec: [count_trailing_zeros], the number of zero bits
    below the lowest set bit of a 32-bit word; 32 for 0, the value
    [first_lane_satisfying] documents for an empty ballot. *)
Fixpoint ctz_from (fuel : nat) (i : Z) (x : Z) : Z :=
  match fuel with
  | O => 0
  | S k => if Z.testbit x i then 0 else 1 + ctz_from k (i + 1) x
  end.

Definition count_trailing_zeros (x : Z) : Z := ctz_from 32 0 x.

(** Modelled from the spec: [warp_ballot] ([__ballot]); bit [i] of the result
    is the predicate of lane [i], 0 for a lane which does not take part. *)
Fixpoint warp_ballot (predicates : list bool) : Z :=
  match predicates with
  | [] => 0
  | b :: rest => Z.b2z b + 2 * warp_ballot rest
  end.

(** Modelled from the spec: [all_in_warp_satisfy] ([__all]). *)
Definition all_in_warp_satisfy (predicates : list bool) : bool :=
  forallb (fun b => b) predicates.

End builtins.

(** Modelled from the spec: [atomic::add] ([atomicAdd]) adds to the cell and
    yields the value the cell held before; the pair is (old value, cell). *)
Definition atomic_add (bits counter v : Z) : Z * Z :=
  (counter, wrap bits (counter + v)).

(** ** [primitives::warp]: leader selection and per-warp counters *)

(** The mask of the lanes taking part, from the list of lane activity. *)
Definition active_lanes_mask (active : list bool) : Z := builtins.warp_ballot active.

Definition active_lane_count (active : list bool) : Z :=
  builtins.population_count (active_lanes_mask active).

Definition lane_is_active (mask lane : Z) : bool :=
  (0 <=? lane) && (lane <? 32) && Z.testbit mask lane.

Module detail.

Definition select_leader_lane (PreferFirstLane : bool) (active_lanes_mask : Z) : Z :=
  if PreferFirstLane
  then builtins.count_leading_zeros active_lanes_mask
  else builtins.count_trailing_zeros active_lanes_mask.

Definition am_leader_lane (PreferFirstLane : bool) (active_lanes_mask lane_index : Z) : bool :=
  select_leader_lane PreferFirstLane active_lanes_mask =? lane_index.

Definition preceding_lanes_mask (laneid : Z) : Z := wrap32 (Z.shiftl 1 laneid - 1).

(** The source declares the return type [bool]: the population count is
    converted to a truth value on return. The mask argument is not used. *)
Definition lane_index_among_active_lanes (active_lanes_mask laneid : Z) : bool :=
  negb (builtins.population_count (preceding_lanes_mask laneid) =? 0).

End detail.

(** [warp::lane_index_among_active_lanes]: the [bool] of the [detail]
    function converted to [unsigned]. *)
Definition lane_index_among_active_lanes (active : list bool) (laneid : Z) : Z :=
  Z.b2z (detail.lane_index_among_active_lanes (active_lanes_mask active) laneid).

(** [have_a_single_lane_compute]: lane [designated_computing_lane] runs [f]
    on the shared state; [get_from_lane] then hands its result to every lane.
    When the designated lane does not take part nobody runs [f] and the
    shuffle has nothing to read, which is [None]. *)
Definition have_a_single_lane_compute {St R : Type}
    (f : St -> R * St) (designated_computing_lane : Z) (mask : Z) (s : St) : option R * St :=
  if lane_is_active mask designated_computing_lane
  then let (r, s') := f s in (Some r, s')
  else (None, s).

(** [active_lanes_increment<T>] for a [bits]-wide unsigned [T]. The lambda
    [perform_all_increments] of the source has no [return]; the value of
    [atomic::add] is taken as its result, the one reading under which
    [value_before_all_lane_increments] is a value. The result is the final
    counter and, for each lane of [lanes], what the lane returns. *)
Definition active_lanes_increment (bits : Z) (counter : Z) (active : list bool)
    (lanes : list Z) : Z * list (option Z) :=
  let lanes_mask := active_lanes_mask active in
  let active_lane_count := builtins.population_count lanes_mask in
  let perform_all_increments := fun c => atomic_add bits c active_lane_count in
  let '(value_before_all_lane_increments, counter') :=
    have_a_single_lane_compute perform_all_increments
      (detail.select_leader_lane true lanes_mask) lanes_mask counter in
  (counter',
   map (fun lane =>
          match value_before_all_lane_increments with
          | Some v =>
              Some (wrap bits (v + Z.b2z (detail.lane_index_among_active_lanes lanes_mask lane)))
          | None => None
          end) lanes).

(** ** [primitives::warp::scan] *)

Inductive inclusivity_t : Type := Inclusive | Exclusive.

Section Scan.
Context {T : Type}.
(** [ReductionOp::operator()], [ReductionOp::neutral_value()]; the functor
    classes of [cuda/functors.hpp] are not among the sources. *)
Variable op : T -> T -> T.
Variable neutral_value : T.
Variable warp_size : nat.

(** Modelled from the spec: [ReductionOp::accumulator], which performs
    [x = op(x, y)] on its first argument. *)
Definition acc_op (x y : T) : T := op x y.

(** The per-lane variable together with the lane indices. *)
Definition with_lane_index {A : Type} (xs : list A) : list (nat * A) :=
  combine (seq 0 (length xs)) xs.

(** [__shfl_up(x, delta)]: lane [i] reads the value of lane [i - delta];
    the lanes below [delta] keep their own. *)
Definition shfl_up (xs : list T) (delta : nat) : list T :=
  map (fun ix => if (fst ix <? delta)%nat then snd ix else nth (fst ix - delta) xs (snd ix))
      (with_lane_index xs).

Definition scan_step (offset : nat) (x : list T) : list T :=
  map (fun ixs =>
         let '(i, (xi, shuffled)) := ixs in
         if (offset <=? i)%nat then acc_op xi shuffled else xi)
      (with_lane_index (combine x (shfl_up x offset))).

(** [for (offset = 1; offset < warp_size; offset <<= 1)]. *)
Fixpoint scan_ladder (fuel offset : nat) (x : list T) : list T :=
  match fuel with
  | O => x
  | S fuel' =>
      if (offset <? warp_size)%nat
      then scan_ladder fuel' (2 * offset) (scan_step offset x)
      else x
  end.

Definition scan (Inclusivity : inclusivity_t) (value : list T) : list T :=
  let x :=
    match Inclusivity with
    | Exclusive =>
        let preshuffled := shfl_up value 1 in
        map (fun ip => if (fst ip =? 0)%nat then neutral_value else snd ip)
            (with_lane_index preshuffled)
    | Inclusive => value
    end in
  scan_ladder warp_size 1 x.

(** What the ladder leaves in a lane: [fold_down v i m] is
    [v i `op` (v (i-1) `op` ... `op` v (i-m))], the values of [m+1]
    lanes from lane [i] downwards. *)
Fixpoint fold_down (v : nat -> T) (i m : nat) : T :=
  match m with
  | O => v i
  | S m' => op (v i) (fold_down v (i - 1) m')
  end.

(** The fold of the values of lanes [0..i] in lane order,
    [((v 0 `op` v 1) `op` ...) `op` v i]. *)
Definition fold_lanes (xs : list T) (d : T) (i : nat) : T :=
  fold_left op (firstn i (tl xs)) (hd d xs).

(** What the lanes hold when the ladder has reached [offset]: the fold of
    the [offset] lanes from the lane downwards, as far as there are lanes. *)
Definition ladder_invariant (v : nat -> T) (d : T) (offset : nat) (x : list T) : Prop :=
  length x = warp_size /\
  forall i, (i < warp_size)%nat -> nth i x d = fold_down v i (Nat.min (offset - 1) i).
End Scan.

Definition prefix_sum (bits : Z) (warp_size : nat) (Inclusivity : inclusivity_t)
    (value : list Z) : list Z :=
  scan (fun x y => wrap bits (x + y)) 0 warp_size Inclusivity value.

(** ** [primitives::warp::multisearch] *)

Record search_result_t : Type :=
  mk_search_result { lane_index : Z; value : option Z }.

Section Multisearch.
Variable warp_size : Z.

Definition is_set (r : search_result_t) : bool := lane_index r <? warp_size.

Definition cutoff_to_linear_search : Z := 6.

(** The [while] loop; [__shfl(lane_needle, mid)] reads the needle of lane
    [mid], as the source has it. The lanes leave this loop and the next
    after different numbers of turns; the read is answered with the needle
    of lane [mid] whether or not that lane is still in the loop, so that
    only the result of a lane whose reads are all of lanes at the same
    shuffle, or which reads nothing, is the result of the source. *)
Fixpoint narrow_bounds (fuel : nat) (needles : list Z) (lane_needle lower upper : Z) : Z * Z :=
  match fuel with
  | O => (lower, upper)
  | S fuel' =>
      if wrap32 (upper - lower) >=? cutoff_to_linear_search then
        let mid := wrap32 (lower + upper) / 2 in
        let mid_lane_hay_straw := zth needles mid in
        if lane_needle <=? mid_lane_hay_straw
        then narrow_bounds fuel' needles lane_needle (wrap32 (mid + 1)) upper
        else narrow_bounds fuel' needles lane_needle lower mid
      else (lower, upper)
  end.

(** The [for] loop over the lanes [lower..upper-1]. *)
Fixpoint linear_search (fuel : nat) (needles : list Z) (lane_needle lane upper : Z)
    (result : search_result_t) : search_result_t :=
  match fuel with
  | O => result
  | S fuel' =>
      if lane <? upper then
        let hay_straw := zth needles lane in
        if negb (is_set result) && (hay_straw >? lane_needle)
        then mk_search_result lane (Some hay_straw)
        else linear_search fuel' needles lane_needle (wrap32 (lane + 1)) upper result
      else result
  end.

(** One lane's run of [multisearch]; [needles] and [hay] are the per-lane
    arguments of the whole warp. The [value] of a default-constructed
    result is not initialised, which is [None]. *)
Definition multisearch_lane (needles hay : list Z) (lane : Z) : search_result_t :=
  let lane_needle := zth needles lane in
  let lane_hay_straw := zth hay lane in
  let result := mk_search_result warp_size None in
  let '(lower, upper) :=
    if lane_needle <=? lane_hay_straw
    then (0, lane)
    else (wrap32 (lane + 1), warp_size) in
  let '(lower, upper) :=
    narrow_bounds (Z.to_nat warp_size) needles lane_needle lower upper in
  linear_search (Z.to_nat warp_size) needles lane_needle lower upper result.

Definition multisearch (needles hay : list Z) : list search_result_t :=
  map (multisearch_lane needles hay) (zseq 0 (Z.to_nat warp_size)).
End Multisearch.

(** ** [primitives::warp::copy_n] *)

Definition clear_lower_k_bits (x k : Z) : Z := Z.shiftl (Z.shiftr x k) k.

Definition log2_constexpr (x : Z) : Z := Z.log2 x.

(** The values a loop variable takes in
    [for (pos = first; pos < bound; pos += stride)] on [bits]-wide
    unsigned integers. *)
Fixpoint at_stride (fuel : nat) (bits pos stride bound : Z) : list Z :=
  match fuel with
  | O => []
  | S fuel' =>
      if pos <? bound
      then pos :: at_stride fuel' bits (wrap bits (pos + stride)) stride bound
      else []
  end.

Section Copy.
Variable warp_size : Z.
Variable sizeof_T : Z.
Variable MayHaveSlack : bool.

(** Modelled from the spec: [primitives::detail::elements_per_full_warp_write],
    the number of elements of [T] one native 4-byte write holds when
    [sizeof(T)] divides it, 1 otherwise. *)
Definition elements_per_full_warp_write : Z :=
  if (sizeof_T <? 4) && (0 <? sizeof_T) && (4 mod sizeof_T =? 0) then 4 / sizeof_T else 1.

Definition naive_copy_lane (source : list Z) (length lane : Z) : list write :=
  map (fun pos => mk_write pos (zth source pos))
      (at_stride (Z.to_nat length) 32 lane warp_size length).

(** The writes of one lane; [T] is an integer type, hence trivially copy
    constructible. *)
Definition copy_n_lane (source : list Z) (length lane : Z) : list write :=
  if (elements_per_full_warp_write =? 1)
     || negb ((sizeof_T =? 1) || (sizeof_T =? 2) || (sizeof_T =? 4) || (sizeof_T =? 8))
  then naive_copy_lane source length lane
  else
    let truncated_length :=
      if MayHaveSlack
      then clear_lower_k_bits length (log2_constexpr elements_per_full_warp_write)
      else length in
    let packed :=
      flat_map
        (fun pos => map (fun e => mk_write (pos + e) (zth source (pos + e)))
                        (zseq 0 (Z.to_nat elements_per_full_warp_write)))
        (at_stride (Z.to_nat length) 32
           (wrap32 (lane * elements_per_full_warp_write))
           (wrap32 (warp_size * elements_per_full_warp_write)) truncated_length) in
    let slack :=
      if MayHaveSlack then
        if elements_per_full_warp_write =? 2
        then [mk_write truncated_length (zth source truncated_length)]
        else
          let num_slack_elements := wrap32 (length - truncated_length) in
          if lane <? num_slack_elements
          then let pos := wrap32 (truncated_length + lane) in [mk_write pos (zth source pos)]
          else []
      else [] in
    packed ++ slack.

Definition copy_n (source : list Z) (length : Z) : list write :=
  flat_map (copy_n_lane source length) (zseq 0 (Z.to_nat warp_size)).
End Copy.

(** ** Run-position encoding: [kernels::decompression::run_position_encoding] *)

Definition sequence {A : Type} (l : list (option A)) : option (list A) :=
  fold_right (fun o acc =>
                match o, acc with
                | Some x, Some xs => Some (x :: xs)
                | _, _ => None
                end) (Some []) l.

Module run_position_encoding.

Record segment_decompression_params_t : Type := mk_params {
  first_run_index : Z;
  num_runs : Z;
  uncompressed_start_position : Z;
  decompressed_length : Z }.

(** The variables of [decompress_a_segment_with_few_runs] a lane keeps from
    one write to the next. *)
Record lane_registers : Type := mk_lane {
  first_possible_run_for_next_write : Z;
  relative_write_position : Z }.

Section Kernel.
(** The template parameters, in bytes; the integer promotions are those of
    types at least as wide as [unsigned], the widths the kernel is
    instantiated for. *)
Variables IndexSize UncompressedSize PositionOffsetSize : Z.
Variable PositionsAreRelative : bool.
(** [grid_info::linear::warp_size] and [grid_info::linear::block::length()]. *)
Variable warp_size : Z.
Variable block_length : Z.

Definition index_bits : Z := 8 * IndexSize.
Definition position_offset_bits : Z := 8 * PositionOffsetSize.
Definition wrap_index (x : Z) : Z := wrap index_bits x.
Definition wrap_offset (x : Z) : Z := wrap position_offset_bits x.

Definition elements_per_thread_write : Z :=
  if UncompressedSize >=? 4 then 1 else 4 / UncompressedSize.

(** A condition on the length of a segment: in every turn of every warp of
    the block, when some lane has a further write, and so calls
    [get_from_last_lane], the last lane of its warp has one too. The thread
    writes of the block come in rows of [warp_size], one row per warp and
    turn; row [k] starts at the position
    [k * warp_size * elements_per_thread_write], and the rows after the
    first turn are those with [block_length <= k * warp_size]: when the
    first thread write of such a row starts within the length, so does the
    last. *)
Definition shuffles_include_the_last_lane (length : Z) : Prop :=
  forall k, block_length <= k * warp_size ->
    k * warp_size * elements_per_thread_write < length ->
    (k * warp_size + warp_size - 1) * elements_per_thread_write < length.

Section Segment.
(** The pointer [decompressed], given as the index of the element of the
    output buffer it points to; the writes are recorded at offsets from it. *)
Variable decompressed_at : Z.
Variables run_start_positions run_data : list Z.
Variable params : segment_decompression_params_t.

Definition segment_offset : Z :=
  if PositionsAreRelative then 0 else uncompressed_start_position params.

(** [for (; run_index < params.num_runs; run_index++)
       if (run_start_positions[run_index] > position) break;] *)
Fixpoint advance_run_index (fuel : nat) (position run_index : Z) : Z :=
  match fuel with
  | O => run_index
  | S fuel' =>
      if run_index <? num_runs params then
        if zth run_start_positions run_index >? position
        then run_index
        else advance_run_index fuel' position (wrap_index (run_index + 1))
      else run_index
  end.

(** One turn of the loop over [element_within_thread_write]; the state is
    [run_index], [run_covering_current_element] and the part of
    [thread_write_buffer] filled so far. *)
Definition locate_element (write_position : Z) (st : Z * Z * list Z)
    (element_within_thread_write : Z) : Z * Z * list Z :=
  let '(run_index, _, thread_write_buffer) := st in
  let run_index :=
    advance_run_index (Z.to_nat (num_runs params))
      (wrap_offset (write_position + element_within_thread_write)) run_index in
  let run_covering_current_element := wrap_index (run_index - 1) in
  (run_index, run_covering_current_element,
   thread_write_buffer ++ [zth run_data run_covering_current_element]).

(** [sizeof(write_type)] for [write_type = promoted_size<uncompressed_type>],
    as the [static_assert] of the lambda gives it:
    [sizeof(write_type) / UncompressedSize == elements_per_thread_write]. *)
Definition sizeof_write_type : Z := elements_per_thread_write * UncompressedSize.

(** Whether the address [decompressed + write_position] is a multiple of
    [sizeof(write_type)], as the store through [reinterpret_cast<write_type*>]
    needs it; the device stops the kernel with a misaligned-address fault
    otherwise. The output buffer itself is aligned ("we assume all input
    arrays are well-aligned"), so the address is counted in bytes from its
    start. *)
Definition store_is_aligned (write_position : Z) : bool :=
  ((decompressed_at + write_position) * UncompressedSize) mod sizeof_write_type =? 0.

(** The lambda [locate_and_perform_next_write] up to the write: the element
    writes of the packed write and [run_covering_current_element]; [None]
    is the fault of a misaligned store. *)
Definition locate_and_perform_next_write (regs : lane_registers) : option (list write * Z) :=
  let write_position := wrap_offset (relative_write_position regs + segment_offset) in
  let run_index := wrap_index (first_possible_run_for_next_write regs + 1) in
  let '(_, run_covering_current_element, thread_write_buffer) :=
    fold_left (locate_element write_position)
      (zseq 0 (Z.to_nat elements_per_thread_write)) (run_index, 0, []) in
  if store_is_aligned write_position
  then Some (map (fun e => mk_write (write_position + e) (zth thread_write_buffer e))
                 (zseq 0 (Z.to_nat elements_per_thread_write)),
             run_covering_current_element)
  else None.

Definition truncated_decompressed_length : Z :=
  clear_lower_k_bits (decompressed_length params) (log2_constexpr elements_per_thread_write).

(** [block::length() * elements_per_thread_write]. *)
Definition block_stride : Z := wrap32 (block_length * elements_per_thread_write).

Definition in_loop (regs : lane_registers) : bool :=
  relative_write_position regs <? truncated_decompressed_length.

Definition next_relative_write_position_for_this_thread (regs : lane_registers) : Z :=
  wrap_offset (relative_write_position regs + block_stride).

(** The condition of the [if] around [get_from_last_lane]: the lanes for
    which it holds call the shuffle, the other lanes do not. *)
Definition has_a_further_write (regs : lane_registers) : bool :=
  next_relative_write_position_for_this_thread regs <? decompressed_length params.

(** The rest of the lambda and the increment of the [for] loop, for a lane
    which has performed its write ([performed] is [Some]); [from_last_lane]
    is what [get_from_last_lane(run_covering_current_element)] gives to the
    lanes which call it, nothing when the value is not defined. *)
Definition adopt (from_last_lane : option Z) (regs : lane_registers)
    (performed : option (list write * Z)) : option lane_registers :=
  match performed with
  | None => Some regs
  | Some _ =>
      if has_a_further_write regs
      then option_map
             (fun c => mk_lane c (next_relative_write_position_for_this_thread regs))
             from_last_lane
      else Some (mk_lane (first_possible_run_for_next_write regs)
                   (next_relative_write_position_for_this_thread regs))
  end.

Definition performed_writes (performed : option (list write * Z)) : list write :=
  match performed with
  | Some (ws, _) => ws
  | None => []
  end.

(** One turn of the block-stride loop for the lanes of a warp in lockstep.
    A lane which has left the loop takes no part in it. A misaligned store
    of any lane ends the kernel. [get_from_last_lane] is a [__shfl] from
    the last lane of the warp, called only by the lanes with a further
    write: what it returns is defined only when the last lane is one of
    them, that is, when it has written in this turn and has a further write
    itself; a shuffle from a lane which does not call it is [None]. *)
Definition main_round (lanes : list lane_registers) : option (list lane_registers * list write) :=
  match sequence
          (map (fun regs => if in_loop regs
                            then option_map Some (locate_and_perform_next_write regs)
                            else Some None) lanes) with
  | None => None
  | Some performed =>
      let from_last_lane :=
        match nth (Z.to_nat (warp_size - 1)) (combine lanes performed) (mk_lane 0 0, None) with
        | (last, Some (_, run_covering_current_element)) =>
            if has_a_further_write last then Some run_covering_current_element else None
        | (_, None) => None
        end in
      match sequence (map (fun rp => adopt from_last_lane (fst rp) (snd rp))
                          (combine lanes performed)) with
      | None => None
      | Some lanes' => Some (lanes', flat_map performed_writes performed)
      end
  end.

(** The block-stride loop of a warp; [None] when a turn is [None] or when
    the fuel does not suffice. *)
Fixpoint main_loop (fuel : nat) (lanes : list lane_registers)
    : option (list lane_registers * list write) :=
  if forallb (fun regs => negb (in_loop regs)) lanes then Some (lanes, [])
  else
    match fuel with
    | O => None
    | S fuel' =>
        match main_round lanes with
        | None => None
        | Some (lanes', ws) =>
            match main_loop fuel' lanes' with
            | None => None
            | Some (final, rest) => Some (final, ws ++ rest)
            end
        end
    end.

(** The registers of the lanes of a warp after at most [n] turns of the
    block-stride loop: the state of the loop between two turns. *)
Fixpoint turns (n : nat) (lanes : list lane_registers) : option (list lane_registers) :=
  match n with
  | O => Some lanes
  | S n' =>
      if forallb (fun regs => negb (in_loop regs)) lanes then Some lanes
      else
        match main_round lanes with
        | None => None
        | Some (lanes', _) => turns n' lanes'
        end
  end.

Definition num_slack_elements : Z :=
  wrap_offset (decompressed_length params - truncated_decompressed_length).

Definition this_thread_wrote_last_element_so_far (regs : lane_registers) : bool :=
  relative_write_position regs =?
  wrap_offset (wrap_offset (truncated_decompressed_length - elements_per_thread_write)
               + wrap32 (elements_per_thread_write * block_length)).

Definition first_lane_satisfying (predicates : list bool) : Z :=
  builtins.count_trailing_zeros (builtins.warp_ballot predicates).

(** The slack part up to the single-element writes: for each lane its
    registers and whether it goes on to write a slack element. *)
Definition rederive_first_possible_run (first_thread_of_warp : Z)
    (lanes : list lane_registers) : list (lane_registers * bool) :=
  let stay := map (fun regs => (regs, false)) lanes in
  if elements_per_thread_write >? 1 then
    if num_slack_elements =? 0 then stay
    else if truncated_decompressed_length =? 0 then
      map (fun lr =>
             let '(lane, regs) := lr in
             if first_thread_of_warp + lane >=? num_slack_elements
             then (regs, false)
             else (mk_lane 0 (relative_write_position regs), true))
          (combine (zseq 0 (length lanes)) lanes)
    else
      let wrote := map this_thread_wrote_last_element_so_far lanes in
      if builtins.all_in_warp_satisfy (map negb wrote) then stay
      else
        let lane_which_wrote_the_last_element_so_far := first_lane_satisfying wrote in
        let lane_which_saw_the_farthest_run_so_far := lane_which_wrote_the_last_element_so_far in
        map (fun lr =>
               let '(lane, regs) := lr in
               let updated :=
                 mk_lane
                   (first_possible_run_for_next_write
                      (nth (Z.to_nat lane_which_saw_the_farthest_run_so_far) lanes regs))
                   (relative_write_position regs) in
               (updated, negb (lane >=? num_slack_elements)))
            (combine (zseq 0 (length lanes)) lanes)
  else stay.

Definition slack_write (lane : Z) (regs : lane_registers) : write :=
  let num_actually_decompressed := truncated_decompressed_length in
  let slack_write_position :=
    wrap (Z.max position_offset_bits index_bits)
      (num_actually_decompressed + lane + segment_offset) in
  let run_index := wrap_index (first_possible_run_for_next_write regs + 1) in
  let run_index :=
    advance_run_index (Z.to_nat (num_runs params)) slack_write_position run_index in
  let run_covering_current_element := wrap_index (run_index - 1) in
  mk_write slack_write_position (zth run_data run_covering_current_element).

Definition slack_writes (first_thread_of_warp : Z) (lanes : list lane_registers) : list write :=
  flat_map (fun lr : Z * (lane_registers * bool) =>
              if snd (snd lr) then [slack_write (fst lr) (fst (snd lr))] else [])
           (combine (zseq 0 (length lanes))
                    (rederive_first_possible_run first_thread_of_warp lanes)).

(** The lanes of warp [w] of the block and their registers on entry. *)
Definition warp_lanes (w : Z) : list Z :=
  zseq 0 (Z.to_nat (Z.min warp_size (block_length - w * warp_size))).

Definition initial_registers (w lane : Z) : lane_registers :=
  mk_lane 0 (wrap_offset (wrap32 ((w * warp_size + lane) * elements_per_thread_write))).

Definition main_loop_fuel : nat := Z.to_nat truncated_decompressed_length.

Definition decompress_warp (w : Z) : option (list write) :=
  match main_loop main_loop_fuel (map (initial_registers w) (warp_lanes w)) with
  | None => None
  | Some (lanes, ws) => Some (ws ++ slack_writes (w * warp_size) lanes)
  end.

Definition num_warps : Z := (block_length + warp_size - 1) / warp_size.

(** The writes of a block, at offsets from the pointer [decompressed] the
    block has been given. *)
Definition decompress_a_segment_with_few_runs : option (list write) :=
  option_map (@concat write) (sequence (map decompress_warp (zseq 0 (Z.to_nat num_warps)))).

Definition decompress_segment : option (list write) := decompress_a_segment_with_few_runs.

(** Whether a turn of the loop is defined for a warp: no lane in the loop
    stores at a misaligned address, and when some lane calls
    [get_from_last_lane] the last lane of the warp calls it too. *)
Definition turn_is_defined (lanes : list lane_registers) : bool :=
  forallb (fun regs =>
             negb (in_loop regs)
             || store_is_aligned (wrap_offset (relative_write_position regs + segment_offset)))
          lanes
  && (forallb (fun regs => negb (in_loop regs && has_a_further_write regs)) lanes
      || (let last := nth (Z.to_nat (warp_size - 1)) lanes (mk_lane 0 0) in
          in_loop last && has_a_further_write last)).

(** All the lanes of a warp hold the same [first_possible_run_for_next_write]:
    the variable is a scalar of the warp. *)
Definition warp_agrees (lanes : list lane_registers) : Prop :=
  forall a b, In a lanes -> In b lanes ->
    first_possible_run_for_next_write a = first_possible_run_for_next_write b.

(** *** What the lanes hold between two turns of the block-stride loop

    [covering q] stands for the index, among the runs handed to the block,
    of the run which covers the position [q] of the segment, and
    [expected q] for the value at that position. *)
Section Invariant.
Variables covering expected : Z -> Z.

Definition tables_cover_segment : Prop :=
  forall q, 0 <= q < decompressed_length params ->
    0 <= covering q < num_runs params
    /\ (forall j, 1 <= j <= covering q -> zth run_start_positions j <= segment_offset + q)
    /\ (forall j, covering q < j < num_runs params ->
                  segment_offset + q < zth run_start_positions j)
    /\ zth run_data (covering q) = expected q.

(** The registers of thread [thread] when the warp has made [round] turns:
    the thread is at its write position of some turn [r], which is past the
    truncated length when the thread has left the loop before, and the run
    it starts its next search from does not lie beyond the runs of the
    positions still to be written. *)
Definition lane_invariant (round thread : Z) (regs : lane_registers) : Prop :=
  let rel := relative_write_position regs in
  let fp := first_possible_run_for_next_write regs in
  (exists r, 0 <= r <= round
             /\ rel = (thread + r * block_length) * elements_per_thread_write
             /\ (r < round -> truncated_decompressed_length <= rel))
  /\ rel < truncated_decompressed_length + block_length * elements_per_thread_write
  /\ 0 <= fp
  /\ (rel < truncated_decompressed_length -> fp <= covering rel)
  /\ (truncated_decompressed_length < decompressed_length params ->
      fp <= covering truncated_decompressed_length).

Definition warp_invariant (round w : Z) (lanes : list lane_registers) : Prop :=
  length lanes = Z.to_nat warp_size
  /\ forall lane, 0 <= lane < warp_size ->
       lane_invariant round (w * warp_size + lane) (nth (Z.to_nat lane) lanes (mk_lane 0 0)).

(** The runs the lanes of warp [w] start their searches from lie at or
    before the run of every position the warp has yet to write after
    [round] turns. *)
Definition search_bound (round w : Z) (lanes : list lane_registers) : Prop :=
  forall regs q, In regs lanes ->
    (w * warp_size + round * block_length) * elements_per_thread_write <= q
      < decompressed_length params ->
    first_possible_run_for_next_write regs <= covering q.

(** Position [q] of the segment belongs to turn [r] of warp [w]. *)
Definition written_in_turn (w r q : Z) : Prop :=
  0 <= q < truncated_decompressed_length
  /\ (w * warp_size + r * block_length) * elements_per_thread_write <= q
     < (w * warp_size + warp_size + r * block_length) * elements_per_thread_write.

Definition expected_write (q : Z) : write := mk_write (segment_offset + q) (expected q).

(** What a turn of the loop does to a lane, in terms of the tables: the
    writes of the lane, and its registers afterwards, [last] being the
    registers of the last lane of the warp before the turn. *)
Definition turn_writes (regs : lane_registers) : list write :=
  if in_loop regs
  then map expected_write (zseq (relative_write_position regs) (Z.to_nat elements_per_thread_write))
  else [].

Definition after_turn (last regs : lane_registers) : lane_registers :=
  if in_loop regs then
    let next := relative_write_position regs + block_length * elements_per_thread_write in
    if next <? decompressed_length params
    then mk_lane (covering (relative_write_position last + elements_per_thread_write - 1)) next
    else mk_lane (first_possible_run_for_next_write regs) next
  else regs.

(** The warp which takes the slack elements: the first warp when there is no
    full write at all, the warp of the thread with the last full write
    otherwise. *)
Definition slack_warp : Z :=
  if truncated_decompressed_length =? 0 then 0
  else ((truncated_decompressed_length / elements_per_thread_write - 1) mod block_length)
       / warp_size.

End Invariant.

End Segment.

Definition resolve_segment_decompression_params
    (run_start_positions position_anchors : list Z)
    (anchoring_period num_anchors num_element_runs total_uncompressed_length : Z)
    (block_index : Z) : segment_decompression_params_t :=
  let anchor_index := block_index in
  let next_anchor_index := wrap32 (block_index + 1) in
  let uncompressed_start_position := wrap_index (anchor_index * anchoring_period) in
  let is_last_segment := next_anchor_index =? num_anchors in
  let decompressed_length :=
    wrap_offset (if is_last_segment
                 then wrap_index (total_uncompressed_length - uncompressed_start_position)
                 else anchoring_period) in
  let first_run_index := zth position_anchors anchor_index in
  let one_past_last_run_index :=
    if is_last_segment then num_element_runs
    else
      let run_index_at_next_anchor := zth position_anchors next_anchor_index in
      let next_uncompressed_segment_start_position :=
        wrap_index (uncompressed_start_position + anchoring_period) in
      wrap_index (run_index_at_next_anchor +
                  Z.b2z (zth run_start_positions run_index_at_next_anchor
                         <? next_uncompressed_segment_start_position)) in
  mk_params first_run_index
            (wrap_offset (wrap_index (one_past_last_run_index - first_run_index)))
            uncompressed_start_position
            decompressed_length.

(** The kernel as run by block [block_index]: the writes into [decompressed]. *)
Definition decompress_block
    (run_data run_start_positions position_anchors : list Z)
    (anchoring_period num_anchors num_element_runs uncompressed_length : Z)
    (block_index : Z) : option (list write) :=
  let block_params :=
    resolve_segment_decompression_params run_start_positions position_anchors
      anchoring_period num_anchors num_element_runs uncompressed_length block_index in
  let decompressed_offset :=
    if PositionsAreRelative then uncompressed_start_position block_params else 0 in
  option_map
    (map (fun w => mk_write (decompressed_offset + w_pos w) (w_val w)))
    (decompress_segment
       decompressed_offset
       (offset_ptr run_start_positions (first_run_index block_params))
       (offset_ptr run_data (first_run_index block_params))
       block_params).

(** The kernel on a grid of [grid_length] blocks: the writes of each block. *)
Definition decompress
    (run_data run_start_positions position_anchors : list Z)
    (anchoring_period num_anchors num_element_runs uncompressed_length : Z)
    (grid_length : Z) : option (list (list write)) :=
  sequence (map (decompress_block run_data run_start_positions position_anchors
                   anchoring_period num_anchors num_element_runs uncompressed_length)
                (zseq 0 (Z.to_nat grid_length))).

End Kernel.

(** *** The compressed form

    The compressor is not among the sources; the tables it produces are
    modelled from the spec's data model. *)

(** Modelled from the spec: the compressor's [run_start_positions] in
    absolute form; run [i] covers the positions from its start up to the
    start of run [i+1]. *)
Fixpoint run_starts (from : Z) (run_lengths : list Z) : list Z :=
  match run_lengths with
  | [] => []
  | len :: rest => from :: run_starts (from + len) rest
  end.

(** Modelled from the spec: the index of the run covering position [p], the
    last run which starts at or before [p]. *)
Definition covering_run (starts : list Z) (p : Z) : Z :=
  Z.of_nat (length (filter (fun s => s <=? p) starts)) - 1.

Definition div_rounding_up (a b : Z) : Z := (a + b - 1) / b.

Definition uncompressed_length_of (runs : list (Z * Z)) : Z :=
  fold_right Z.add 0 (map snd runs).

Definition num_anchors_of (runs : list (Z * Z)) (anchoring_period : Z) : Z :=
  div_rounding_up (uncompressed_length_of runs) anchoring_period.

(** Modelled from the spec: the compressor's [position_anchors];
    [position_anchors[k]] is the index of the run covering position
    [k * anchoring_period]. *)
Definition position_anchors_of (runs : list (Z * Z)) (anchoring_period : Z) : list Z :=
  map (fun k => covering_run (run_starts 0 (map snd runs)) (k * anchoring_period))
      (zseq 0 (Z.to_nat (num_anchors_of runs anchoring_period))).

(** The length of the segment of block [g]: the anchoring period, or what
    is left of the array in the last segment. *)
Definition segment_length_of (runs : list (Z * Z)) (anchoring_period g : Z) : Z :=
  if g + 1 =? num_anchors_of runs anchoring_period
  then uncompressed_length_of runs - g * anchoring_period
  else anchoring_period.

(** The array a list of runs (value, length) stands for. *)
Definition expand (runs : list (Z * Z)) : list Z :=
  flat_map (fun r => repeat (fst r) (Z.to_nat (snd r))) runs.

(** Modelled from the spec: the compressor's [run_start_positions] in
    segment-relative form: the offset of the start of each run from the
    start of the segment it starts in. *)
Definition relative_run_starts (anchoring_period : Z) (starts : list Z) : list Z :=
  map (fun s => s mod anchoring_period) starts.

Definition run_start_positions_of (PositionsAreRelative : bool)
    (runs : list (Z * Z)) (anchoring_period : Z) : list Z :=
  if PositionsAreRelative
  then relative_run_starts anchoring_period (run_starts 0 (map snd runs))
  else run_starts 0 (map snd runs).

(** The whole round: compress [runs], launch the kernel on one block per
    anchor, replay the writes on the output buffer. *)
Definition decode_encoded
    (IndexSize UncompressedSize PositionOffsetSize : Z) (PositionsAreRelative : bool)
    (warp_size block_length : Z)
    (runs : list (Z * Z)) (anchoring_period : Z) (decompressed : list Z) : option (list Z) :=
  option_map
    (fun per_block => apply_writes (concat per_block) decompressed)
    (decompress IndexSize UncompressedSize PositionOffsetSize PositionsAreRelative
       warp_size block_length
       (map fst runs) (run_start_positions_of PositionsAreRelative runs anchoring_period)
       (position_anchors_of runs anchoring_period)
       anchoring_period (num_anchors_of runs anchoring_period)
       (Z.of_nat (length runs)) (uncompressed_length_of runs)
       (num_anchors_of runs anchoring_period)).

End run_position_encoding.

(** ** More of [primitives::warp] *)

(** ** [primitives::warp]: votes *)

(** A predicate is passed as an [unsigned] or an [int]; it holds when it is
    not zero. *)
Definition holds (predicate : Z) : bool := negb (predicate =? 0).

(** [!predicate], converted back to [unsigned]. *)
Definition logical_not (predicate : Z) : Z := Z.b2z (predicate =? 0).

Definition all_satisfy (predicate : list Z) : Z :=
  Z.b2z (builtins.all_in_warp_satisfy (map holds predicate)).

Definition none_satisfy (predicate : list Z) : Z :=
  all_satisfy (map logical_not predicate).

Definition all_lanes_agree_on (predicate : list Z) : Z :=
  let ballot_results := builtins.warp_ballot (map holds predicate) in
  Z.b2z ((ballot_results =? 0) || (wrap32 (Z.lnot ballot_results) =? 0)).

Definition some_satisfy (predicate : list Z) : Z :=
  logical_not (none_satisfy predicate).

Definition vote_and_tally (predicate : list Z) : Z :=
  builtins.population_count (builtins.warp_ballot (map holds predicate)).

(** [detail::have_a_single_active_lane_compute<Function, PreferFirstLane>]. *)
Definition have_a_single_active_lane_compute {St R : Type} (PreferFirstLane : bool)
    (f : St -> R * St) (active_lanes_mask : Z) (s : St) : option R * St :=
  have_a_single_lane_compute f
    (detail.select_leader_lane PreferFirstLane active_lanes_mask) active_lanes_mask s.

(** ** [primitives::warp::reduce] *)

Section Reduce.
Context {T : Type}.
Variable op : T -> T -> T.
Variable warp_size : nat.

(** [__shfl_xor(value, lane_mask)]: lane [i] reads the value of lane
    [i xor lane_mask]; a lane whose source lies outside the warp keeps its
    own. *)
Definition shfl_xor (xs : list T) (lane_mask : nat) : list T :=
  map (fun ix => nth (Nat.lxor (fst ix) lane_mask) xs (snd ix)) (with_lane_index xs).

(** [op_acc(value, __shfl_xor(value, shuffle_mask))] in every lane. *)
Definition reduce_step (shuffle_mask : nat) (value : list T) : list T :=
  map (fun vs => acc_op op (fst vs) (snd vs)) (combine value (shfl_xor value shuffle_mask)).

(** [for (shuffle_mask = half_warp_size; shuffle_mask > 0; shuffle_mask >>= 1)]. *)
Fixpoint reduce_ladder (fuel shuffle_mask : nat) (value : list T) : list T :=
  match fuel with
  | O => value
  | S fuel' =>
      if (0 <? shuffle_mask)%nat
      then reduce_ladder fuel' (shuffle_mask / 2) (reduce_step shuffle_mask value)
      else value
  end.

Definition reduce (value : list T) : list T :=
  reduce_ladder warp_size (warp_size / 2) value.

(** The operator on partial results: [None] stands for no lane at all. *)
Definition join (a b : option T) : option T :=
  match a, b with
  | Some x, Some y => Some (op x y)
  | Some x, None => Some x
  | None, _ => b
  end.

(** The values of the lanes selected by [keep], combined in lane order. *)
Definition combined (v : nat -> T) (keep : nat -> bool) (lanes : list nat) : option T :=
  fold_right (fun j acc => if keep j then join (Some (v j)) acc else acc) None lanes.

(** What the lanes hold when the masks above [modulus / 2] are done: lane
    [i] holds the values of the lanes which differ from [i] by a multiple of
    [modulus], combined. *)
Definition butterfly_invariant (v : nat -> T) (d : T) (modulus : nat) (x : list T) : Prop :=
  length x = warp_size /\
  forall i, (i < warp_size)%nat ->
    combined v (fun j => (j mod modulus =? i mod modulus)%nat) (seq 0 warp_size)
    = Some (nth i x d).
End Reduce.

(** [warp::sum<Datum>] for a [bits]-wide unsigned [Datum]. *)
Definition warp_sum (bits : Z) (warp_size : nat) (value : list Z) : list Z :=
  reduce (fun x y => wrap bits (x + y)) warp_size value.

(** ** [primitives::warp]: loops at warp stride *)

Section WarpStride.
Variable warp_size : Z.

(** [at_warp_stride(length, f)]: the positions the lane hands to [f], in
    the order of the calls. *)
Definition at_warp_stride (length lane : Z) : list Z :=
  at_stride (Z.to_nat length) 32 lane warp_size length.

(** What a warp does when each lane does [per_lane]. *)
Definition by_all_lanes {A : Type} (per_lane : Z -> list A) : list A :=
  flat_map per_lane (zseq 0 (Z.to_nat warp_size)).

(** [cast_and_copy<T, U, Size>] for a [target_bits]-wide unsigned [T]: the
    element is converted on assignment. *)
Definition cast_and_copy (target_bits : Z) (source : list Z) (length : Z) : list write :=
  by_all_lanes
    (fun lane => map (fun pos => mk_write pos (wrap target_bits (zth source pos)))
                     (at_stride (Z.to_nat length) 32 lane warp_size length)).

(** [detail::naive_copy] by the whole warp. *)
Definition naive_copy (source : list Z) (length : Z) : list write :=
  by_all_lanes (naive_copy_lane warp_size source length).

Definition fill_n (count value : Z) : list write :=
  by_all_lanes
    (fun lane => map (fun index => mk_write index value)
                     (at_stride (Z.to_nat count) 32 lane warp_size count)).

Definition lookup (lookup_table indices : list Z) (num_indices : Z) : list write :=
  by_all_lanes
    (fun lane => map (fun pos => mk_write pos (zth lookup_table (zth indices pos)))
                     (at_stride (Z.to_nat num_indices) 32 lane warp_size num_indices)).

(** [elementwise_accumulate] with an array as source: [op] stands for the
    value [AccumulatingOperation] leaves in its first argument. The lanes
    touch different elements; their turns are taken one lane after the
    other. *)
Definition elementwise_accumulate (op : Z -> Z -> Z) (destination source : list Z)
    (length : Z) : list Z :=
  fold_left
    (fun destination pos =>
       store destination (Z.to_nat pos) (op (zth destination pos) (zth source pos)))
    (by_all_lanes (fun lane => at_stride (Z.to_nat length) 32 lane warp_size length))
    destination.

(** [elementwise_accumulate] with one source element in each lane. *)
Definition elementwise_accumulate_element (op : Z -> Z -> Z) (destination : list Z)
    (source_element : list Z) (length : Z) : list Z :=
  fold_left
    (fun destination lane =>
       if lane <? length
       then store destination (Z.to_nat lane)
              (op (zth destination lane) (zth source_element lane))
       else destination)
    (zseq 0 (Z.to_nat warp_size)) destination.
End WarpStride.

(** [at_grid_stride(length, f)]: the positions the warp with the index
    [warp_global_index] hands to [f], in a grid of [num_warps_in_grid]
    warps. *)
Definition at_grid_stride (num_warps_in_grid length warp_global_index : Z) : list Z :=
  at_stride (Z.to_nat length) 32 warp_global_index num_warps_in_grid length.

(** ** [primitives::warp::compute_predicate_at_warp_stride] *)

Inductive predicate_computation_length_slack_t : Type :=
  | has_no_slack
  | may_have_full_warps_of_slack
  | may_have_arbitrary_slack.

(** Modelled from the spec: [round_down_to_warp_size], the multiple of the
    warp size at or next below the argument. *)
Definition round_down_to_warp_size (x : Z) : Z := clear_lower_k_bits x 5.

(** The variables of a lane; the write buffer is [None] as long as nothing
    has been assigned to it. *)
Record predicate_lane : Type := mk_predicate_lane {
  input_pos : Z;
  output_pos : Z;
  warp_results_write_buffer : option Z }.

Definition lane_at (lanes : list predicate_lane) (lane : Z) : predicate_lane :=
  nth (Z.to_nat lane) lanes (mk_predicate_lane 0 0 None).

Section ComputePredicate.
(** The function is for warps of 32 lanes ([static_assert]); [Size] is
    [native_word_t], 32 bits wide. *)
Variable predicate : Z -> bool.
Variable PossibilityOfSlack : predicate_computation_length_slack_t.
Variable length : Z.

Definition full_warp_reads_output_length : Z := Z.shiftr length 5.

Definition full_warp_writes_output_length : Z :=
  match PossibilityOfSlack with
  | has_no_slack => full_warp_reads_output_length
  | _ => round_down_to_warp_size full_warp_reads_output_length
  end.

(** [thread_result = ...; warp_results = warp_ballot(thread_result);
    if (lane::index() == writing_lane) buffer = warp_results] among the
    lanes which [take_part]; with [advance], the [input_pos += warp_size] of
    the loop header as well. *)
Definition ballot_turn (take_part thread_result : predicate_lane -> bool) (advance : bool)
    (lanes : list predicate_lane) (writing_lane : Z) : list predicate_lane :=
  let warp_results :=
    builtins.warp_ballot
      (map (fun lane => take_part (lane_at lanes lane) && thread_result (lane_at lanes lane))
           (zseq 0 32)) in
  map (fun lane =>
         let l := lane_at lanes lane in
         if take_part l then
           mk_predicate_lane
             (if advance then wrap32 (input_pos l + 32) else input_pos l)
             (output_pos l)
             (if lane =? writing_lane then Some warp_results
              else warp_results_write_buffer l)
         else l)
      (zseq 0 32).

(** The declaration of a write buffer, which leaves it without a value. *)
Definition declare_buffer (take_part : predicate_lane -> bool)
    (lanes : list predicate_lane) : list predicate_lane :=
  map (fun l => if take_part l then mk_predicate_lane (input_pos l) (output_pos l) None else l)
      lanes.

(** [computed_predicate[output_pos] = warp_results_write_buffer]; [None]
    when the buffer has no value. *)
Definition store_buffer (l : predicate_lane) : option write :=
  option_map (mk_write (output_pos l)) (warp_results_write_buffer l).

Definition in_full_writes (l : predicate_lane) : bool :=
  output_pos l <? full_warp_writes_output_length.

(** One turn of the loop over [output_pos], for the lanes in it. *)
Definition full_write_turn (lanes : list predicate_lane)
    : list predicate_lane * list (option write) :=
  let lanes :=
    fold_left (ballot_turn in_full_writes (fun l => predicate (input_pos l)) true)
              (zseq 0 32) (declare_buffer in_full_writes lanes) in
  (map (fun l => if in_full_writes l
                 then mk_predicate_lane (input_pos l) (wrap32 (output_pos l + 32))
                        (warp_results_write_buffer l)
                 else l) lanes,
   flat_map (fun l => if in_full_writes l then [store_buffer l] else []) lanes).

Fixpoint full_writes (fuel : nat) (lanes : list predicate_lane)
    : option (list predicate_lane * list (option write)) :=
  if forallb (fun l => negb (in_full_writes l)) lanes then Some (lanes, [])
  else
    match fuel with
    | O => None
    | S fuel' =>
        let (lanes', stores) := full_write_turn lanes in
        match full_writes fuel' lanes' with
        | None => None
        | Some (final, rest) => Some (final, stores ++ rest)
        end
    end.

(** The part for the outputs which do not make a full warp of writes. *)
Definition slack_stores (lanes : list predicate_lane) : list (option write) :=
  match PossibilityOfSlack with
  | has_no_slack => []
  | _ =>
      let full_warp_reads_output_slack_length :=
        wrap32 (full_warp_reads_output_length - full_warp_writes_output_length) in
      let lanes := declare_buffer (fun _ => true) lanes in
      let lanes :=
        if full_warp_reads_output_slack_length >? 0
        then fold_left (ballot_turn (fun _ => true) (fun l => predicate (input_pos l)) true)
                       (zseq 0 (Z.to_nat full_warp_reads_output_slack_length)) lanes
        else lanes in
      let num_writing_lanes := full_warp_reads_output_slack_length in
      let '(lanes, num_writing_lanes) :=
        match PossibilityOfSlack with
        | may_have_arbitrary_slack =>
            let input_slack_length := length mod 32 in
            if input_slack_length >? 0
            then (ballot_turn (fun _ => true)
                    (fun l => if input_pos l <? length then predicate (input_pos l) else false)
                    false lanes num_writing_lanes,
                  wrap32 (num_writing_lanes + 1))
            else (lanes, num_writing_lanes)
        | _ => (lanes, num_writing_lanes)
        end in
      flat_map (fun lane => if lane <? num_writing_lanes
                            then [store_buffer (lane_at lanes lane)] else [])
               (zseq 0 32)
  end.

Definition compute_predicate_at_warp_stride : option (list write) :=
  let lanes := map (fun lane => mk_predicate_lane lane lane None) (zseq 0 32) in
  match full_writes (Z.to_nat length) lanes with
  | None => None
  | Some (lanes, stores) => sequence (stores ++ slack_stores lanes)
  end.

(** The word of results for the 32 inputs from [32 * p] on, those at or past
    [length] counted as false. *)
Definition predicate_word (p : Z) : Z :=
  builtins.warp_ballot
    (map (fun b => (32 * p + b <? length) && predicate (32 * p + b)) (zseq 0 32)).

(** The lanes when [groups] ballots have been taken, the lanes are at the
    outputs from [base] on and hold [buffer]. *)
Definition lanes_with (groups base : Z) (buffer : Z -> option Z) : list predicate_lane :=
  map (fun lane => mk_predicate_lane (lane + 32 * groups) (lane + base) (buffer lane))
      (zseq 0 32).
End ComputePredicate.

(** * Properties *)

(** ** Lists of per-lane values *)

Lemma nth_map_in_range {A B : Type} (f : A -> B) (l : list A) (i : nat) (da : A) (db : B) :
  (i < length l)%nat -> nth i (map f l) db = f (nth i l da).
Proof.
  intros Hi. rewrite (nth_indep (map f l) db (f da)).
  - apply map_nth.
  - now rewrite length_map.
Qed.

Lemma length_with_lane_index {A : Type} (xs : list A) :
  length (with_lane_index xs) = length xs.
Proof.
  unfold with_lane_index. rewrite length_combine, length_seq. apply Nat.min_id.
Qed.

Lemma nth_with_lane_index {A : Type} (xs : list A) (i : nat) (d : A) :
  (i < length xs)%nat -> nth i (with_lane_index xs) (O, d) = (i, nth i xs d).
Proof.
  intros Hi. unfold with_lane_index.
  rewrite combine_nth by apply length_seq.
  now rewrite seq_nth.
Qed.

Section ScanFacts.
Context {T : Type}.
Variable op : T -> T -> T.
Variable neutral_value : T.
Variable warp_size : nat.
Hypothesis op_assoc : forall x y z, op x (op y z) = op (op x y) z.

Lemma length_shfl_up (xs : list T) (delta : nat) : length (shfl_up xs delta) = length xs.
Proof. unfold shfl_up. now rewrite length_map, length_with_lane_index. Qed.

Lemma nth_shfl_up (xs : list T) (delta i : nat) (d : T) :
  (i < length xs)%nat ->
  nth i (shfl_up xs delta) d = if (i <? delta)%nat then nth i xs d else nth (i - delta) xs d.
Proof.
  intros Hi. unfold shfl_up.
  rewrite (nth_map_in_range _ _ _ (O, d)) by now rewrite length_with_lane_index.
  rewrite nth_with_lane_index by assumption. cbn [fst snd].
  destruct (i <? delta)%nat; [reflexivity|].
  apply nth_indep. lia.
Qed.

Lemma length_scan_step (offset : nat) (x : list T) : length (scan_step op offset x) = length x.
Proof.
  unfold scan_step.
  rewrite length_map, length_with_lane_index, length_combine, length_shfl_up.
  apply Nat.min_id.
Qed.

Lemma nth_scan_step (offset i : nat) (x : list T) (d : T) :
  (i < length x)%nat ->
  nth i (scan_step op offset x) d =
  if (offset <=? i)%nat then op (nth i x d) (nth (i - offset) x d) else nth i x d.
Proof.
  intros Hi. unfold scan_step, acc_op.
  assert (Hlen : length (combine x (shfl_up x offset)) = length x).
  { rewrite length_combine, length_shfl_up. apply Nat.min_id. }
  rewrite (nth_map_in_range _ _ _ (O, (d, d))) by now rewrite length_with_lane_index, Hlen.
  rewrite nth_with_lane_index by now rewrite Hlen.
  rewrite combine_nth by now rewrite length_shfl_up.
  rewrite nth_shfl_up by assumption.
  destruct (Nat.leb_spec offset i) as [Hle|Hlt]; [|reflexivity].
  destruct (Nat.ltb_spec i offset); [lia|reflexivity].
Qed.

(** Two adjacent downward folds make one. *)
Lemma fold_down_join (v : nat -> T) (a b i : nat) :
  (a + 1 <= i)%nat ->
  op (fold_down op v i a) (fold_down op v (i - a - 1) b) = fold_down op v i (a + 1 + b).
Proof.
  revert i. induction a as [|a IH]; intros i Hi.
  - cbn. replace (i - 0 - 1)%nat with (i - 1)%nat by lia. reflexivity.
  - cbn [fold_down Nat.add]. rewrite <- op_assoc. f_equal.
    replace (i - S a - 1)%nat with (i - 1 - a - 1)%nat by lia.
    apply IH. lia.
Qed.

Lemma ladder_invariant_step (v : nat -> T) (d : T) (offset : nat) (x : list T) :
  (1 <= offset)%nat ->
  ladder_invariant op warp_size v d offset x ->
  ladder_invariant op warp_size v d (2 * offset) (scan_step op offset x).
Proof.
  intros Ho [Hlen Hx]. split; [now rewrite length_scan_step|].
  intros i Hi. rewrite nth_scan_step by lia.
  destruct (Nat.leb_spec offset i) as [Hle|Hlt].
  - rewrite !Hx by lia.
    replace (Nat.min (offset - 1) i) with (offset - 1)%nat by lia.
    replace (i - offset)%nat with (i - (offset - 1) - 1)%nat by lia.
    rewrite fold_down_join by lia. f_equal. lia.
  - rewrite Hx by lia. f_equal. lia.
Qed.

Lemma scan_ladder_folds (v : nat -> T) (d : T) (fuel offset : nat) (x : list T) :
  (1 <= offset)%nat -> (warp_size <= offset + fuel)%nat ->
  ladder_invariant op warp_size v d offset x ->
  length (scan_ladder op warp_size fuel offset x) = warp_size /\
  forall i, (i < warp_size)%nat ->
            nth i (scan_ladder op warp_size fuel offset x) d = fold_down op v i i.
Proof.
  revert offset x. induction fuel as [|fuel IH]; intros offset x Ho Hfuel Hinv.
  - cbn. destruct Hinv as [Hlen Hx]. split; [assumption|].
    intros i Hi. rewrite Hx by assumption. f_equal. lia.
  - cbn [scan_ladder]. destruct (Nat.ltb_spec offset warp_size) as [Hlt|Hge].
    + apply IH; [lia|lia|]. now apply ladder_invariant_step.
    + destruct Hinv as [Hlen Hx]. split; [assumption|].
      intros i Hi. rewrite Hx by assumption. f_equal. lia.
Qed.

Lemma scan_inclusive_fold_down (value : list T) (d : T) (i : nat) :
  length value = warp_size -> (i < warp_size)%nat ->
  nth i (scan op neutral_value warp_size Inclusive value) d
  = fold_down op (fun j => nth j value d) i i.
Proof.
  intros Hlen Hi. unfold scan.
  apply (scan_ladder_folds (fun j => nth j value d) d warp_size 1 value); try lia.
  split; [assumption|]. intros j Hj. reflexivity.
Qed.

(** The lanes before the ladder of the exclusive scan. *)
Lemma nth_exclusive_preshuffle (value : list T) (d : T) (i : nat) :
  (i < length value)%nat ->
  nth i (map (fun ip : nat * T => if (fst ip =? 0)%nat then neutral_value else snd ip)
             (with_lane_index (shfl_up value 1))) d
  = match i with O => neutral_value | S j => nth j value d end.
Proof.
  intros Hi.
  rewrite (nth_map_in_range _ _ _ (O, d))
    by now rewrite length_with_lane_index, length_shfl_up.
  rewrite nth_with_lane_index by now rewrite length_shfl_up.
  cbn [fst snd]. rewrite nth_shfl_up by assumption.
  destruct i as [|j]; [reflexivity|].
  cbn [Nat.eqb]. destruct (Nat.ltb_spec (S j) 1); [lia|].
  f_equal. lia.
Qed.

Lemma fold_down_shifted (v : nat -> T) (m j : nat) :
  (m <= j)%nat ->
  fold_down op (fun i => match i with O => neutral_value | S k => v k end) (S j) (S m)
  = op (fold_down op v j m)
       (match (j - m)%nat with O => neutral_value | S k => v k end).
Proof.
  revert j. induction m as [|m IH]; intros j Hj.
  - cbn. replace (j - 0)%nat with j by lia. reflexivity.
  - destruct j as [|j]; [lia|].
    change (fold_down op (fun i => match i with O => neutral_value | S k => v k end)
              (S (S j)) (S (S m)))
      with (op (v (S j))
              (fold_down op (fun i => match i with O => neutral_value | S k => v k end)
                 (S (S j) - 1) (S m))).
    replace (S (S j) - 1)%nat with (S j) by lia.
    rewrite IH by lia. rewrite op_assoc.
    cbn [fold_down]. replace (S j - 1)%nat with j by lia.
    replace (S j - S m)%nat with (j - m)%nat by lia. reflexivity.
Qed.

Lemma scan_exclusive_fold_down (value : list T) (d : T) (i : nat) :
  (forall x, op x neutral_value = x) ->
  length value = warp_size -> (i < warp_size)%nat ->
  nth i (scan op neutral_value warp_size Exclusive value) d
  = match i with
    | O => neutral_value
    | S j => fold_down op (fun k => nth k value d) j j
    end.
Proof.
  intros Hneutral Hlen Hi. unfold scan.
  set (x := map _ _).
  destruct (scan_ladder_folds
              (fun k => match k with O => neutral_value | S j => nth j value d end)
              d warp_size 1 x) as [_ Hfold]; try lia.
  - split.
    + subst x. now rewrite length_map, length_with_lane_index, length_shfl_up.
    + intros j Hj. subst x. rewrite nth_exclusive_preshuffle by lia. reflexivity.
  - rewrite Hfold by assumption.
    destruct i as [|j]; [reflexivity|].
    rewrite fold_down_shifted by lia.
    replace (j - j)%nat with O by lia. apply Hneutral.
Qed.

(** For a commutative operator the downward fold is the fold in lane order. *)
Lemma fold_down_fold_lanes (xs : list T) (d : T) (i : nat) :
  (forall x y, op x y = op y x) ->
  (i < length xs)%nat ->
  fold_down op (fun j => nth j xs d) i i = fold_lanes op xs d i.
Proof.
  intros Hcomm. unfold fold_lanes. destruct xs as [|x0 xs]; [cbn; lia|].
  cbn [length hd tl]. induction i as [|i IH]; intros Hi.
  - reflexivity.
  - cbn [fold_down]. replace (S i - 1)%nat with i by lia.
    rewrite IH by lia.
    assert (Hsplit : firstn (S i) xs = firstn i xs ++ [nth i xs d]).
    { clear IH. revert i Hi. induction xs as [|y ys IHys]; intros i Hi; [cbn in Hi; lia|].
      destruct i as [|i]; [reflexivity|].
      cbn [firstn app nth]. f_equal. apply IHys. cbn in Hi |- *. lia. }
    rewrite Hsplit, fold_left_app. cbn [fold_left nth]. apply Hcomm.
Qed.

End ScanFacts.

(** ** The warp primitives on the inputs of the specification *)

Lemma wrap_add_assoc (bits x y z : Z) :
  wrap bits (x + wrap bits (y + z)) = wrap bits (wrap bits (x + y) + z).
Proof.
  unfold wrap. rewrite Zplus_mod_idemp_r, Zplus_mod_idemp_l. f_equal. lia.
Qed.

(** C6, as amended. For an associative operator the inclusive scan leaves in
    lane [i] the values of the lanes [i], [i-1], ..., [0] folded in that
    order, [v i `op` (v (i-1) `op` ... `op` v 0)]; this is the fold of the
    lanes [0..i] in lane order when the operator is commutative as well. The
    exclusive scan gives lane 0 the neutral value and lane [i+1] what the
    inclusive scan gives lane [i], provided the neutral value is neutral on
    the right. Over 32 lanes holding 1, the inclusive sum leaves [i+1] in
    lane [i] and the exclusive sum leaves [i]. *)
Theorem scan_folds_lanes_downwards :
  (forall (T : Type) (op : T -> T -> T) (neutral_value : T) (warp_size : nat)
          (value : list T) (d : T) (i : nat),
      (forall x y z, op x (op y z) = op (op x y) z) ->
      length value = warp_size -> (i < warp_size)%nat ->
      nth i (scan op neutral_value warp_size Inclusive value) d
      = fold_down op (fun j => nth j value d) i i
      /\ ((forall x y, op x y = op y x) ->
          nth i (scan op neutral_value warp_size Inclusive value) d
          = fold_lanes op value d i)
      /\ ((forall x, op x neutral_value = x) ->
          nth i (scan op neutral_value warp_size Exclusive value) d
          = match i with
            | O => neutral_value
            | S j => fold_down op (fun k => nth k value d) j j
            end)
      /\ ((forall x, op x neutral_value = x) -> (forall x y, op x y = op y x) ->
          nth i (scan op neutral_value warp_size Exclusive value) d
          = match i with
            | O => neutral_value
            | S j => fold_lanes op value d j
            end))
  /\ prefix_sum 32 32 Inclusive (repeat 1 32) = map (fun i => i + 1) (zseq 0 32)
  /\ prefix_sum 32 32 Exclusive (repeat 1 32) = zseq 0 32.
Proof.
  split; [|split; vm_compute; reflexivity].
  intros T op neutral_value warp_size value d i Hassoc Hlen Hi.
  repeat split.
  - now apply scan_inclusive_fold_down.
  - intros Hcomm. rewrite scan_inclusive_fold_down by assumption.
    apply fold_down_fold_lanes; [assumption|lia].
  - intros Hneutral. now apply scan_exclusive_fold_down.
  - intros Hneutral Hcomm. rewrite scan_exclusive_fold_down by assumption.
    destruct i as [|j]; [reflexivity|].
    apply fold_down_fold_lanes; [assumption|lia].
Qed.

Lemma scan_folds_lanes_downwards_witness :
  nth 5 (scan Z.add 0 32 Inclusive (repeat 1 32)) 0 = fold_lanes Z.add (repeat 1 32) 0 5
  /\ nth 5 (scan Z.add 0 32 Exclusive (repeat 1 32)) 0 = fold_lanes Z.add (repeat 1 32) 0 4.
Proof.
  destruct (proj1 scan_folds_lanes_downwards Z Z.add 0 32%nat (repeat 1 32) 0 5%nat)
    as (_ & Hincl & _ & Hexcl).
  - intros x y z. lia.
  - reflexivity.
  - lia.
  - split.
    + apply Hincl. intros x y. lia.
    + apply Hexcl.
      * intros x. lia.
      * intros x y. lia.
Defined.

(** C6 as stated fails: the first projection is associative, and the scan
    leaves in lane 1 the value of lane 1, not the fold of lanes 0 and 1 in
    lane order, which is the value of lane 0. *)
Lemma scan_not_the_fold_in_lane_order :
  ~ (forall (op : Z -> Z -> Z) (value : list Z) (i : nat),
        (forall x y z, op x (op y z) = op (op x y) z) ->
        length value = 32%nat -> (i < 32)%nat ->
        nth i (scan op 0 32 Inclusive value) 0 = fold_lanes op value 0 i).
Proof.
  intros H.
  specialize (H (fun x _ => x) (zseq 0 32) 1%nat (fun _ _ _ => eq_refl) eq_refl).
  assert (Hlt : (1 < 32)%nat) by lia.
  specialize (H Hlt). vm_compute in H. discriminate H.
Qed.

(** C5: on the mask with the lanes 5 and 9 set, the leader with
    [PreferFirstLane] is 22, the number of leading zeros, a lane which is
    not in the mask; without it the leader is 5, the lowest lane. *)
Theorem select_leader_lane_of_lanes_5_and_9 :
  detail.select_leader_lane true (2 ^ 5 + 2 ^ 9) = 22
  /\ detail.select_leader_lane false (2 ^ 5 + 2 ^ 9) = 5
  /\ lane_is_active (2 ^ 5 + 2 ^ 9) 22 = false.
Proof. repeat split. Qed.

(** C8: the mask of the lanes below lane [i] has [i] bits set, whatever the
    active lanes are; the function yields that count as a truth value, which
    is 0 in lane 0 and 1 in every other lane. *)
Theorem lane_index_among_active_lanes_is_a_flag :
  map (fun lane => builtins.population_count (detail.preceding_lanes_mask lane)) (zseq 0 32)
  = zseq 0 32
  /\ forall active : list bool,
       map (lane_index_among_active_lanes active) (zseq 0 32) = 0 :: repeat 1 31.
Proof.
  split; [vm_compute; reflexivity|].
  intros active. reflexivity.
Qed.

(** C9: with all 32 lanes active and the counter at 0 the counter ends at 32
    and lane 0 gets 0, but every other lane gets 1; with only the lanes 5
    and 9 active the lane chosen to add is lane 22, nothing is added and
    there is no value to hand to the lanes. *)
Theorem active_lanes_increment_hands_out_flags :
  active_lanes_increment 32 0 (repeat true 32) (zseq 0 32)
  = (32, Some 0 :: repeat (Some 1) 31)
  /\ active_lanes_increment 32 0
       (map (fun lane => (lane =? 5) || (lane =? 9)) (zseq 0 32)) [5; 9]
     = (0, [None; None]).
Proof. split; vm_compute; reflexivity. Qed.

(** C4: four lanes with the hay [10, 20, 30, 40] and the same values as
    needles; no lane finds anything, and the same holds for 32 lanes with
    the hay [10, 20, ..., 320]. Lane 0, its needle being its own straw,
    searches the lanes below itself: it executes no shuffle and finds
    nothing whatever the other lanes hold. *)
Theorem multisearch_of_the_hay_finds_nothing :
  multisearch 4 [10; 20; 30; 40] [10; 20; 30; 40] = repeat (mk_search_result 4 None) 4
  /\ multisearch 32 (map (fun i => 10 * (i + 1)) (zseq 0 32))
                    (map (fun i => 10 * (i + 1)) (zseq 0 32))
     = repeat (mk_search_result 32 None) 32
  /\ forall others_needles others_hay : list Z,
       multisearch_lane 4 (10 :: others_needles) (10 :: others_hay) 0
       = mk_search_result 4 None.
Proof.
  split; [vm_compute; reflexivity|]. split; [vm_compute; reflexivity|].
  intros others_needles others_hay. reflexivity.
Qed.

(** C10: copying 2 elements of a 2-byte type writes the element at index 2
    as well: the unconditional write of the slack element of the packing
    factor 2 falls behind the range when the length is even. *)
Theorem copy_n_even_length_writes_past_the_end :
  elements_per_full_warp_write 2 = 2
  /\ In (mk_write 2 9) (copy_n 32 2 true [7; 8; 9] 2)
  /\ apply_writes (copy_n 32 2 true [7; 8; 9] 2) [0; 0; 0] = [7; 8; 9].
Proof.
  split; [reflexivity|]. split; [|vm_compute; reflexivity].
  vm_compute. right. right. left. reflexivity.
Qed.

(** ** Fixed-width arithmetic *)

Lemma wrap_small (bits x : Z) : 0 <= x < 2 ^ bits -> wrap bits x = x.
Proof. intros H. unfold wrap. now apply Z.mod_small. Qed.

Lemma wrap_range (bits x : Z) : 0 <= bits -> 0 <= wrap bits x < 2 ^ bits.
Proof. intros H. unfold wrap. apply Z.mod_pos_bound. now apply Z.pow_pos_nonneg. Qed.

Lemma pow2_le_mono (a b : Z) : 0 <= a <= b -> 2 ^ a <= 2 ^ b.
Proof. intros H. apply Z.pow_le_mono_r; lia. Qed.

(** ** Segment parameters *)

Import run_position_encoding.

Section ResolveFacts.
Variables IndexSize PositionOffsetSize : Z.
Variables run_start_positions position_anchors : list Z.
Variables anchoring_period num_anchors num_element_runs total_uncompressed_length : Z.
Variable g : Z.

Local Notation resolved :=
  (resolve_segment_decompression_params IndexSize PositionOffsetSize
     run_start_positions position_anchors anchoring_period num_anchors
     num_element_runs total_uncompressed_length g).
Local Notation this_anchor := (zth position_anchors g).
Local Notation next_anchor := (zth position_anchors (g + 1)).

Hypothesis Hg : 0 <= g.
Hypothesis Hg32 : g + 1 < 2 ^ 32.
Hypothesis Hperiod : 0 <= anchoring_period < 2 ^ (8 * PositionOffsetSize).
Hypothesis Hstart : g * anchoring_period < 2 ^ (8 * IndexSize).

Lemma next_anchor_index_fits : wrap32 (g + 1) = g + 1.
Proof. apply wrap_small. lia. Qed.

Lemma resolved_start : uncompressed_start_position resolved = g * anchoring_period.
Proof.
  unfold resolve_segment_decompression_params. cbn [uncompressed_start_position].
  apply wrap_small. unfold index_bits. nia.
Qed.

Lemma resolved_first_run : first_run_index resolved = this_anchor.
Proof. reflexivity. Qed.

Lemma resolved_length_last :
  g + 1 = num_anchors ->
  g * anchoring_period <= total_uncompressed_length < 2 ^ (8 * IndexSize) ->
  total_uncompressed_length - g * anchoring_period < 2 ^ (8 * PositionOffsetSize) ->
  decompressed_length resolved = total_uncompressed_length - g * anchoring_period.
Proof.
  intros Hlast Htotal Hfits. pose proof resolved_start as Hst.
  unfold resolve_segment_decompression_params in *.
  cbn [uncompressed_start_position decompressed_length] in *.
  rewrite next_anchor_index_fits, Hst, (proj2 (Z.eqb_eq _ _) Hlast).
  unfold wrap_offset, wrap_index, position_offset_bits, index_bits.
  rewrite (wrap_small (8 * IndexSize)) by lia. apply wrap_small. lia.
Qed.

Lemma resolved_length_inner :
  g + 1 <> num_anchors -> decompressed_length resolved = anchoring_period.
Proof.
  intros Hinner.
  unfold resolve_segment_decompression_params. cbn [decompressed_length].
  rewrite next_anchor_index_fits, (proj2 (Z.eqb_neq _ _) Hinner).
  apply wrap_small. unfold position_offset_bits. lia.
Qed.

Lemma resolved_num_runs_last :
  g + 1 = num_anchors ->
  0 <= this_anchor <= num_element_runs -> num_element_runs < 2 ^ (8 * IndexSize) ->
  num_element_runs - this_anchor < 2 ^ (8 * PositionOffsetSize) ->
  num_runs resolved = num_element_runs - this_anchor.
Proof.
  intros Hlast Hanchor Hfit Hfit'.
  unfold resolve_segment_decompression_params. cbn [num_runs].
  rewrite next_anchor_index_fits, (proj2 (Z.eqb_eq _ _) Hlast).
  unfold wrap_offset, wrap_index, position_offset_bits, index_bits.
  rewrite (wrap_small (8 * IndexSize)) by lia. apply wrap_small. lia.
Qed.

Lemma resolved_num_runs_inner :
  g + 1 <> num_anchors ->
  (g + 1) * anchoring_period < 2 ^ (8 * IndexSize) ->
  0 <= this_anchor <= next_anchor ->
  next_anchor + 1 < 2 ^ (8 * IndexSize) ->
  next_anchor + 1 - this_anchor < 2 ^ (8 * PositionOffsetSize) ->
  num_runs resolved
  = next_anchor - this_anchor
    + (if zth run_start_positions next_anchor <? (g + 1) * anchoring_period then 1 else 0).
Proof.
  intros Hinner Hbound Hanchors Hfit Hfit'. pose proof resolved_start as Hst.
  unfold resolve_segment_decompression_params in *.
  cbn [uncompressed_start_position num_runs] in *.
  rewrite next_anchor_index_fits, Hst, (proj2 (Z.eqb_neq _ _) Hinner).
  assert (Hns : wrap_index IndexSize (g * anchoring_period + anchoring_period)
                = (g + 1) * anchoring_period)
    by (unfold wrap_index, index_bits; rewrite wrap_small; nia).
  rewrite Hns.
  unfold wrap_offset, wrap_index, position_offset_bits, index_bits.
  destruct (zth run_start_positions next_anchor <? (g + 1) * anchoring_period);
    cbn [Z.b2z].
  - rewrite (wrap_small _ (next_anchor + 1)) by lia.
    rewrite (wrap_small _ (next_anchor + 1 - this_anchor)) by lia.
    rewrite wrap_small; lia.
  - rewrite (wrap_small _ (next_anchor + 0)) by lia.
    rewrite (wrap_small _ (next_anchor + 0 - this_anchor)) by lia.
    rewrite wrap_small; lia.
Qed.

End ResolveFacts.

(** C3. Block [g] starts at [g * anchoring_period] with the run of its
    anchor; its length is the anchoring period, or what is left of the
    total length in the last segment; a segment which is not the last has
    the runs up to the run of the next anchor, that run counted exactly when
    it starts before the next segment does. When the run of the next anchor
    starts one position before the boundary it is among the runs of block
    [g], and it is the first run of block [g+1]. All values are assumed to
    fit their types. *)
Theorem resolve_segment_decompression_params_spec :
  forall (IndexSize PositionOffsetSize : Z)
         (run_start_positions position_anchors : list Z)
         (anchoring_period num_anchors num_element_runs total_uncompressed_length g : Z),
    let resolve :=
      resolve_segment_decompression_params IndexSize PositionOffsetSize
        run_start_positions position_anchors anchoring_period num_anchors
        num_element_runs total_uncompressed_length in
    let this_anchor := zth position_anchors g in
    let next_anchor := zth position_anchors (g + 1) in
    0 <= g -> g + 1 < 2 ^ 32 ->
    0 <= anchoring_period < 2 ^ (8 * PositionOffsetSize) ->
    g * anchoring_period < 2 ^ (8 * IndexSize) ->
    uncompressed_start_position (resolve g) = g * anchoring_period
    /\ first_run_index (resolve g) = this_anchor
    /\ (g + 1 = num_anchors ->
        g * anchoring_period <= total_uncompressed_length < 2 ^ (8 * IndexSize) ->
        total_uncompressed_length - g * anchoring_period < 2 ^ (8 * PositionOffsetSize) ->
        decompressed_length (resolve g) = total_uncompressed_length - g * anchoring_period)
    /\ (g + 1 <> num_anchors -> decompressed_length (resolve g) = anchoring_period)
    /\ (g + 1 <> num_anchors ->
        (g + 1) * anchoring_period < 2 ^ (8 * IndexSize) ->
        0 <= this_anchor <= next_anchor ->
        next_anchor + 1 < 2 ^ (8 * IndexSize) ->
        next_anchor + 1 - this_anchor < 2 ^ (8 * PositionOffsetSize) ->
        num_runs (resolve g)
        = next_anchor - this_anchor
          + (if zth run_start_positions next_anchor <? (g + 1) * anchoring_period
             then 1 else 0)
        /\ (zth run_start_positions next_anchor = (g + 1) * anchoring_period - 1 ->
            first_run_index (resolve g) <= next_anchor
                                        < first_run_index (resolve g) + num_runs (resolve g)
            /\ first_run_index (resolve (g + 1)) = next_anchor)).
Proof.
  intros IndexSize PositionOffsetSize rsp anchors period num_anchors nruns total g
         resolve this_anchor next_anchor Hg Hg32 Hperiod Hstart.
  subst resolve.
  split; [now apply resolved_start|].
  split; [reflexivity|].
  split; [intros; now apply resolved_length_last|].
  split; [intros; now apply resolved_length_inner|].
  intros Hinner Hbound Hanchors Hfit Hfit'.
  rewrite resolved_num_runs_inner by assumption.
  fold this_anchor next_anchor. split; [reflexivity|].
  intros Hedge.
  destruct (Z.ltb_spec (zth rsp next_anchor) ((g + 1) * period)) as [_|Hge]; [|lia].
  split; [|reflexivity].
  rewrite resolved_first_run. fold this_anchor. lia.
Qed.

Lemma resolve_segment_decompression_params_spec_witness :
  let resolve := resolve_segment_decompression_params 4 4 [0; 3; 7; 12] [0; 2] 8 2 4 16 in
  uncompressed_start_position (resolve 0) = 0
  /\ decompressed_length (resolve 0) = 8
  /\ num_runs (resolve 0) = 3
  /\ first_run_index (resolve 1) = 2.
Proof.
  assert (H0 : 0 <= 0) by lia.
  assert (H1 : 0 + 1 < 2 ^ 32) by lia.
  assert (H2 : 0 <= 8 < 2 ^ (8 * 4)) by lia.
  assert (H3 : 0 * 8 < 2 ^ (8 * 4)) by lia.
  pose proof (resolve_segment_decompression_params_spec
                4 4 [0; 3; 7; 12] [0; 2] 8 2 4 16 0 H0 H1 H2 H3)
    as (Hstart & _ & _ & Hlen & Hruns).
  assert (Hnotlast : 0 + 1 <> 2) by lia.
  assert (H4 : (0 + 1) * 8 < 2 ^ (8 * 4)) by lia.
  assert (H5 : 0 <= zth [0; 2] 0 <= zth [0; 2] (0 + 1)) by (vm_compute; split; discriminate).
  assert (H6 : zth [0; 2] (0 + 1) + 1 < 2 ^ (8 * 4)) by reflexivity.
  assert (H7 : zth [0; 2] (0 + 1) + 1 - zth [0; 2] 0 < 2 ^ (8 * 4)) by reflexivity.
  destruct (Hruns Hnotlast H4 H5 H6 H7) as (Hnum & Hedge).
  assert (H8 : zth [0; 3; 7; 12] (zth [0; 2] (0 + 1)) = (0 + 1) * 8 - 1) by reflexivity.
  destruct (Hedge H8) as (_ & Hfirst).
  exact (conj Hstart (conj (Hlen Hnotlast) (conj Hnum Hfirst))).
Defined.

(** ** Index lists and buffers *)

Lemma zseq_length (i : Z) (n : nat) : length (zseq i n) = n.
Proof. unfold zseq. now rewrite length_map, length_seq. Qed.

Lemma in_zseq (i x : Z) (n : nat) : 0 <= i -> In x (zseq i n) <-> i <= x < i + Z.of_nat n.
Proof.
  intros Hi. unfold zseq. rewrite in_map_iff. split.
  - intros (k & Hk & Hin). apply in_seq in Hin. lia.
  - intros Hx. exists (Z.to_nat x). split; [lia|]. apply in_seq. lia.
Qed.

Lemma zseq_cons (i : Z) (n : nat) : 0 <= i -> zseq i (S n) = i :: zseq (i + 1) n.
Proof.
  intros Hi. unfold zseq. cbn [seq map]. f_equal; [lia|].
  replace (Z.to_nat (i + 1)) with (S (Z.to_nat i)) by lia. reflexivity.
Qed.

Lemma zseq_shift (i : Z) (n : nat) : 0 <= i -> zseq i n = map (Z.add i) (zseq 0 n).
Proof.
  revert i. induction n as [|n IH]; intros i Hi; [reflexivity|].
  rewrite zseq_cons, (zseq_cons 0) by lia. cbn [map]. f_equal; [lia|].
  rewrite (IH (i + 1)), (IH (0 + 1)) by lia. rewrite map_map.
  apply map_ext. intros e. lia.
Qed.

Lemma nth_zseq (i d : Z) (n k : nat) :
  0 <= i -> (k < n)%nat -> nth k (zseq i n) d = i + Z.of_nat k.
Proof.
  intros Hi Hk. unfold zseq.
  rewrite (nth_map_in_range _ _ _ O) by now rewrite length_seq.
  rewrite seq_nth by assumption. lia.
Qed.

Lemma NoDup_zseq (i : Z) (n : nat) : NoDup (zseq i n).
Proof.
  unfold zseq. apply Finite.Injective_map_NoDup; [|apply seq_NoDup].
  intros a b Hab. lia.
Qed.

Lemma zth_offset_ptr (a : list Z) (k i : Z) :
  0 <= k -> 0 <= i -> zth (offset_ptr a k) i = zth a (k + i).
Proof.
  intros Hk Hi. unfold zth, offset_ptr. rewrite nth_skipn. f_equal. lia.
Qed.

Lemma zth_map_zseq (f : Z -> Z) (n : nat) (e : Z) :
  0 <= e < Z.of_nat n -> zth (map f (zseq 0 n)) e = f e.
Proof.
  intros He. unfold zth.
  rewrite (nth_map_in_range _ _ _ 0) by (rewrite zseq_length; lia).
  rewrite nth_zseq by lia. f_equal. lia.
Qed.

Lemma flat_map_agree {A B : Type} (f g : A -> list B) (l : list A) :
  (forall a, In a l -> f a = g a) -> flat_map f l = flat_map g l.
Proof.
  intros H. induction l as [|a l IH]; [reflexivity|].
  cbn [flat_map]. rewrite (H a) by now left.
  rewrite IH by (intros a' Ha'; apply H; now right). reflexivity.
Qed.

Lemma flat_map_by_index_from {A B : Type} (h : A -> list B) (xs : list A) (d : A) (k : nat) :
  flat_map h xs = flat_map (fun i => h (nth (i - k) xs d)) (seq k (length xs)).
Proof.
  revert k. induction xs as [|x xs IH]; intros k; [reflexivity|].
  cbn [flat_map length seq]. replace (k - k)%nat with O by lia. cbn [nth]. f_equal.
  rewrite (IH (S k)). apply flat_map_agree.
  intros i Hi. apply in_seq in Hi.
  replace (i - k)%nat with (S (i - S k)) by lia. reflexivity.
Qed.

Lemma flat_map_by_index {A B : Type} (h : A -> list B) (xs : list A) (d : A) :
  flat_map h xs = flat_map (fun i => h (nth i xs d)) (seq 0 (length xs)).
Proof.
  rewrite (flat_map_by_index_from h xs d 0). apply flat_map_agree.
  intros i _. now rewrite Nat.sub_0_r.
Qed.

(** Lists produced from distinct keys, each without repetition and each
    element naming its key, have no repetition when put together. *)
Lemma NoDup_flat_map_keyed {A B : Type} (f : A -> list B) (key : B -> A) (l : list A) :
  NoDup l ->
  (forall a, In a l -> NoDup (f a)) ->
  (forall a b, In a l -> In b (f a) -> key b = a) ->
  NoDup (flat_map f l).
Proof.
  intros Hl Hf Hkey. induction Hl as [|a l Ha Hl IH]; [constructor|].
  cbn [flat_map]. apply NoDup_app.
  - apply Hf. now left.
  - apply IH.
    + intros a' Ha'. apply Hf. now right.
    + intros a' b Ha' Hb. apply Hkey; [now right|assumption].
  - intros b Hb Hb'. apply in_flat_map in Hb' as (a' & Ha' & Hb').
    apply Ha. rewrite <- (Hkey a b (or_introl eq_refl) Hb).
    rewrite (Hkey a' b (or_intror Ha') Hb'). assumption.
Qed.

Lemma sequence_map_some {A B : Type} (f : A -> option B) (g : A -> B) (l : list A) :
  (forall a, In a l -> f a = Some (g a)) -> sequence (map f l) = Some (map g l).
Proof.
  intros H. induction l as [|a l IH]; [reflexivity|].
  cbn [map sequence fold_right]. fold (sequence (map f l)).
  rewrite IH by (intros a' Ha'; apply H; now right).
  rewrite (H a) by now left. reflexivity.
Qed.

Lemma combine_map_self {A B : Type} (f : A -> B) (l : list A) :
  combine l (map f l) = map (fun x => (x, f x)) l.
Proof. induction l as [|a l IH]; [reflexivity|]. cbn. now rewrite IH. Qed.

Lemma flat_map_map {A B C : Type} (f : B -> list C) (g : A -> B) (l : list A) :
  flat_map f (map g l) = flat_map (fun x => f (g x)) l.
Proof. induction l as [|a l IH]; [reflexivity|]. cbn. now rewrite IH. Qed.

Lemma map_flat_map {A B C : Type} (g : B -> C) (f : A -> list B) (l : list A) :
  map g (flat_map f l) = flat_map (fun x => map g (f x)) l.
Proof.
  induction l as [|a l IH]; [reflexivity|]. cbn. now rewrite map_app, IH.
Qed.

Lemma forallb_false_witness {A : Type} (f : A -> bool) (l : list A) :
  forallb f l = false -> exists x, In x l /\ f x = false.
Proof.
  induction l as [|a l IH]; [discriminate|]. cbn.
  destruct (f a) eqn:Ha.
  - intros H. destruct (IH H) as (x & Hx & Hfx). exists x. auto.
  - intros _. exists a. auto.
Qed.

Lemma sequence_map_cases {A B : Type} (f : A -> option B) (g : A -> B) (ok : A -> bool)
    (l : list A) :
  (forall a, In a l -> f a = if ok a then Some (g a) else None) ->
  sequence (map f l) = if forallb ok l then Some (map g l) else None.
Proof.
  intros H. induction l as [|a l IH]; [reflexivity|].
  cbn [map sequence fold_right forallb]. fold (sequence (map f l)).
  rewrite IH by (intros a' Ha'; apply H; now right).
  rewrite (H a) by now left.
  destruct (ok a), (forallb ok l); reflexivity.
Qed.

Lemma forallb_orb_const {A : Type} (f : A -> bool) (b : bool) (l : list A) :
  forallb (fun a => f a || b) l = forallb f l || b.
Proof.
  induction l as [|a l IH]; [reflexivity|]. cbn [forallb]. rewrite IH.
  destruct (f a), (forallb f l), b; reflexivity.
Qed.

(** ** Ballots *)

Lemma testbit_warp_ballot (predicates : list bool) (k : nat) :
  Z.testbit (builtins.warp_ballot predicates) (Z.of_nat k) = nth k predicates false.
Proof.
  revert k. induction predicates as [|b rest IH]; intros k.
  - cbn. destruct k; apply Z.testbit_0_l.
  - cbn [builtins.warp_ballot nth]. rewrite Z.add_comm. destruct k as [|k].
    + apply Z.testbit_0_r.
    + rewrite Nat2Z.inj_succ, Z.testbit_succ_r by lia. apply IH.
Qed.

Lemma ctz_from_first_set (x : Z) (first : nat) (fuel i : nat) :
  (forall l, (i <= l < first)%nat -> Z.testbit x (Z.of_nat l) = false) ->
  Z.testbit x (Z.of_nat first) = true ->
  (i <= first)%nat -> (first - i < fuel)%nat ->
  builtins.ctz_from fuel (Z.of_nat i) x = Z.of_nat (first - i).
Proof.
  revert i. induction fuel as [|fuel IH]; intros i Hzero Hset Hi Hfuel; [lia|].
  cbn [builtins.ctz_from].
  destruct (Nat.eq_dec i first) as [->|Hne].
  - rewrite Hset. f_equal. lia.
  - rewrite Hzero by lia.
    replace (Z.of_nat i + 1) with (Z.of_nat (S i)) by lia.
    rewrite IH; try lia; [|assumption].
    intros l Hl. apply Hzero. lia.
Qed.

(** The first lane whose predicate holds, for a warp of at most 32 lanes. *)
Lemma first_lane_satisfying_spec (predicates : list bool) (first : nat) :
  (first < 32)%nat ->
  nth first predicates false = true ->
  (forall l, (l < first)%nat -> nth l predicates false = false) ->
  first_lane_satisfying predicates = Z.of_nat first.
Proof.
  intros Hlt Hset Hzero. unfold first_lane_satisfying, builtins.count_trailing_zeros.
  change 0 with (Z.of_nat 0).
  rewrite (ctz_from_first_set _ first); try lia.
  - intros l Hl. rewrite testbit_warp_ballot. apply Hzero. lia.
  - now rewrite testbit_warp_ballot.
Qed.

(** ** Multiples and residues *)

Lemma residue_unique (b x y q1 q2 : Z) :
  0 < b -> 0 <= x < b -> 0 <= y < b -> x + q1 * b = y + q2 * b -> x = y /\ q1 = q2.
Proof.
  intros Hb Hx Hy Heq.
  assert (Hq : q1 = q2).
  { destruct (Z_lt_le_dec q1 q2) as [Hlt|Hge].
    - assert (q1 * b + b <= q2 * b) by nia. lia.
    - destruct (Z_lt_le_dec q2 q1) as [Hlt|Hle]; [|lia].
      assert (q2 * b + b <= q1 * b) by nia. lia. }
  subst q2. split; [lia|reflexivity].
Qed.

Lemma between_multiples (b k q : Z) :
  0 < b -> q * b < k * b -> k * b <= (q + 1) * b -> k = q + 1.
Proof.
  intros Hb Hlo Hhi.
  destruct (Z_lt_le_dec k (q + 1)) as [Hlt|Hge].
  - assert (k * b <= q * b) by nia. lia.
  - destruct (Z_lt_le_dec (q + 1) k) as [Hlt|Hle]; [|lia].
    assert ((q + 1) * b + b <= k * b) by nia. lia.
Qed.

Lemma div_of_lane (w lane width : Z) :
  0 <= lane < width -> (w * width + lane) / width = w.
Proof.
  intros Hlane. symmetry. apply (Z.div_unique _ _ w lane); lia.
Qed.

Lemma lane_of_div (t width : Z) :
  0 < width -> 0 <= t - t / width * width < width.
Proof.
  intros Hw. pose proof (Z.div_mod t width ltac:(lia)).
  pose proof (Z.mod_pos_bound t width Hw). lia.
Qed.

Lemma quotient_in_range (e lo hi q : Z) :
  0 < e -> lo * e <= q < hi * e -> lo <= q / e < hi.
Proof.
  intros He [Hlo Hhi]. split.
  - apply Z.div_le_lower_bound; lia.
  - apply Z.div_lt_upper_bound; lia.
Qed.

Lemma position_in_chunk (c q : Z) : 0 < c -> q / c * c <= q < (q / c + 1) * c.
Proof.
  intros Hc. pose proof (Z.div_mod q c ltac:(lia)).
  pose proof (Z.mod_pos_bound q c Hc). lia.
Qed.

Lemma thread_in_block (w lane width count : Z) :
  0 <= w < count -> 0 <= lane < width -> 0 <= w * width + lane < count * width.
Proof. intros Hw Hlane. nia. Qed.

Lemma mod_of_thread (t r b : Z) : 0 <= t < b -> (t + r * b) mod b = t.
Proof.
  intros Ht. rewrite Z_mod_plus_full. apply Z.mod_small. assumption.
Qed.

(** ** One segment *)

Section SegmentFacts.
Variables IndexSize UncompressedSize PositionOffsetSize : Z.
Variable PositionsAreRelative : bool.
Variables warp_size block_length warps_in_block : Z.
Variable decompressed_at : Z.
Variables run_start_positions run_data : list Z.
Variable params : segment_decompression_params_t.
Variables covering expected : Z -> Z.

Local Notation epw := (elements_per_thread_write UncompressedSize).
Local Notation dl := (decompressed_length params).
Local Notation T := (truncated_decompressed_length UncompressedSize params).
Local Notation off := (segment_offset PositionsAreRelative params).
Local Notation N := (num_runs params).
Local Notation ib := (index_bits IndexSize).
Local Notation pb := (position_offset_bits PositionOffsetSize).

Hypothesis Hsize :
  UncompressedSize = 1 \/ UncompressedSize = 2 \/ UncompressedSize = 4 \/ UncompressedSize = 8.
Hypothesis Hib : 32 <= ib.
Hypothesis Hpb : 32 <= pb.
Hypothesis Hwarp : epw <= warp_size <= 32.
Hypothesis Hblock : 0 < warps_in_block /\ block_length = warps_in_block * warp_size.
Hypothesis Hstride : block_length * epw < 2 ^ 32.
Hypothesis Hdl : 0 <= dl.
Hypothesis Hoff : 0 <= off.
Hypothesis Hfit : off + dl + block_length * epw < 2 ^ pb.
Hypothesis Hruns : N < 2 ^ ib.
Hypothesis Hcover :
  tables_cover_segment PositionsAreRelative run_start_positions run_data params
    covering expected.

Lemma epw_cases : epw = 1 \/ epw = 2 \/ epw = 4.
Proof.
  unfold elements_per_thread_write.
  destruct Hsize as [H|[H|[H|H]]]; rewrite H; cbn; auto.
Qed.

Lemma truncated_eq : T = epw * (dl / epw).
Proof.
  unfold truncated_decompressed_length, clear_lower_k_bits, log2_constexpr.
  destruct epw_cases as [H|[H|H]]; rewrite H.
  - change (Z.log2 1) with 0.
    rewrite Z.shiftl_mul_pow2, Z.shiftr_div_pow2 by lia. change (2 ^ 0) with 1. lia.
  - change (Z.log2 2) with 1.
    rewrite Z.shiftl_mul_pow2, Z.shiftr_div_pow2 by lia. change (2 ^ 1) with 2. lia.
  - change (Z.log2 4) with 2.
    rewrite Z.shiftl_mul_pow2, Z.shiftr_div_pow2 by lia. change (2 ^ 2) with 4. lia.
Qed.

Lemma truncated_bounds : 0 <= T <= dl /\ dl - T < epw /\ exists m, 0 <= m /\ T = m * epw.
Proof.
  rewrite truncated_eq.
  destruct epw_cases as [H|[H|H]]; rewrite H;
    (split; [|split; [|exists (dl / epw); rewrite H]]);
    try (pose proof (Z.div_mod dl 1); pose proof (Z.mod_pos_bound dl 1));
    try (pose proof (Z.div_mod dl 2); pose proof (Z.mod_pos_bound dl 2));
    try (pose proof (Z.div_mod dl 4); pose proof (Z.mod_pos_bound dl 4));
    try (assert (0 <= dl / 1) by (apply Z.div_pos; lia));
    try (assert (0 <= dl / 2) by (apply Z.div_pos; lia));
    try (assert (0 <= dl / 4) by (apply Z.div_pos; lia));
    lia.
Qed.

Lemma config_facts :
  0 < epw /\ 0 < warp_size /\ warp_size <= block_length
  /\ warp_size * epw <= block_length * epw.
Proof.
  destruct Hblock as [Hnw HB].
  destruct epw_cases as [H|[H|H]]; rewrite H in *;
    assert (1 * warp_size <= warps_in_block * warp_size)
      by (apply Z.mul_le_mono_nonneg_r; lia);
    lia.
Qed.

Lemma pow_index_bits : 2 ^ 32 <= 2 ^ ib.
Proof. apply pow2_le_mono. lia. Qed.

Lemma pow_offset_bits : 2 ^ 32 <= 2 ^ pb.
Proof. apply pow2_le_mono. lia. Qed.

Lemma wrap_index_small (x : Z) : 0 <= x < 2 ^ ib -> wrap_index IndexSize x = x.
Proof. apply wrap_small. Qed.

Lemma wrap_offset_small (x : Z) : 0 <= x < 2 ^ pb -> wrap_offset PositionOffsetSize x = x.
Proof. apply wrap_small. Qed.

Lemma covering_monotone (q q' : Z) :
  0 <= q -> q <= q' -> q' < dl -> covering q <= covering q'.
Proof.
  intros Hq Hle Hq'.
  destruct (Hcover q) as (Hc & Hbelow & _); [lia|].
  destruct (Hcover q') as (Hc' & _ & Habove & _); [lia|].
  destruct (Z_le_gt_dec (covering q) (covering q')) as [|Hgt]; [assumption|].
  specialize (Hbelow (covering q)). specialize (Habove (covering q)). lia.
Qed.

(** The search of the run table from a run which is not beyond the covering
    run ends one past the covering run. *)
Lemma advance_run_index_finds (fuel : nat) (q run_index : Z) :
  0 <= q < dl ->
  1 <= run_index <= covering q + 1 ->
  covering q + 1 - run_index <= Z.of_nat fuel ->
  advance_run_index IndexSize run_start_positions params fuel (off + q) run_index
  = covering q + 1.
Proof.
  intros Hq. destruct (Hcover q Hq) as (Hc & Hbelow & Habove & _).
  revert run_index. induction fuel as [|fuel IH]; intros run_index Hri Hfuel.
  - cbn. lia.
  - cbn [advance_run_index].
    destruct (Z.ltb_spec run_index N) as [Hlt|Hge]; [|lia].
    destruct (Z.gtb_spec (zth run_start_positions run_index) (off + q)) as [Hgt|Hle].
    + destruct (Z.eq_dec run_index (covering q + 1)) as [|Hne]; [assumption|].
      specialize (Hbelow run_index). lia.
    + assert (run_index <= covering q).
      { destruct (Z.eq_dec run_index (covering q + 1)) as [Heq|Hne]; [|lia].
        specialize (Habove run_index). lia. }
      rewrite wrap_index_small by lia. apply IH; lia.
Qed.

(** The turns of the loop over the elements of a packed write. *)
Lemma locate_elements (rel : Z) (k : nat) :
  forall (e0 run_index c : Z) (buffer : list Z),
    0 <= rel -> 0 <= e0 ->
    rel + e0 + Z.of_nat k <= dl ->
    (k > 0)%nat ->
    1 <= run_index <= covering (rel + e0) + 1 ->
    fold_left (locate_element IndexSize PositionOffsetSize run_start_positions run_data
                 params (off + rel))
      (zseq e0 k) (run_index, c, buffer)
    = (covering (rel + e0 + Z.of_nat k - 1) + 1,
       covering (rel + e0 + Z.of_nat k - 1),
       buffer ++ map (fun e => expected (rel + e)) (zseq e0 k)).
Proof.
  induction k as [|k IH]; intros e0 run_index c buffer Hrel He0 Hend Hk Hri; [lia|].
  pose proof config_facts as Hcfg.
  rewrite zseq_cons by assumption. cbn [fold_left map].
  unfold locate_element at 2.
  rewrite wrap_offset_small by lia.
  replace (off + rel + e0) with (off + (rel + e0)) by lia.
  destruct (Hcover (rel + e0)) as (Hc & _ & _ & Hval); [lia|].
  rewrite advance_run_index_finds by lia.
  rewrite wrap_index_small by lia.
  replace (covering (rel + e0) + 1 - 1) with (covering (rel + e0)) by lia.
  rewrite Hval.
  destruct k as [|k].
  - cbn. replace (rel + e0 + 1 - 1) with (rel + e0) by lia. reflexivity.
  - rewrite IH; try lia.
    + rewrite <- app_assoc. cbn [app].
      replace (rel + (e0 + 1) + Z.of_nat (S k) - 1)
        with (rel + e0 + Z.of_nat (S (S k)) - 1) by lia.
      reflexivity.
    + pose proof (covering_monotone (rel + e0) (rel + (e0 + 1))). lia.
Qed.

Lemma epw_to_nat : Z.of_nat (Z.to_nat epw) = epw.
Proof. destruct epw_cases as [H|[H|H]]; rewrite H; reflexivity. Qed.

Local Notation aligned :=
  (store_is_aligned UncompressedSize decompressed_at).

(** A lane whose search starts at or before the covering run writes the
    values of its positions, when its store is aligned, and ends at the run
    covering the last one. *)
Lemma locate_and_perform_next_write_spec (regs : lane_registers) :
  let rel := relative_write_position regs in
  0 <= rel -> rel + epw <= dl ->
  0 <= first_possible_run_for_next_write regs <= covering rel ->
  locate_and_perform_next_write IndexSize UncompressedSize PositionOffsetSize
    PositionsAreRelative decompressed_at run_start_positions run_data params regs
  = if aligned (wrap_offset PositionOffsetSize (rel + off))
    then Some (map (expected_write PositionsAreRelative params expected)
                   (zseq rel (Z.to_nat epw)),
               covering (rel + epw - 1))
    else None.
Proof.
  intros rel Hrel Hend Hfp. unfold locate_and_perform_next_write. fold rel.
  pose proof config_facts as Hcfg.
  rewrite wrap_offset_small by lia.
  rewrite wrap_index_small by (pose proof pow_index_bits; destruct (Hcover rel); lia).
  pose proof epw_to_nat as Hnat.
  replace (rel + off) with (off + rel) by lia.
  rewrite (locate_elements rel (Z.to_nat epw) 0); try lia.
  - destruct (aligned (off + rel)); [|reflexivity].
    rewrite Z.add_0_r, Hnat. cbn [app]. f_equal. f_equal.
    rewrite (zseq_shift rel) by lia. rewrite map_map.
    apply map_ext_in. intros e He. apply in_zseq in He; [|lia].
    rewrite zth_map_zseq by lia.
    unfold expected_write. f_equal. lia.
  - rewrite Z.add_0_r. lia.
Qed.

(** *** One turn of the block-stride loop *)

Local Notation stride := (block_length * epw).
Local Notation rel_of := relative_write_position.
Local Notation fp_of := first_possible_run_for_next_write.
Local Notation no_lane := (mk_lane 0 0).
Local Notation lane_inv :=
  (lane_invariant UncompressedSize block_length params covering).
Local Notation warp_inv :=
  (warp_invariant UncompressedSize warp_size block_length params covering).

Lemma block_stride_eq : block_stride UncompressedSize block_length = stride.
Proof.
  unfold block_stride. apply wrap_small.
  pose proof config_facts. lia.
Qed.

Lemma in_loop_lt (regs : lane_registers) :
  in_loop UncompressedSize params regs = true <-> rel_of regs < T.
Proof. unfold in_loop. apply Z.ltb_lt. Qed.

Lemma in_loop_ge (regs : lane_registers) :
  in_loop UncompressedSize params regs = false <-> T <= rel_of regs.
Proof. unfold in_loop. apply Z.ltb_ge. Qed.

(** A lane in the loop is in the current turn, and its packed write lies
    within the truncated length. *)
Lemma lane_in_loop (r thread : Z) (regs : lane_registers) :
  lane_inv r thread regs -> rel_of regs < T ->
  rel_of regs = (thread + r * block_length) * epw /\ rel_of regs + epw <= T.
Proof.
  intros ((r' & Hr' & Hrel & Hleft) & _) Hlt.
  assert (r' = r) by lia. subst r'. split; [assumption|].
  destruct truncated_bounds as (_ & _ & m & Hm & HT).
  destruct epw_cases as [He|[He|He]]; rewrite He in *; lia.
Qed.

Lemma lane_rel_nonneg (r thread : Z) (regs : lane_registers) :
  0 <= thread -> lane_inv r thread regs -> 0 <= rel_of regs.
Proof.
  intros Hthread ((r' & Hr' & Hrel & _) & _).
  pose proof config_facts as (Hepw & HW & HWB & HS).
  rewrite Hrel. assert (0 <= r' * block_length) by (apply Z.mul_nonneg_nonneg; lia).
  apply Z.mul_nonneg_nonneg; lia.
Qed.

(** When a lane goes on to a further write, the last lane of its warp has
    written in this turn. *)
Lemma last_lane_in_turn (r w lane : Z) (lanes : list lane_registers) :
  0 <= r -> warp_inv r w lanes -> 0 <= lane < warp_size ->
  let regs := nth (Z.to_nat lane) lanes no_lane in
  let last := nth (Z.to_nat (warp_size - 1)) lanes no_lane in
  rel_of regs < T -> rel_of regs + stride < dl ->
  rel_of last = rel_of regs + (warp_size - 1 - lane) * epw /\ rel_of last + epw <= T.
Proof.
  intros Hr [_ Hinv] Hlane regs last Hin Hnext.
  pose proof config_facts as (Hepw & HW & HWB & HS).
  destruct (lane_in_loop r _ regs (Hinv lane Hlane) Hin) as [Hrel _].
  destruct (Hinv (warp_size - 1)) as ((r' & Hr' & Hlast & Hleft) & _); [lia|].
  fold last in Hlast, Hleft.
  destruct truncated_bounds as (_ & Hslack & m & Hm & HT).
  assert (r' = r).
  { destruct (Z.eq_dec r' r) as [|Hne]; [assumption|]. exfalso.
    assert (Hlt : r' < r) by lia. specialize (Hleft Hlt).
    assert (r' * block_length <= (r - 1) * block_length) by (apply Z.mul_le_mono_nonneg_r; lia).
    destruct epw_cases as [He|[He|He]]; rewrite He in *; lia. }
  subst r'. split; [rewrite Hlast, Hrel; lia|].
  destruct epw_cases as [He|[He|He]]; rewrite He in *; lia.
Qed.

Lemma after_turn_invariant (r w lane : Z) (lanes : list lane_registers) :
  0 <= r -> 0 <= w -> warp_inv r w lanes -> 0 <= lane < warp_size ->
  lane_inv (r + 1) (w * warp_size + lane)
    (after_turn UncompressedSize block_length params covering
       (nth (Z.to_nat (warp_size - 1)) lanes no_lane)
       (nth (Z.to_nat lane) lanes no_lane)).
Proof.
  intros Hr Hw Hwi Hlane.
  pose proof config_facts as (Hepw & HW & HWB & HS).
  destruct truncated_bounds as (HTdl & Hslack & m & Hm & HT).
  pose proof (proj2 Hwi lane Hlane) as Hinv.
  set (regs := nth (Z.to_nat lane) lanes no_lane) in *.
  set (last := nth (Z.to_nat (warp_size - 1)) lanes no_lane).
  unfold after_turn.
  destruct (in_loop UncompressedSize params regs) eqn:Hin.
  - apply in_loop_lt in Hin.
    destruct (lane_in_loop r _ regs Hinv Hin) as [Hrel Hend].
    destruct Hinv as (_ & _ & Hfp & _ & Hfp3).
    destruct (Z.ltb_spec (rel_of regs + stride) dl) as [Hnext|Hnext].
    + destruct (last_lane_in_turn r w lane lanes Hr Hwi Hlane Hin Hnext) as [Hlast Hlastend].
      fold regs last in Hlast, Hlastend.
      assert (Hw0 : 0 <= w * warp_size) by (apply Z.mul_nonneg_nonneg; lia).
      pose proof (lane_rel_nonneg r (w * warp_size + (warp_size - 1)) last ltac:(lia)
                    (proj2 Hwi (warp_size - 1) ltac:(lia))) as Hlast0.
      assert (Hrange : 0 <= rel_of last + epw - 1 < dl) by lia.
      unfold lane_invariant. cbn [relative_write_position first_possible_run_for_next_write].
      split; [exists (r + 1); split; [lia|]; split; [rewrite Hrel; lia|lia]|].
      split; [lia|].
      split; [destruct (Hcover _ Hrange); lia|].
      split; intros; apply covering_monotone; lia.
    + unfold lane_invariant. cbn [relative_write_position first_possible_run_for_next_write].
      split; [exists (r + 1); split; [lia|]; split; [rewrite Hrel; lia|lia]|].
      split; [lia|]. split; [assumption|]. split; [lia|assumption].
  - apply in_loop_ge in Hin.
    destruct Hinv as ((r' & Hr' & Hrel & Hleft) & Hlt & Hfp & Hfp2 & Hfp3).
    split; [exists r'; split; [lia|]; split; [assumption|lia]|].
    split; [assumption|]. split; [assumption|]. split; assumption.
Qed.

Lemma lane_of_member (r w : Z) (lanes : list lane_registers) (regs : lane_registers) :
  warp_inv r w lanes -> In regs lanes ->
  exists lane, 0 <= lane < warp_size /\ nth (Z.to_nat lane) lanes no_lane = regs.
Proof.
  intros [Hlen _] Hin.
  destruct (In_nth lanes regs no_lane Hin) as (n & Hn & Hnth).
  exists (Z.of_nat n). split; [lia|]. now rewrite Nat2Z.id.
Qed.

Local Notation further :=
  (has_a_further_write UncompressedSize PositionOffsetSize block_length params).
Local Notation defined :=
  (turn_is_defined UncompressedSize PositionOffsetSize PositionsAreRelative warp_size
     block_length decompressed_at params).
Local Notation main_round_of :=
  (main_round IndexSize UncompressedSize PositionOffsetSize PositionsAreRelative
     warp_size block_length decompressed_at run_start_positions run_data params).
Local Notation after_turn_of :=
  (after_turn UncompressedSize block_length params covering).

Lemma next_position_in_loop (regs : lane_registers) :
  0 <= rel_of regs < T ->
  next_relative_write_position_for_this_thread UncompressedSize PositionOffsetSize
    block_length regs = rel_of regs + stride.
Proof.
  intros Hrel. unfold next_relative_write_position_for_this_thread.
  rewrite block_stride_eq. apply wrap_offset_small.
  destruct truncated_bounds as (HTdl & _). pose proof config_facts. lia.
Qed.

Lemma has_a_further_write_in_loop (regs : lane_registers) :
  0 <= rel_of regs < T -> further regs = (rel_of regs + stride <? dl).
Proof.
  intros Hrel. unfold has_a_further_write. now rewrite next_position_in_loop.
Qed.

(** A turn of the loop, for a warp whose lanes are as the invariant has
    them: it is defined exactly when [turn_is_defined] says so, and then the
    lanes write the values of their positions and go on as [after_turn]
    describes. *)
Lemma main_round_eq (r w : Z) (lanes : list lane_registers) :
  0 <= r -> 0 <= w -> warp_inv r w lanes ->
  main_round_of lanes
  = if defined lanes
    then Some (map (after_turn_of (nth (Z.to_nat (warp_size - 1)) lanes no_lane)) lanes,
               flat_map (turn_writes UncompressedSize PositionsAreRelative params expected)
                 lanes)
    else None.
Proof.
  intros Hr Hw Hwi.
  pose proof config_facts as (Hepw & HW & HWB & HS).
  destruct truncated_bounds as (HTdl & Hslack & m & Hm & HT).
  set (last := nth (Z.to_nat (warp_size - 1)) lanes no_lane).
  set (performed_spec := fun regs : lane_registers =>
         if in_loop UncompressedSize params regs
         then Some (map (expected_write PositionsAreRelative params expected)
                        (zseq (rel_of regs) (Z.to_nat epw)),
                    covering (rel_of regs + epw - 1))
         else None).
  assert (Hlane : forall regs, In regs lanes -> rel_of regs < T ->
            0 <= rel_of regs /\ rel_of regs + epw <= T
            /\ 0 <= fp_of regs <= covering (rel_of regs)).
  { intros regs Hin Hloop.
    destruct (lane_of_member r w lanes regs Hwi Hin) as (lane & Hlane & Hnth).
    pose proof (proj2 Hwi lane Hlane) as Hinv. rewrite Hnth in Hinv.
    destruct (lane_in_loop r _ regs Hinv Hloop) as [Hrel Hend].
    assert (Hnonneg : 0 <= rel_of regs) by (apply (lane_rel_nonneg r _ regs) in Hinv; lia).
    destruct Hinv as (_ & _ & Hfp & Hfp2 & _). auto. }
  unfold main_round, turn_is_defined.
  rewrite (sequence_map_cases _ performed_spec
             (fun regs => negb (in_loop UncompressedSize params regs)
                          || aligned (wrap_offset PositionOffsetSize (rel_of regs + off)))).
  2: { intros regs Hin. subst performed_spec. cbv beta.
       destruct (in_loop UncompressedSize params regs) eqn:Hloop; [|reflexivity].
       apply in_loop_lt in Hloop. destruct (Hlane regs Hin Hloop) as (Hrel & Hend & Hfp).
       rewrite locate_and_perform_next_write_spec by lia.
       cbn [negb orb].
       destruct (aligned (wrap_offset PositionOffsetSize (rel_of regs + off))); reflexivity. }
  match goal with |- context [forallb ?f lanes && _] => destruct (forallb f lanes) end;
    cbn [andb]; [|reflexivity].
  rewrite combine_map_self.
  rewrite (nth_map_in_range _ _ _ no_lane) by (destruct Hwi as [Hlen _]; lia).
  fold last.
  set (from_last_lane :=
         if in_loop UncompressedSize params last && further last
         then Some (covering (rel_of last + epw - 1)) else None).
  assert (Hfrom : match performed_spec last with
                  | Some (_, run_covering_current_element) =>
                      if further last then Some run_covering_current_element else None
                  | None => None
                  end = from_last_lane).
  { subst performed_spec from_last_lane. cbv beta.
    destruct (in_loop UncompressedSize params last), (further last); reflexivity. }
  rewrite Hfrom. rewrite map_map. cbn [fst snd].
  rewrite (sequence_map_cases _ (after_turn_of last)
             (fun regs => negb (in_loop UncompressedSize params regs && further regs)
                          || (in_loop UncompressedSize params last && further last))).
  2: { intros regs Hin. subst performed_spec from_last_lane. cbv beta.
       unfold adopt, after_turn.
       destruct (in_loop UncompressedSize params regs) eqn:Hloop; [|reflexivity].
       apply in_loop_lt in Hloop. destruct (Hlane regs Hin Hloop) as (Hrel & Hend & Hfp).
       rewrite has_a_further_write_in_loop, next_position_in_loop by lia.
       cbn [andb].
       destruct (rel_of regs + stride <? dl); cbn [negb orb]; [|reflexivity].
       destruct (in_loop UncompressedSize params last && further last); reflexivity. }
  rewrite forallb_orb_const.
  match goal with |- context [if ?c then _ else _] => destruct c end; [|reflexivity].
  f_equal. f_equal. rewrite flat_map_map. apply flat_map_agree.
  intros regs _. subst performed_spec. unfold turn_writes. cbv beta.
  destruct (in_loop UncompressedSize params regs); reflexivity.
Qed.

Lemma warp_invariant_after_turn (r w : Z) (lanes : list lane_registers) :
  0 <= r -> 0 <= w -> warp_inv r w lanes ->
  warp_inv (r + 1) w
    (map (after_turn UncompressedSize block_length params covering
            (nth (Z.to_nat (warp_size - 1)) lanes no_lane)) lanes).
Proof.
  intros Hr Hw Hwi. split.
  - rewrite length_map. apply Hwi.
  - intros lane Hlane.
    rewrite (nth_map_in_range _ _ _ no_lane) by (destruct Hwi as [Hlen _]; lia).
    now apply after_turn_invariant.
Qed.

(** *** The writes of a turn *)

Local Notation turn_writes_of :=
  (turn_writes UncompressedSize PositionsAreRelative params expected).
Local Notation expected_write_at := (expected_write PositionsAreRelative params expected).
Local Notation in_turn := (written_in_turn UncompressedSize warp_size block_length params).

Lemma in_turn_writes_lane (regs : lane_registers) (wr : write) :
  0 <= rel_of regs ->
  In wr (turn_writes_of regs) <->
  rel_of regs < T
  /\ exists q, rel_of regs <= q < rel_of regs + epw /\ wr = expected_write_at q.
Proof.
  intros Hrel. unfold turn_writes.
  destruct (in_loop UncompressedSize params regs) eqn:Hloop.
  - apply in_loop_lt in Hloop. rewrite in_map_iff. split.
    + intros (q & Hq & Hin). apply in_zseq in Hin; [|assumption].
      rewrite epw_to_nat in Hin. split; [assumption|]. exists q. auto.
    + intros (_ & q & Hq & Hwr). exists q. split; [auto|].
      apply in_zseq; [assumption|]. now rewrite epw_to_nat.
  - apply in_loop_ge in Hloop. split; [contradiction|]. lia.
Qed.

Lemma positions_of_turn_writes_lane (regs : lane_registers) (p : Z) :
  0 <= rel_of regs ->
  In p (map w_pos (turn_writes_of regs)) ->
  rel_of regs < T /\ off + rel_of regs <= p < off + rel_of regs + epw.
Proof.
  intros Hrel Hin. apply in_map_iff in Hin as (wr & Hp & Hin).
  apply in_turn_writes_lane in Hin as (Hlt & q & Hq & Hwr); [|assumption].
  subst wr p. cbn. lia.
Qed.

Lemma NoDup_positions_of_turn_writes_lane (regs : lane_registers) :
  NoDup (map w_pos (turn_writes_of regs)).
Proof.
  unfold turn_writes. destruct (in_loop UncompressedSize params regs); [|constructor].
  rewrite map_map. cbn [w_pos expected_write].
  apply Finite.Injective_map_NoDup; [|apply NoDup_zseq].
  intros a b Hab. lia.
Qed.

Lemma in_turn_writes (r w : Z) (lanes : list lane_registers) (wr : write) :
  0 <= r -> 0 <= w -> warp_inv r w lanes ->
  In wr (flat_map turn_writes_of lanes) <->
  exists q, in_turn w r q /\ wr = expected_write_at q.
Proof.
  intros Hr Hw Hwi.
  pose proof config_facts as (Hepw & HW & HWB & HS).
  rewrite in_flat_map. split.
  - intros (regs & Hin & Hwr).
    destruct (lane_of_member r w lanes regs Hwi Hin) as (lane & Hlane & Hnth).
    pose proof (proj2 Hwi lane Hlane) as Hinv. rewrite Hnth in Hinv.
    assert (Hnonneg : 0 <= rel_of regs) by (apply (lane_rel_nonneg r _ regs) in Hinv; lia).
    apply in_turn_writes_lane in Hwr as (Hlt & q & Hq & Hwr); [|assumption].
    destruct (lane_in_loop r _ regs Hinv Hlt) as [Hrel Hend].
    exists q. split; [|assumption]. unfold written_in_turn.
    rewrite Hrel in *.
    destruct epw_cases as [He|[He|He]]; rewrite He in *; lia.
  - intros (q & ((Hq0 & HqT) & Hlo & Hhi) & Hwr).
    set (lane := q / epw - (w * warp_size + r * block_length)).
    pose proof (Z.div_mod q epw ltac:(lia)) as Hdiv.
    pose proof (Z.mod_pos_bound q epw ltac:(lia)) as Hmod.
    assert (Hlane : 0 <= lane < warp_size).
    { subst lane. destruct epw_cases as [He|[He|He]]; rewrite He in *; lia. }
    pose proof (proj2 Hwi lane Hlane) as Hinv.
    set (regs := nth (Z.to_nat lane) lanes no_lane) in *.
    exists regs. split.
    { subst regs. apply nth_In. destruct Hwi as [Hlen _]. lia. }
    destruct Hinv as ((r' & Hr' & Hrel & Hleft) & _).
    assert (r' = r).
    { destruct (Z.eq_dec r' r) as [|Hne]; [assumption|]. exfalso.
      assert (Hlt : r' < r) by lia. specialize (Hleft Hlt).
      assert (r' * block_length <= (r - 1) * block_length) by (apply Z.mul_le_mono_nonneg_r; lia).
      subst lane. destruct epw_cases as [He|[He|He]]; rewrite He in *; lia. }
    subst r'.
    assert (Hrelq : rel_of regs <= q < rel_of regs + epw).
    { rewrite Hrel. subst lane.
      destruct epw_cases as [He|[He|He]]; rewrite He in *; lia. }
    apply in_turn_writes_lane; [lia|]. split; [lia|]. exists q. auto.
Qed.

Lemma NoDup_positions_of_turn (r w : Z) (lanes : list lane_registers) :
  0 <= r -> 0 <= w -> warp_inv r w lanes ->
  NoDup (map w_pos (flat_map turn_writes_of lanes)).
Proof.
  intros Hr Hw Hwi.
  pose proof config_facts as (Hepw & HW & HWB & HS).
  rewrite map_flat_map.
  rewrite (flat_map_by_index _ lanes no_lane).
  apply (NoDup_flat_map_keyed _
           (fun p => Z.to_nat ((p - off) / epw - (w * warp_size + r * block_length)))).
  - apply seq_NoDup.
  - intros i _. apply NoDup_positions_of_turn_writes_lane.
  - intros i p Hi Hp. apply in_seq in Hi.
    assert (Hlane : 0 <= Z.of_nat i < warp_size) by (destruct Hwi as [Hlen _]; lia).
    pose proof (proj2 Hwi _ Hlane) as Hinv. rewrite Nat2Z.id in Hinv.
    set (regs := nth i lanes no_lane) in *.
    assert (Hnonneg : 0 <= rel_of regs) by (apply (lane_rel_nonneg r _ regs) in Hinv; lia).
    apply positions_of_turn_writes_lane in Hp as [Hlt Hp]; [|assumption].
    destruct (lane_in_loop r _ regs Hinv Hlt) as [Hrel _].
    rewrite Hrel in Hp.
    pose proof (Z.div_mod (p - off) epw ltac:(lia)) as Hdiv.
    pose proof (Z.mod_pos_bound (p - off) epw ltac:(lia)) as Hmod.
    destruct epw_cases as [He|[He|He]]; rewrite He in *; lia.
Qed.

(** *** The block-stride loop of a warp *)

Lemma no_turn_left (r w : Z) (lanes : list lane_registers) :
  0 <= r -> 0 <= w -> warp_inv r w lanes ->
  (forall regs, In regs lanes -> T <= rel_of regs) ->
  forall q r'', r <= r'' -> ~ in_turn w r'' q.
Proof.
  intros Hr Hw Hwi Hdone q r'' Hr'' ((Hq0 & HqT) & Hlo & _).
  pose proof config_facts as (Hepw & HW & HWB & HS).
  assert (Hlane : 0 <= 0 < warp_size) by lia.
  pose proof (proj2 Hwi 0 Hlane) as ((r0 & Hr0 & Hrel & _) & _).
  assert (Hin : In (nth (Z.to_nat 0) lanes no_lane) lanes)
    by (apply nth_In; destruct Hwi as [Hlen _]; lia).
  specialize (Hdone _ Hin).
  assert (r0 * block_length <= r'' * block_length) by (apply Z.mul_le_mono_nonneg_r; lia).
  rewrite Hrel in Hdone.
  destruct epw_cases as [He|[He|He]]; rewrite He in *; lia.
Qed.

(** *** The slack *)

Lemma num_slack_elements_eq :
  num_slack_elements UncompressedSize PositionOffsetSize params = dl - T.
Proof.
  unfold num_slack_elements. apply wrap_small.
  destruct truncated_bounds as (HTdl & _). pose proof config_facts. lia.
Qed.

(** Where a lane stands when its warp has left the loop. *)
Lemma final_lane (r w lane : Z) (lanes : list lane_registers) :
  0 <= w -> warp_inv r w lanes ->
  (forall regs, In regs lanes -> T <= rel_of regs) ->
  0 <= lane < warp_size ->
  let regs := nth (Z.to_nat lane) lanes no_lane in
  (exists k, 0 <= k /\ rel_of regs = (w * warp_size + lane + k * block_length) * epw)
  /\ T <= rel_of regs < T + stride
  /\ 0 <= fp_of regs
  /\ (T < dl -> fp_of regs <= covering T).
Proof.
  intros Hw Hwi Hleft Hlane regs.
  destruct (proj2 Hwi lane Hlane) as ((k & Hk & Hrel & _) & Hlt & Hfp & _ & Hfp3).
  fold regs in Hrel, Hlt, Hfp, Hfp3.
  assert (Hin : In regs lanes) by (apply nth_In; destruct Hwi as [Hlen _]; lia).
  split; [exists k; split; [lia|assumption]|].
  split; [split; [now apply Hleft|assumption]|]. auto.
Qed.

Local Notation last_writer := ((T / epw - 1) mod block_length).

Lemma wrote_last_element_iff (r w lane : Z) (lanes : list lane_registers) :
  0 <= w < warps_in_block -> warp_inv r w lanes ->
  (forall regs, In regs lanes -> T <= rel_of regs) ->
  0 <= lane < warp_size -> 0 < T ->
  this_thread_wrote_last_element_so_far UncompressedSize PositionOffsetSize block_length
    params (nth (Z.to_nat lane) lanes no_lane) = true
  <-> w * warp_size + lane = last_writer.
Proof.
  intros Hw Hwi Hleft Hlane HT0.
  pose proof config_facts as (Hepw & HW & HWB & HS).
  destruct truncated_bounds as (HTdl & Hslack & m & Hm & HT).
  destruct (final_lane r w lane lanes ltac:(lia) Hwi Hleft Hlane)
    as ((k & Hk & Hrel) & Hrange & _).
  set (regs := nth (Z.to_nat lane) lanes no_lane) in *.
  assert (Hthread : 0 <= w * warp_size + lane < block_length)
    by (pose proof (thread_in_block w lane warp_size warps_in_block Hw Hlane);
        destruct Hblock as [Hnw HB]; lia).
  set (thread := w * warp_size + lane) in *.
  assert (Hm1 : T / epw = m) by (rewrite HT; apply Z.div_mul; lia).
  rewrite Hm1.
  assert (Hmpos : 1 <= m)
    by (destruct epw_cases as [He|[He|He]]; rewrite He in *; lia).
  unfold this_thread_wrote_last_element_so_far. fold regs.
  assert (Hwrap : wrap_offset PositionOffsetSize
                    (wrap_offset PositionOffsetSize (T - epw) + wrap32 (epw * block_length))
                  = T - epw + stride).
  { assert (He32 : wrap32 (epw * block_length) = stride)
      by (unfold wrap32; rewrite wrap_small; lia).
    rewrite He32.
    assert (0 <= T - epw)
      by (destruct epw_cases as [He|[He|He]]; rewrite He in *; lia).
    rewrite (wrap_offset_small (T - epw)) by lia.
    apply wrap_offset_small. lia. }
  rewrite Hwrap, Z.eqb_eq.
  pose proof (Z.div_mod (m - 1) block_length ltac:(lia)) as Hdiv.
  pose proof (Z.mod_pos_bound (m - 1) block_length ltac:(lia)) as Hmod.
  set (quot := (m - 1) / block_length) in *.
  set (rem := (m - 1) mod block_length) in *.
  assert (Hbetween : m <= thread + k * block_length < m + block_length)
    by (destruct epw_cases as [He|[He|He]]; rewrite He in *; lia).
  split.
  - intros Heq.
    assert (Hsum : thread + k * block_length = rem + (quot + 1) * block_length)
      by (destruct epw_cases as [He|[He|He]]; rewrite He in *; lia).
    apply (residue_unique block_length thread rem k (quot + 1)); lia.
  - intros Heq.
    assert (Hk1 : k = quot + 1) by (apply (between_multiples block_length); lia).
    subst k. destruct epw_cases as [He|[He|He]]; rewrite He in *; lia.
Qed.

Local Notation rederived w lanes :=
  (rederive_first_possible_run UncompressedSize PositionOffsetSize block_length params
     (w * warp_size) lanes).
Local Notation the_slack_warp := (slack_warp UncompressedSize warp_size block_length params).

Lemma length_rederived (w : Z) (lanes : list lane_registers) :
  length (rederived w lanes) = length lanes.
Proof.
  unfold rederive_first_possible_run.
  repeat match goal with |- context [if ?c then _ else _] => destruct c end;
    rewrite length_map; try reflexivity;
    rewrite length_combine, zseq_length; apply Nat.min_id.
Qed.

Lemma nth_stay (lanes : list lane_registers) (i : nat) :
  nth i (map (fun regs : lane_registers => (regs, false)) lanes) (no_lane, false)
  = (nth i lanes no_lane, false).
Proof.
  change (no_lane, false) with ((fun regs : lane_registers => (regs, false)) no_lane).
  apply map_nth.
Qed.

Lemma nth_indexed_lanes {A : Type} (h : Z * lane_registers -> A) (lanes : list lane_registers)
    (i : nat) (d : A) :
  (i < length lanes)%nat ->
  nth i (map h (combine (zseq 0 (length lanes)) lanes)) d
  = h (Z.of_nat i, nth i lanes no_lane).
Proof.
  intros Hi.
  rewrite (nth_map_in_range _ _ _ (0, no_lane))
    by (rewrite length_combine, zseq_length; lia).
  rewrite combine_nth by apply zseq_length.
  rewrite nth_zseq by lia. f_equal.
Qed.

(** Which lanes go on to write a slack element, and from which run they
    start their search. *)
Lemma rederived_lane (r w lane : Z) (lanes : list lane_registers) :
  0 <= w < warps_in_block -> warp_inv r w lanes ->
  (forall regs, In regs lanes -> T <= rel_of regs) ->
  0 <= lane < warp_size ->
  let out := nth (Z.to_nat lane) (rederived w lanes) (no_lane, false) in
  (snd out = true <-> w = the_slack_warp /\ T + lane < dl)
  /\ (snd out = true -> 0 <= fp_of (fst out) <= covering T).
Proof.
  intros Hw Hwi Hleft Hlane.
  pose proof config_facts as (Hepw & HW & HWB & HS).
  destruct truncated_bounds as (HTdl & Hslack & m & Hm & HT).
  assert (Hlen : length lanes = Z.to_nat warp_size) by apply Hwi.
  assert (Hi : (Z.to_nat lane < length lanes)%nat) by lia.
  unfold rederive_first_possible_run, slack_warp. rewrite num_slack_elements_eq.
  destruct (Z.gtb_spec epw 1) as [Hpacked|Hsingle].
  2: { cbv zeta. rewrite nth_stay. cbn [fst snd].
       assert (epw = 1) by lia.
       split; [split; [discriminate|lia]|discriminate]. }
  destruct (Z.eqb_spec (dl - T) 0) as [Hnone|Hsome].
  { cbv zeta. rewrite nth_stay. cbn [fst snd].
    split; [split; [discriminate|lia]|discriminate]. }
  destruct (Z.eqb_spec T 0) as [HT0|HT0].
  - (* no full write: the first threads of the block *)
    cbv zeta. rewrite nth_indexed_lanes by assumption. rewrite Z2Nat.id by lia.
    destruct (Z.geb_spec (w * warp_size + lane) (dl - T)) as [Hge|Hlt]; cbn [fst snd].
    + split; [split; [discriminate|]|discriminate].
      intros [-> Hq]. lia.
    + cbn [first_possible_run_for_next_write].
      split.
      * split; [intros _|reflexivity].
        assert (w = 0).
        { destruct (Z.eq_dec w 0) as [|Hne]; [assumption|].
          assert (1 * warp_size <= w * warp_size)
            by (apply Z.mul_le_mono_nonneg_r; lia). lia. }
        lia.
      * intros _. destruct (Hcover T) as (Hc & _); lia.
  - (* the warp of the thread with the last full write *)
    assert (HTpos : 0 < T) by lia.
    pose proof (fun l Hl => wrote_last_element_iff r w l lanes Hw Hwi Hleft Hl HTpos)
      as Hwrote.
    set (wrote := map (this_thread_wrote_last_element_so_far UncompressedSize
                         PositionOffsetSize block_length params) lanes).
    assert (Hnth : forall l, 0 <= l < warp_size ->
                             nth (Z.to_nat l) wrote false = true
                             <-> w * warp_size + l = last_writer).
    { intros l Hl. subst wrote.
      rewrite (nth_map_in_range _ _ _ no_lane) by lia. now apply Hwrote. }
    destruct (Z.eq_dec w (last_writer / warp_size)) as [Hmine|Hother].
    + set (L := last_writer - w * warp_size).
      assert (HL : 0 <= L < warp_size)
        by (subst L; rewrite Hmine; apply lane_of_div; lia).
      assert (Hfirst : first_lane_satisfying wrote = L).
      { rewrite (first_lane_satisfying_spec wrote (Z.to_nat L)); [lia|lia| |].
        - apply Hnth; [lia|]. subst L. lia.
        - intros l Hl.
          destruct (nth l wrote false) eqn:Hb; [|reflexivity]. exfalso.
          assert (Hl' : 0 <= Z.of_nat l < warp_size) by lia.
          pose proof (proj1 (Hnth _ Hl')) as Hl''.
          rewrite Nat2Z.id in Hl''. specialize (Hl'' Hb). subst L. lia. }
      assert (Hsome' : builtins.all_in_warp_satisfy (map negb wrote) = false).
      { destruct (builtins.all_in_warp_satisfy (map negb wrote)) eqn:Hall; [|reflexivity].
        exfalso. unfold builtins.all_in_warp_satisfy in Hall.
        rewrite forallb_forall in Hall.
        assert (Hin : In (negb (nth (Z.to_nat L) wrote false)) (map negb wrote)).
        { apply in_map, nth_In. subst wrote. rewrite length_map. lia. }
        specialize (Hall _ Hin).
        rewrite (proj2 (Hnth L HL)) in Hall by (subst L; lia). discriminate. }
      cbv zeta. fold wrote. rewrite Hsome', Hfirst.
      rewrite nth_indexed_lanes by assumption. rewrite Z2Nat.id by lia.
      cbn [fst snd first_possible_run_for_next_write].
      rewrite (nth_indep lanes _ no_lane) by lia.
      destruct (final_lane r w L lanes ltac:(lia) Hwi Hleft HL) as (_ & _ & Hfp & Hfp3).
      split.
      * destruct (Z.geb_spec lane (dl - T)); cbn [negb];
          split; try discriminate; try lia; auto.
      * intros _. split; [assumption|]. apply Hfp3. lia.
    + assert (Hall : builtins.all_in_warp_satisfy (map negb wrote) = true).
      { apply forallb_forall. intros b Hb.
        apply in_map_iff in Hb as (b' & <- & Hb').
        destruct b' eqn:Hbv; [|reflexivity]. exfalso.
        destruct (In_nth wrote true false Hb') as (n & Hn & Hnb).
        subst wrote. rewrite length_map in Hn.
        assert (Hl' : 0 <= Z.of_nat n < warp_size) by lia.
        pose proof (proj1 (Hnth _ Hl')) as Hl''. rewrite Nat2Z.id in Hl''.
        specialize (Hl'' Hnb). apply Hother.
        rewrite <- Hl''. symmetry. apply div_of_lane. lia. }
      cbv zeta. fold wrote. rewrite Hall, nth_stay. cbn [fst snd].
      split; [split; [discriminate|]|discriminate].
      intros [Heq _]. contradiction.
Qed.

Lemma slack_write_spec (lane : Z) (regs : lane_registers) :
  0 <= lane -> T + lane < dl ->
  0 <= fp_of regs <= covering T ->
  slack_write IndexSize UncompressedSize PositionOffsetSize PositionsAreRelative
    run_start_positions run_data params lane regs
  = expected_write_at (T + lane).
Proof.
  intros Hlane Hq Hfp.
  pose proof config_facts as (Hepw & HW & HWB & HS).
  destruct truncated_bounds as (HTdl & Hslack & m & Hm & HT).
  unfold slack_write, expected_write.
  assert (Hpos : wrap (Z.max pb ib) (T + lane + off) = off + (T + lane)).
  { rewrite wrap_small; [lia|].
    assert (2 ^ pb <= 2 ^ Z.max pb ib) by (apply pow2_le_mono; lia). lia. }
  rewrite Hpos.
  destruct (Hcover T) as (HcT & _); [lia|].
  destruct (Hcover (T + lane)) as (Hc & _ & _ & Hval); [lia|].
  pose proof (covering_monotone T (T + lane) ltac:(lia) ltac:(lia) ltac:(lia)) as Hmono.
  rewrite (wrap_index_small (fp_of regs + 1)) by lia.
  rewrite advance_run_index_finds by lia.
  rewrite wrap_index_small by lia.
  replace (covering (T + lane) + 1 - 1) with (covering (T + lane)) by lia.
  now rewrite Hval.
Qed.

Local Notation slack_writes_of w lanes :=
  (slack_writes IndexSize UncompressedSize PositionOffsetSize PositionsAreRelative
     block_length run_start_positions run_data params (w * warp_size) lanes).

Lemma slack_writes_by_lane (w : Z) (lanes : list lane_registers) :
  slack_writes_of w lanes
  = flat_map (fun i =>
                let out := nth i (rederived w lanes) (no_lane, false) in
                if snd out
                then [slack_write IndexSize UncompressedSize PositionOffsetSize
                        PositionsAreRelative run_start_positions run_data params
                        (Z.of_nat i) (fst out)]
                else [])
             (seq 0 (length lanes)).
Proof.
  unfold slack_writes.
  rewrite (flat_map_by_index _ _ (0, (no_lane, false))).
  rewrite length_combine, zseq_length, length_rederived, Nat.min_id.
  apply flat_map_agree. intros i Hi. apply in_seq in Hi.
  rewrite combine_nth by (now rewrite zseq_length, length_rederived).
  rewrite nth_zseq by lia. cbn [fst snd]. reflexivity.
Qed.

(** The slack elements are written by the lanes of one warp, one each. *)
Lemma slack_writes_spec (r w : Z) (lanes : list lane_registers) :
  0 <= w < warps_in_block -> warp_inv r w lanes ->
  (forall regs, In regs lanes -> T <= rel_of regs) ->
  (forall wr, In wr (slack_writes_of w lanes) <->
              w = the_slack_warp /\ exists q, T <= q < dl /\ wr = expected_write_at q)
  /\ NoDup (map w_pos (slack_writes_of w lanes)).
Proof.
  intros Hw Hwi Hleft.
  pose proof config_facts as (Hepw & HW & HWB & HS).
  destruct truncated_bounds as (HTdl & Hslack & m & Hm & HT).
  assert (Hlen : length lanes = Z.to_nat warp_size) by apply Hwi.
  rewrite slack_writes_by_lane.
  assert (Hlane : forall i, (i < length lanes)%nat ->
            let out := nth i (rederived w lanes) (no_lane, false) in
            (snd out = true <-> w = the_slack_warp /\ T + Z.of_nat i < dl)
            /\ (snd out = true ->
                slack_write IndexSize UncompressedSize PositionOffsetSize
                  PositionsAreRelative run_start_positions run_data params
                  (Z.of_nat i) (fst out)
                = expected_write_at (T + Z.of_nat i))).
  { intros i Hi.
    pose proof (rederived_lane r w (Z.of_nat i) lanes Hw Hwi Hleft ltac:(lia)) as Hred.
    rewrite Nat2Z.id in Hred. cbv zeta in Hred |- *.
    destruct Hred as [Hflag Hfp]. split; [assumption|].
    intros Hset. apply slack_write_spec; [lia| |auto].
    apply Hflag in Hset. lia. }
  split.
  - intros wr. rewrite in_flat_map. split.
    + intros (i & Hi & Hwr). apply in_seq in Hi.
      destruct (Hlane i ltac:(lia)) as [Hflag Hwrite]. cbv zeta in Hwr, Hflag, Hwrite.
      destruct (snd (nth i (rederived w lanes) (no_lane, false))) eqn:Hset; [|destruct Hwr].
      destruct Hwr as [Hwr|[]].
      destruct (proj1 Hflag eq_refl) as [Hmine Hq].
      split; [assumption|]. exists (T + Z.of_nat i). split; [lia|].
      rewrite <- Hwr. now apply Hwrite.
    + intros (Hmine & q & Hq & Hwr).
      exists (Z.to_nat (q - T)). split; [apply in_seq; lia|].
      destruct (Hlane (Z.to_nat (q - T)) ltac:(lia)) as [Hflag Hwrite].
      cbv zeta in Hflag, Hwrite |- *.
      rewrite Z2Nat.id in Hflag, Hwrite |- * by lia.
      assert (Hset : snd (nth (Z.to_nat (q - T)) (rederived w lanes) (no_lane, false)) = true)
        by (apply Hflag; split; [assumption|lia]).
      rewrite Hset. left. rewrite Hwrite by assumption.
      rewrite Hwr. f_equal. lia.
  - rewrite map_flat_map.
    apply (NoDup_flat_map_keyed _ (fun p => Z.to_nat (p - off - T))).
    + apply seq_NoDup.
    + intros i _. cbv zeta.
      destruct (snd (nth i (rederived w lanes) (no_lane, false))); cbn [map];
        repeat constructor. intros [].
    + intros i p Hi Hp. apply in_seq in Hi.
      destruct (Hlane i ltac:(lia)) as [Hflag Hwrite]. cbv zeta in Hp, Hflag, Hwrite.
      destruct (snd (nth i (rederived w lanes) (no_lane, false))) eqn:Hset; [|destruct Hp].
      cbn [map] in Hp. destruct Hp as [Hp|[]].
      rewrite Hwrite in Hp by reflexivity. cbn in Hp. lia.
Qed.

(** *** A warp, then the block *)

Lemma warp_lanes_full (w : Z) :
  0 <= w < warps_in_block -> warp_lanes warp_size block_length w = zseq 0 (Z.to_nat warp_size).
Proof.
  intros Hw. unfold warp_lanes. f_equal. f_equal.
  destruct Hblock as [Hnw HB]. pose proof config_facts.
  assert ((w + 1) * warp_size <= warps_in_block * warp_size)
    by (apply Z.mul_le_mono_nonneg_r; lia).
  lia.
Qed.

Lemma initial_warp_invariant (w : Z) :
  0 <= w < warps_in_block ->
  warp_inv 0 w (map (initial_registers UncompressedSize PositionOffsetSize warp_size w)
                    (warp_lanes warp_size block_length w)).
Proof.
  intros Hw. rewrite warp_lanes_full by assumption.
  pose proof config_facts as (Hepw & HW & HWB & HS).
  destruct truncated_bounds as (HTdl & Hslack & m & Hm & HT).
  split; [now rewrite length_map, zseq_length|].
  intros lane Hlane.
  rewrite (nth_map_in_range _ _ _ 0) by (rewrite zseq_length; lia).
  rewrite nth_zseq by lia. rewrite Z2Nat.id by lia. cbn [Z.add].
  assert (Hthread : 0 <= w * warp_size + lane < block_length)
    by (pose proof (thread_in_block w lane warp_size warps_in_block Hw Hlane);
        destruct Hblock as [Hnw HB]; lia).
  set (thread := w * warp_size + lane) in *.
  assert (Hrel : 0 <= thread * epw < stride)
    by (destruct epw_cases as [He|[He|He]]; rewrite He in *; lia).
  unfold initial_registers, lane_invariant, wrap32.
  cbn [relative_write_position first_possible_run_for_next_write].
  fold thread.
  rewrite (wrap_small 32) by lia. rewrite wrap_offset_small by lia.
  split; [exists 0; split; [lia|]; split; [f_equal; lia|lia]|].
  split; [lia|]. split; [lia|].
  split; intros Hlt.
  - destruct (Hcover (thread * epw)) as (Hc & _); lia.
  - destruct (Hcover T) as (Hc & _); lia.
Qed.

Lemma num_warps_eq : num_warps warp_size block_length = warps_in_block.
Proof.
  unfold num_warps. destruct Hblock as [Hnw HB]. pose proof config_facts.
  symmetry. apply (Z.div_unique _ _ warps_in_block (warp_size - 1)); lia.
Qed.

Lemma slack_warp_in_block : 0 <= the_slack_warp < warps_in_block.
Proof.
  pose proof config_facts as (Hepw & HW & HWB & HS).
  destruct Hblock as [Hnw HB]. unfold slack_warp.
  destruct (T =? 0); [lia|].
  pose proof (Z.mod_pos_bound (T / epw - 1) block_length ltac:(lia)) as Hmod.
  split.
  - apply Z.div_pos; lia.
  - apply Z.div_lt_upper_bound; lia.
Qed.

(** The warp and the turn a position below the truncated length belongs to. *)
Lemma in_turn_of_position (q : Z) :
  0 <= q < T ->
  let chunk := q / (warp_size * epw) in
  0 <= chunk mod warps_in_block < warps_in_block
  /\ 0 <= chunk / warps_in_block
  /\ in_turn (chunk mod warps_in_block) (chunk / warps_in_block) q.
Proof.
  intros Hq chunk.
  pose proof config_facts as (Hepw & HW & HWB & HS).
  destruct Hblock as [Hnw HB].
  assert (Hc : 0 < warp_size * epw) by (apply Z.mul_pos_pos; lia).
  pose proof (position_in_chunk (warp_size * epw) q Hc) as Hchunk. fold chunk in Hchunk.
  assert (Hchunk0 : 0 <= chunk) by (apply Z.div_pos; lia).
  pose proof (Z.div_mod chunk warps_in_block ltac:(lia)) as Hdiv.
  pose proof (Z.mod_pos_bound chunk warps_in_block Hnw) as Hmod.
  split; [assumption|]. split; [apply Z.div_pos; lia|].
  unfold written_in_turn. split; [assumption|].
  set (w := chunk mod warps_in_block) in *. set (r := chunk / warps_in_block) in *.
  replace ((w * warp_size + r * block_length) * epw) with (chunk * (warp_size * epw))
    by (rewrite HB, Hdiv; ring).
  replace ((w * warp_size + warp_size + r * block_length) * epw)
    with ((chunk + 1) * (warp_size * epw)) by (rewrite HB, Hdiv; ring).
  assumption.
Qed.

(** A position of a turn names its warp. *)
Lemma warp_of_position (w r q : Z) :
  0 <= w < warps_in_block -> 0 <= r -> in_turn w r q ->
  ((q / epw) mod block_length) / warp_size = w.
Proof.
  intros Hw Hr (Hq & Hlo & Hhi).
  pose proof config_facts as (Hepw & HW & HWB & HS).
  destruct Hblock as [Hnw HB].
  pose proof (quotient_in_range epw _ _ q Hepw (conj Hlo Hhi)) as Hquot.
  set (lane := q / epw - (w * warp_size + r * block_length)).
  replace (q / epw) with (w * warp_size + lane + r * block_length) by (subst lane; lia).
  assert (Hlane : 0 <= lane < warp_size) by (subst lane; lia).
  rewrite mod_of_thread
    by (pose proof (thread_in_block w lane warp_size warps_in_block Hw Hlane); lia).
  now apply div_of_lane.
Qed.

(** *** The run a search starts from *)

Local Notation bound :=
  (search_bound UncompressedSize warp_size block_length params covering).

Lemma initial_search_bound (w : Z) :
  0 <= w < warps_in_block ->
  bound 0 w (map (initial_registers UncompressedSize PositionOffsetSize warp_size w)
                 (warp_lanes warp_size block_length w)).
Proof.
  intros Hw regs q Hin Hq.
  pose proof config_facts as (Hepw & HW & HWB & HS).
  apply in_map_iff in Hin as (lane & <- & _).
  unfold initial_registers. cbn [first_possible_run_for_next_write].
  assert (0 <= w * warp_size) by (apply Z.mul_nonneg_nonneg; lia).
  destruct (Hcover q) as (Hc & _); [|lia].
  destruct epw_cases as [He|[He|He]]; rewrite He in *; lia.
Qed.

(** A turn of the loop keeps the bound and lowers the start of no search. *)
Lemma turn_keeps_search_bound (r w : Z) (lanes : list lane_registers) :
  0 <= r -> 0 <= w -> warp_inv r w lanes -> bound r w lanes ->
  let lanes' :=
    map (after_turn UncompressedSize block_length params covering
           (nth (Z.to_nat (warp_size - 1)) lanes no_lane)) lanes in
  bound (r + 1) w lanes'
  /\ forall lane, 0 <= lane < warp_size ->
       fp_of (nth (Z.to_nat lane) lanes no_lane)
       <= fp_of (nth (Z.to_nat lane) lanes' no_lane).
Proof.
  intros Hr Hw Hwi Hbound lanes'.
  pose proof config_facts as (Hepw & HW & HWB & HS).
  destruct truncated_bounds as (HTdl & Hslack & m & Hm & HT).
  assert (Hw0 : 0 <= w * warp_size) by (apply Z.mul_nonneg_nonneg; lia).
  assert (Hr0 : 0 <= r * block_length) by (apply Z.mul_nonneg_nonneg; lia).
  assert (Hlen : length lanes = Z.to_nat warp_size) by apply Hwi.
  assert (Hstep : forall lane, 0 <= lane < warp_size ->
            let regs := nth (Z.to_nat lane) lanes no_lane in
            let regs' := after_turn UncompressedSize block_length params covering
                           (nth (Z.to_nat (warp_size - 1)) lanes no_lane) regs in
            fp_of regs <= fp_of regs'
            /\ forall q, (w * warp_size + (r + 1) * block_length) * epw <= q < dl ->
                         fp_of regs' <= covering q).
  { intros lane Hlane regs regs'.
    assert (Hin : In regs lanes) by (apply nth_In; lia).
    pose proof (proj2 Hwi lane Hlane) as Hinv. fold regs in Hinv.
    subst regs'. unfold after_turn.
    destruct (in_loop UncompressedSize params regs) eqn:Hloop.
    - apply in_loop_lt in Hloop.
      destruct (lane_in_loop r _ regs Hinv Hloop) as [Hrel Hend].
      destruct (Z.ltb_spec (rel_of regs + stride) dl) as [Hnext|Hnext];
        cbn [first_possible_run_for_next_write].
      + destruct (last_lane_in_turn r w lane lanes Hr Hwi Hlane Hloop Hnext)
          as [Hlast Hlastend].
        fold regs in Hlast. rewrite Hrel in Hlast.
        set (last := nth (Z.to_nat (warp_size - 1)) lanes no_lane) in *.
        assert (Hlastpos :
                  (w * warp_size + r * block_length) * epw <= rel_of last + epw - 1
                  /\ rel_of last + epw
                     <= (w * warp_size + (r + 1) * block_length) * epw)
          by (destruct epw_cases as [He|[He|He]]; rewrite He in *; lia).
        split.
        * apply (Hbound regs); [assumption|lia].
        * intros q Hq. apply covering_monotone; lia.
      + split; [lia|]. intros q Hq. apply (Hbound regs); [assumption|].
        destruct epw_cases as [He|[He|He]]; rewrite He in *; lia.
    - split; [lia|]. intros q Hq. apply (Hbound regs); [assumption|].
      destruct epw_cases as [He|[He|He]]; rewrite He in *; lia. }
  split.
  - intros regs' q Hin Hq. subst lanes'.
    apply in_map_iff in Hin as (regs & <- & Hin).
    destruct (lane_of_member r w lanes regs Hwi Hin) as (lane & Hlane & <-).
    now apply (Hstep lane Hlane).
  - intros lane Hlane. subst lanes'.
    rewrite (nth_map_in_range _ _ _ no_lane) by lia.
    now apply (Hstep lane Hlane).
Qed.

(** The lanes which write a slack element start their search at or before
    the run of their element. *)
Lemma slack_search_start (r w lane : Z) (lanes : list lane_registers) :
  0 <= w < warps_in_block -> warp_inv r w lanes ->
  (forall regs, In regs lanes -> T <= rel_of regs) ->
  0 <= lane < warp_size ->
  let out := nth (Z.to_nat lane) (rederived w lanes) (no_lane, false) in
  snd out = true ->
  T + lane < dl /\ 0 <= fp_of (fst out) <= covering (T + lane).
Proof.
  intros Hw Hwi Hleft Hlane out Hset.
  destruct truncated_bounds as (HTdl & _).
  destruct (rederived_lane r w lane lanes Hw Hwi Hleft Hlane) as [Hflag Hfp].
  fold out in Hflag, Hfp.
  destruct (proj1 Hflag Hset) as [_ Hq]. specialize (Hfp Hset).
  split; [assumption|].
  pose proof (covering_monotone T (T + lane) ltac:(lia) ltac:(lia) ltac:(lia)). lia.
Qed.

(** *** The search start as a scalar of the warp *)

Local Notation turns_of :=
  (turns IndexSize UncompressedSize PositionOffsetSize PositionsAreRelative
     warp_size block_length decompressed_at run_start_positions run_data params).
Local Notation all_left :=
  (forallb (fun regs => negb (in_loop UncompressedSize params regs))).

Lemma search_bound_later (r r' w : Z) (lanes : list lane_registers) :
  r <= r' -> bound r w lanes -> bound r' w lanes.
Proof.
  intros Hle Hbound regs q Hin Hq. apply (Hbound regs q Hin).
  pose proof config_facts as (Hepw & HW & HWB & HS).
  assert (r * block_length <= r' * block_length) by (apply Z.mul_le_mono_nonneg_r; lia).
  destruct epw_cases as [He|[He|He]]; rewrite He in *; lia.
Qed.

Lemma slack_positions_bound (r w : Z) (lanes : list lane_registers)
    (regs : lane_registers) (q : Z) :
  warp_inv r w lanes -> In regs lanes -> T <= q < dl -> fp_of regs <= covering q.
Proof.
  intros Hwi Hin Hq.
  destruct truncated_bounds as (HTdl & _).
  destruct (lane_of_member r w lanes regs Hwi Hin) as (lane & Hlane & Hnth).
  pose proof (proj2 Hwi lane Hlane) as (_ & _ & _ & _ & Hfp3). rewrite Hnth in Hfp3.
  pose proof (covering_monotone T q ltac:(lia) ltac:(lia) ltac:(lia)). lia.
Qed.

(** What a defined turn does to the search start of a lane: every lane
    takes up the run of the last lane, or every lane keeps what it has. *)
Lemma after_turn_first_possible_run (r w : Z) (lanes : list lane_registers)
    (regs : lane_registers) :
  0 <= r -> 0 <= w -> warp_inv r w lanes -> defined lanes = true -> In regs lanes ->
  let last := nth (Z.to_nat (warp_size - 1)) lanes no_lane in
  fp_of (after_turn_of last regs)
  = if in_loop UncompressedSize params last && further last
    then covering (rel_of last + epw - 1)
    else fp_of regs.
Proof.
  intros Hr Hw Hwi Hdef Hin last.
  pose proof config_facts as (Hepw & HW & HWB & HS).
  destruct truncated_bounds as (HTdl & Hslack & m & Hm & HT).
  destruct (lane_of_member r w lanes regs Hwi Hin) as (lane & Hlane & Hnth).
  pose proof (proj2 Hwi lane Hlane) as Hinv. rewrite Hnth in Hinv.
  assert (Hnonneg : 0 <= rel_of regs) by (apply (lane_rel_nonneg r _ regs) in Hinv; lia).
  unfold turn_is_defined in Hdef. apply andb_true_iff in Hdef as [_ Hdef].
  fold last in Hdef.
  destruct (in_loop UncompressedSize params last && further last) eqn:Hlastgoes.
  - (* the last lane has a further write: so has every lane of the warp *)
    apply andb_true_iff in Hlastgoes as [Hlastloop Hlastfurther].
    apply in_loop_lt in Hlastloop.
    pose proof (proj2 Hwi (warp_size - 1) ltac:(lia)) as Hlastinv. fold last in Hlastinv.
    destruct (lane_in_loop r _ last Hlastinv Hlastloop) as [Hlastrel Hlastend].
    assert (Hw0 : 0 <= w * warp_size) by (apply Z.mul_nonneg_nonneg; lia).
    assert (Hr0 : 0 <= r * block_length) by (apply Z.mul_nonneg_nonneg; lia).
    assert (Hlast0 : 0 <= rel_of last).
    { rewrite Hlastrel. apply Z.mul_nonneg_nonneg; lia. }
    rewrite has_a_further_write_in_loop in Hlastfurther by lia.
    apply Z.ltb_lt in Hlastfurther.
    destruct Hinv as ((r' & Hr' & Hrel & Hleft) & _).
    assert (r' = r).
    { destruct (Z.eq_dec r' r) as [|Hne]; [assumption|]. exfalso.
      assert (Hlt : r' < r) by lia. specialize (Hleft Hlt).
      assert (r' * block_length <= (r - 1) * block_length)
        by (apply Z.mul_le_mono_nonneg_r; lia).
      destruct epw_cases as [He|[He|He]]; rewrite He in *; lia. }
    subst r'.
    assert (Hbelow : rel_of regs <= rel_of last)
      by (destruct epw_cases as [He|[He|He]]; rewrite He in *; lia).
    unfold after_turn.
    rewrite (proj2 (in_loop_lt regs)) by lia.
    rewrite (proj2 (Z.ltb_lt _ _)) by lia. reflexivity.
  - (* no lane has a further write *)
    cbn [orb] in Hdef. rewrite orb_false_r in Hdef.
    rewrite forallb_forall in Hdef. specialize (Hdef regs Hin).
    apply negb_true_iff in Hdef.
    unfold after_turn.
    destruct (in_loop UncompressedSize params regs) eqn:Hloop; [|reflexivity].
    cbn [andb] in Hdef. apply in_loop_lt in Hloop.
    rewrite has_a_further_write_in_loop in Hdef by lia.
    rewrite Hdef. reflexivity.
Qed.

Lemma after_turn_agrees (r w : Z) (lanes : list lane_registers) :
  0 <= r -> 0 <= w -> warp_inv r w lanes -> defined lanes = true ->
  warp_agrees lanes ->
  warp_agrees (map (after_turn_of (nth (Z.to_nat (warp_size - 1)) lanes no_lane)) lanes).
Proof.
  intros Hr Hw Hwi Hdef Hagree a' b' Ha' Hb'.
  apply in_map_iff in Ha' as (a & <- & Ha). apply in_map_iff in Hb' as (b & <- & Hb).
  rewrite (after_turn_first_possible_run r w lanes a Hr Hw Hwi Hdef Ha).
  rewrite (after_turn_first_possible_run r w lanes b Hr Hw Hwi Hdef Hb).
  destruct (in_loop UncompressedSize params _ && further _); [reflexivity|].
  now apply Hagree.
Qed.

Lemma main_round_defined (r w : Z) (lanes lanes' : list lane_registers) (ws : list write) :
  0 <= r -> 0 <= w -> warp_inv r w lanes ->
  main_round_of lanes = Some (lanes', ws) ->
  defined lanes = true
  /\ lanes' = map (after_turn_of (nth (Z.to_nat (warp_size - 1)) lanes no_lane)) lanes.
Proof.
  intros Hr Hw Hwi Hround. rewrite (main_round_eq r w lanes Hr Hw Hwi) in Hround.
  destruct (defined lanes); [|discriminate].
  injection Hround as <- _. auto.
Qed.

Lemma nothing_to_do (r w : Z) (lanes : list lane_registers) :
  0 <= w -> warp_inv r w lanes -> T = 0 -> all_left lanes = true.
Proof.
  intros Hw Hwi HT0. apply forallb_forall. intros regs Hin.
  apply negb_true_iff, in_loop_ge.
  destruct (lane_of_member r w lanes regs Hwi Hin) as (lane & Hlane & Hnth).
  pose proof (proj2 Hwi lane Hlane) as Hinv. rewrite Hnth in Hinv.
  assert (Hw0 : 0 <= w * warp_size) by (apply Z.mul_nonneg_nonneg; lia).
  apply (lane_rel_nonneg r _ regs) in Hinv; lia.
Qed.

(** The state of the loop after some turns, whenever the turns are defined:
    the lanes are as the invariant has them, their search starts are at or
    before the runs of the positions to come, they agree on the search
    start, and no lane has taken up an earlier run. *)
Lemma turns_keep (w : Z) (n : nat) :
  forall (r : Z) (lanes lanes' : list lane_registers),
    0 <= r -> 0 <= w -> warp_inv r w lanes -> bound r w lanes -> warp_agrees lanes ->
    turns_of n lanes = Some lanes' ->
    exists r', r <= r' <= r + Z.of_nat n
      /\ warp_inv r' w lanes' /\ bound r' w lanes' /\ warp_agrees lanes'
      /\ (forall lane, 0 <= lane < warp_size ->
            fp_of (nth (Z.to_nat lane) lanes no_lane)
            <= fp_of (nth (Z.to_nat lane) lanes' no_lane))
      /\ (T = 0 -> lanes' = lanes).
Proof.
  induction n as [|n IH]; intros r lanes lanes' Hr Hw Hwi Hbound Hagree Hturns.
  - cbn [turns] in Hturns. injection Hturns as <-.
    exists r. split; [lia|]. split; [assumption|]. split; [assumption|].
    split; [assumption|]. split; [intros; lia|reflexivity].
  - cbn [turns] in Hturns.
    destruct (all_left lanes) eqn:Hleft.
    + injection Hturns as <-.
      exists r. split; [lia|]. split; [assumption|]. split; [assumption|].
      split; [assumption|]. split; [intros; lia|reflexivity].
    + destruct (main_round_of lanes) as [[lanes1 ws]|] eqn:Hround; [|discriminate].
      destruct (main_round_defined r w lanes lanes1 ws Hr Hw Hwi Hround) as [Hdef ->].
      destruct (turn_keeps_search_bound r w lanes Hr Hw Hwi Hbound) as [Hbound1 Hmono1].
      destruct (IH (r + 1) _ lanes' ltac:(lia) Hw
                  (warp_invariant_after_turn r w lanes Hr Hw Hwi) Hbound1
                  (after_turn_agrees r w lanes Hr Hw Hwi Hdef Hagree) Hturns)
        as (r' & Hr' & Hwi' & Hbound' & Hagree' & Hmono' & _).
      exists r'. split; [lia|]. split; [assumption|]. split; [assumption|].
      split; [assumption|]. split.
      * intros lane Hlane. specialize (Hmono1 lane Hlane). specialize (Hmono' lane Hlane).
        lia.
      * intros HT0. rewrite (nothing_to_do r w lanes Hw Hwi HT0) in Hleft. discriminate.
Qed.

Lemma turns_succ (n : nat) :
  forall lanes : list lane_registers,
    turns_of (S n) lanes
    = match turns_of n lanes with
      | Some lanes' => turns_of 1 lanes'
      | None => None
      end.
Proof.
  induction n as [|n IH]; intros lanes; [reflexivity|].
  change (turns_of (S (S n)) lanes)
    with (if all_left lanes then Some lanes
          else match main_round_of lanes with
               | None => None
               | Some (lanes', _) => turns_of (S n) lanes'
               end).
  change (turns_of (S n) lanes)
    with (if all_left lanes then Some lanes
          else match main_round_of lanes with
               | None => None
               | Some (lanes', _) => turns_of n lanes'
               end).
  destruct (all_left lanes) eqn:Hleft.
  - cbn [turns]. now rewrite Hleft.
  - destruct (main_round_of lanes) as [[lanes1 ws]|]; [|reflexivity]. apply IH.
Qed.

(** The loop ends in a state some number of turns leads to. *)
Lemma main_loop_turns (fuel : nat) :
  forall (lanes final : list lane_registers) (ws : list write),
    main_loop IndexSize UncompressedSize PositionOffsetSize PositionsAreRelative
      warp_size block_length decompressed_at run_start_positions run_data params fuel lanes
    = Some (final, ws) ->
    exists n, turns_of n lanes = Some final /\ all_left final = true.
Proof.
  induction fuel as [|fuel IH]; intros lanes final ws Hloop; cbn [main_loop] in Hloop;
    destruct (all_left lanes) eqn:Hleft.
  - injection Hloop as <- _. exists O. auto.
  - discriminate.
  - injection Hloop as <- _. exists O. auto.
  - destruct (main_round_of lanes) as [[lanes1 ws1]|] eqn:Hround; [|discriminate].
    destruct (main_loop _ _ _ _ _ _ _ _ _ _ fuel lanes1) as [[final' rest]|] eqn:Hrest;
      [|discriminate].
    injection Hloop as <- _.
    destruct (IH lanes1 final' rest Hrest) as (n & Hturns & Hdone).
    exists (S n). split; [|assumption]. cbn [turns]. now rewrite Hleft, Hround.
Qed.

(** The re-derivation before the slack writes gives a lane the search start
    of a lane of its warp, or 0 when no full write has been made: among
    lanes which agree, and which hold 0 when there was no full write, it
    changes nothing. *)
Lemma rederived_first_possible_run (first_thread_of_warp lane : Z)
    (lanes : list lane_registers) :
  warp_agrees lanes ->
  (T = 0 -> forall regs, In regs lanes -> fp_of regs = 0) ->
  (Z.to_nat lane < length lanes)%nat ->
  fp_of (fst (nth (Z.to_nat lane)
                (rederive_first_possible_run UncompressedSize PositionOffsetSize
                   block_length params first_thread_of_warp lanes)
                (no_lane, false)))
  = fp_of (nth (Z.to_nat lane) lanes no_lane).
Proof.
  intros Hagree Hzero Hlane.
  assert (Hin : In (nth (Z.to_nat lane) lanes no_lane) lanes) by now apply nth_In.
  unfold rederive_first_possible_run.
  destruct (epw >? 1); [|cbv zeta; now rewrite nth_stay].
  destruct (num_slack_elements UncompressedSize PositionOffsetSize params =? 0);
    [cbv zeta; now rewrite nth_stay|].
  destruct (Z.eqb_spec T 0) as [HT0|HT0].
  - cbv zeta. rewrite nth_indexed_lanes by assumption.
    destruct (first_thread_of_warp + Z.of_nat (Z.to_nat lane)
              >=? num_slack_elements UncompressedSize PositionOffsetSize params);
      cbn [fst first_possible_run_for_next_write]; [reflexivity|].
    symmetry. now apply Hzero.
  - cbv zeta.
    destruct (builtins.all_in_warp_satisfy _); [now rewrite nth_stay|].
    rewrite nth_indexed_lanes by assumption.
    cbn [fst first_possible_run_for_next_write].
    match goal with |- fp_of (nth ?i lanes ?d) = _ =>
      destruct (nth_in_or_default i lanes d) as [Hfound|Hdefault]
    end.
    + now apply Hagree.
    + now rewrite Hdefault.
Qed.

(** The search start of the lanes of a warp over the whole of
    [decompress_a_segment_with_few_runs]. *)
Lemma first_possible_run_over_the_segment (w : Z) :
  0 <= w < warps_in_block ->
  let start := map (initial_registers UncompressedSize PositionOffsetSize warp_size w)
                   (warp_lanes warp_size block_length w) in
  (forall regs, In regs start -> fp_of regs = 0)
  /\ (forall (n : nat) (lanes : list lane_registers),
        turns_of n start = Some lanes ->
        bound (Z.of_nat n) w lanes
        /\ (forall regs q, In regs lanes -> T <= q < dl -> fp_of regs <= covering q)
        /\ (forall lanes', turns_of (S n) start = Some lanes' ->
              forall lane, 0 <= lane < warp_size ->
                fp_of (nth (Z.to_nat lane) lanes no_lane)
                <= fp_of (nth (Z.to_nat lane) lanes' no_lane)))
  /\ (forall (final : list lane_registers) (ws : list write),
        main_loop IndexSize UncompressedSize PositionOffsetSize PositionsAreRelative
          warp_size block_length decompressed_at run_start_positions run_data params
          (main_loop_fuel UncompressedSize params) start = Some (final, ws) ->
        forall lane, 0 <= lane < warp_size ->
          let out := nth (Z.to_nat lane) (rederived w final) (no_lane, false) in
          fp_of (nth (Z.to_nat lane) final no_lane) <= fp_of (fst out)
          /\ (snd out = true ->
              T + lane < dl /\ fp_of (fst out) <= covering (T + lane))).
Proof.
  intros Hw start.
  assert (Hzero : forall regs, In regs start -> fp_of regs = 0).
  { intros regs Hin. subst start. apply in_map_iff in Hin as (lane & <- & _). reflexivity. }
  assert (Hagree : warp_agrees start).
  { intros a b Ha Hb. now rewrite (Hzero a Ha), (Hzero b Hb). }
  pose proof (initial_warp_invariant w Hw) as Hwi. fold start in Hwi.
  pose proof (initial_search_bound w Hw) as Hbound. fold start in Hbound.
  split; [assumption|]. split.
  - intros n lanes Hturns.
    destruct (turns_keep w n 0 start lanes ltac:(lia) ltac:(lia) Hwi Hbound Hagree Hturns)
      as (r' & Hr' & Hwi' & Hbound' & Hagree' & _).
    split; [apply (search_bound_later r'); [lia|assumption]|].
    split; [intros regs q Hin Hq; now apply (slack_positions_bound r' w lanes)|].
    intros lanes' Hnext. rewrite turns_succ, Hturns in Hnext.
    destruct (turns_keep w 1 r' lanes lanes' ltac:(lia) ltac:(lia) Hwi' Hbound' Hagree'
                Hnext) as (_ & _ & _ & _ & _ & Hmono & _).
    assumption.
  - intros final ws Hloop lane Hlane out.
    destruct (main_loop_turns _ start final ws Hloop) as (n & Hturns & Hdone).
    destruct (turns_keep w n 0 start final ltac:(lia) ltac:(lia) Hwi Hbound Hagree Hturns)
      as (r' & Hr' & Hwi' & Hbound' & Hagree' & _ & Hsame).
    assert (Hleft : forall regs, In regs final -> T <= rel_of regs).
    { intros regs Hin. rewrite forallb_forall in Hdone. specialize (Hdone regs Hin).
      now apply negb_true_iff, in_loop_ge in Hdone. }
    split.
    + subst out. rewrite rederived_first_possible_run; [lia|assumption| |].
      * intros HT0 regs Hin. rewrite (Hsame HT0) in Hin. now apply Hzero.
      * destruct Hwi' as [Hlen _]. lia.
    + intros Hset.
      destruct (slack_search_start r' w lane final Hw Hwi' Hleft Hlane Hset) as [Hq Hfp].
      split; [assumption|apply Hfp].
Qed.

(** *** The block, when every turn is defined *)

(** From here on the segment starts at a multiple of the elements of a
    thread write, and the last lane of a warp has a further write whenever
    another lane of the warp has one. *)
Hypothesis Hstart_aligned : (decompressed_at + off) mod epw = 0.
Hypothesis Hshuffles :
  shuffles_include_the_last_lane UncompressedSize warp_size block_length dl.

Lemma aligned_at_multiple (position : Z) :
  (decompressed_at + position) mod epw = 0 -> aligned position = true.
Proof.
  intros Hmod. unfold store_is_aligned, sizeof_write_type.
  apply Z.eqb_eq.
  assert (HU : 0 < UncompressedSize) by (destruct Hsize as [H|[H|[H|H]]]; lia).
  pose proof config_facts as (Hepw & _).
  rewrite Z.mul_mod_distr_r by lia. rewrite Hmod. reflexivity.
Qed.

Lemma turn_is_defined_here (r w : Z) (lanes : list lane_registers) :
  0 <= r -> 0 <= w -> warp_inv r w lanes -> defined lanes = true.
Proof.
  intros Hr Hw Hwi.
  pose proof config_facts as (Hepw & HW & HWB & HS).
  destruct truncated_bounds as (HTdl & Hslack & m & Hm & HT).
  unfold turn_is_defined. apply andb_true_iff. split.
  - apply forallb_forall. intros regs Hin.
    destruct (in_loop UncompressedSize params regs) eqn:Hloop; [|reflexivity].
    cbn [negb orb]. apply in_loop_lt in Hloop.
    destruct (lane_of_member r w lanes regs Hwi Hin) as (lane & Hlane & Hnth).
    pose proof (proj2 Hwi lane Hlane) as Hinv. rewrite Hnth in Hinv.
    destruct (lane_in_loop r _ regs Hinv Hloop) as [Hrel Hend].
    assert (Hnonneg : 0 <= rel_of regs) by (apply (lane_rel_nonneg r _ regs) in Hinv; lia).
    rewrite wrap_offset_small by lia.
    apply aligned_at_multiple.
    replace (decompressed_at + (rel_of regs + off))
      with (decompressed_at + off + (w * warp_size + lane + r * block_length) * epw)
      by (rewrite Hrel; ring).
    rewrite Z_mod_plus_full. assumption.
  - match goal with |- ?a || _ = true => destruct a eqn:Hnone end; [reflexivity|].
    cbn [orb].
    apply forallb_false_witness in Hnone as (regs & Hin & Hgoes).
    apply negb_false_iff, andb_true_iff in Hgoes as [Hloop Hfurther].
    apply in_loop_lt in Hloop.
    destruct (lane_of_member r w lanes regs Hwi Hin) as (lane & Hlane & Hnth).
    pose proof (proj2 Hwi lane Hlane) as Hinv. rewrite Hnth in Hinv.
    destruct (lane_in_loop r _ regs Hinv Hloop) as [Hrel Hend].
    assert (Hnonneg : 0 <= rel_of regs) by (apply (lane_rel_nonneg r _ regs) in Hinv; lia).
    rewrite has_a_further_write_in_loop in Hfurther by lia.
    apply Z.ltb_lt in Hfurther.
    pose proof (last_lane_in_turn r w lane lanes Hr Hwi Hlane) as Hlastlane.
    cbv zeta in Hlastlane. rewrite Hnth in Hlastlane.
    destruct (Hlastlane Hloop Hfurther) as [Hrellast Hendlast].
    set (last := nth (Z.to_nat (warp_size - 1)) lanes no_lane) in *.
    assert (Hgap : 0 <= (warp_size - 1 - lane) * epw) by (apply Z.mul_nonneg_nonneg; lia).
    assert (Hlastloop : rel_of last < T) by lia.
    apply andb_true_iff. split; [now apply in_loop_lt|].
    rewrite has_a_further_write_in_loop by lia. apply Z.ltb_lt.
    destruct Hblock as [Hnw HB].
    assert (Hw0 : 0 <= w * warp_size) by (apply Z.mul_nonneg_nonneg; lia).
    assert (Hr0 : 0 <= r * block_length) by (apply Z.mul_nonneg_nonneg; lia).
    assert (Hl0 : 0 <= lane * epw) by (apply Z.mul_nonneg_nonneg; lia).
    specialize (Hshuffles (w + (r + 1) * warps_in_block)).
    replace ((w + (r + 1) * warps_in_block) * warp_size)
      with (w * warp_size + r * block_length + block_length) in Hshuffles
      by (rewrite HB; ring).
    replace ((w * warp_size + r * block_length + block_length + warp_size - 1) * epw)
      with (rel_of last + stride) in Hshuffles
      by (rewrite Hrellast, Hrel; ring).
    apply Hshuffles; [lia|].
    replace ((w * warp_size + r * block_length + block_length) * epw)
      with (rel_of regs + stride - lane * epw) by (rewrite Hrel; ring).
    lia.
Qed.

Lemma main_round_spec (r w : Z) (lanes : list lane_registers) :
  0 <= r -> 0 <= w -> warp_inv r w lanes ->
  main_round_of lanes
  = Some (map (after_turn_of (nth (Z.to_nat (warp_size - 1)) lanes no_lane)) lanes,
          flat_map (turn_writes UncompressedSize PositionsAreRelative params expected) lanes).
Proof.
  intros Hr Hw Hwi.
  rewrite (main_round_eq r w lanes Hr Hw Hwi).
  now rewrite (turn_is_defined_here r w lanes Hr Hw Hwi).
Qed.

(** Every number of turns leads to a state. *)
Lemma turns_return (w : Z) (n : nat) :
  forall (r : Z) (lanes : list lane_registers),
    0 <= r -> 0 <= w -> warp_inv r w lanes ->
    exists lanes', turns_of n lanes = Some lanes'.
Proof.
  induction n as [|n IH]; intros r lanes Hr Hw Hwi; [now exists lanes|].
  cbn [turns]. destruct (all_left lanes); [now exists lanes|].
  rewrite (main_round_spec r w lanes Hr Hw Hwi).
  apply (IH (r + 1)); [lia|assumption|]. now apply warp_invariant_after_turn.
Qed.

Lemma main_loop_spec (w : Z) (fuel : nat) :
  forall (r : Z) (lanes : list lane_registers),
    0 <= r -> 0 <= w -> warp_inv r w lanes ->
    T <= (w * warp_size + r * block_length) * epw + Z.of_nat fuel * stride ->
    exists final tr r',
      main_loop IndexSize UncompressedSize PositionOffsetSize PositionsAreRelative
        warp_size block_length decompressed_at run_start_positions run_data params fuel lanes
      = Some (final, tr)
      /\ r <= r' /\ warp_inv r' w final
      /\ (forall regs, In regs final -> T <= rel_of regs)
      /\ (forall wr, In wr tr <->
                     exists q r'', r <= r'' /\ in_turn w r'' q /\ wr = expected_write_at q)
      /\ NoDup (map w_pos tr).
Proof.
  pose proof config_facts as (Hepw & HW & HWB & HS).
  induction fuel as [|fuel IH]; intros r lanes Hr Hw Hwi Hfuel;
    destruct (forallb (fun regs => negb (in_loop UncompressedSize params regs)) lanes)
      eqn:Hdone.
  1, 3:
    (assert (Hleft : forall regs, In regs lanes -> T <= rel_of regs)
      by (intros regs Hin; rewrite forallb_forall in Hdone; specialize (Hdone regs Hin);
          apply negb_true_iff, in_loop_ge in Hdone; assumption);
     exists lanes, [], r;
     split; [cbn [main_loop]; rewrite Hdone; reflexivity|];
     split; [lia|]; split; [assumption|]; split; [assumption|];
     split; [|constructor];
     intros wr; split; [intros []|];
     intros (q & r'' & Hr'' & Hturn & _);
     exfalso; exact (no_turn_left r w lanes Hr Hw Hwi Hleft q r'' Hr'' Hturn)).
  - (* no fuel, yet a lane in the loop *)
    exfalso. apply forallb_false_witness in Hdone as (regs & Hin & Hloop).
    apply negb_false_iff, in_loop_lt in Hloop.
    destruct (lane_of_member r w lanes regs Hwi Hin) as (lane & Hlane & Hnth).
    pose proof (proj2 Hwi lane Hlane) as Hinv. rewrite Hnth in Hinv.
    destruct (lane_in_loop r _ regs Hinv Hloop) as [Hrel _].
    rewrite Hrel in Hloop. cbn in Hfuel.
    destruct epw_cases as [He|[He|He]]; rewrite He in *; lia.
  - (* one turn, then the rest of the loop *)
    cbn [main_loop]. rewrite Hdone.
    rewrite (main_round_spec r w lanes Hr Hw Hwi).
    destruct (IH (r + 1) _ ltac:(lia) Hw (warp_invariant_after_turn r w lanes Hr Hw Hwi))
      as (final & rest & r' & Hloop & Hr' & Hfinal & Hleft & Hrest & Hnodup).
    { destruct epw_cases as [He|[He|He]]; rewrite He in *; lia. }
    rewrite Hloop.
    exists final, (flat_map turn_writes_of lanes ++ rest), r'.
    split; [reflexivity|]. split; [lia|]. split; [assumption|]. split; [assumption|].
    split.
    + intros wr. rewrite in_app_iff, (in_turn_writes r w lanes wr Hr Hw Hwi), Hrest.
      split.
      * intros [(q & Hq & Hwr)|(q & r'' & Hr'' & Hq & Hwr)].
        -- exists q, r. split; [lia|]. auto.
        -- exists q, r''. split; [lia|]. auto.
      * intros (q & r'' & Hr'' & Hq & Hwr).
        destruct (Z.eq_dec r'' r) as [->|Hne].
        -- left. exists q. auto.
        -- right. exists q, r''. split; [lia|]. auto.
    + rewrite map_app. apply NoDup_app.
      * now apply (NoDup_positions_of_turn r w).
      * assumption.
      * intros p Hp Hp'.
        apply in_map_iff in Hp as (wr & Hwp & Hp).
        apply (in_turn_writes r w lanes wr Hr Hw Hwi) in Hp as (q & Hq & Hwr).
        apply in_map_iff in Hp' as (wr' & Hwp' & Hp').
        apply Hrest in Hp' as (q' & r'' & Hr'' & Hq' & Hwr').
        subst wr wr'. cbn in Hwp, Hwp'. subst p.
        destruct Hq as (_ & _ & Hhi). destruct Hq' as (_ & Hlo & _).
        assert ((r + 1) * block_length <= r'' * block_length) by (apply Z.mul_le_mono_nonneg_r; lia).
        destruct epw_cases as [He|[He|He]]; rewrite He in *; lia.
Qed.

Local Notation decompress_warp_of :=
  (decompress_warp IndexSize UncompressedSize PositionOffsetSize PositionsAreRelative
     warp_size block_length decompressed_at run_start_positions run_data params).

Lemma decompress_warp_spec (w : Z) :
  0 <= w < warps_in_block ->
  exists tr,
    decompress_warp_of w = Some tr
    /\ (forall wr, In wr tr <->
                   exists q, wr = expected_write_at q
                             /\ ((exists r, 0 <= r /\ in_turn w r q)
                                 \/ (w = the_slack_warp /\ T <= q < dl)))
    /\ NoDup (map w_pos tr).
Proof.
  intros Hw.
  pose proof config_facts as (Hepw & HW & HWB & HS).
  destruct truncated_bounds as (HTdl & Hslack & m & Hm & HT).
  destruct (main_loop_spec w (main_loop_fuel UncompressedSize params) 0 _
              ltac:(lia) ltac:(lia) (initial_warp_invariant w Hw))
    as (final & tr & r' & Hloop & Hr' & Hfinal & Hleft & Htr & Hnodup).
  { unfold main_loop_fuel. rewrite Z2Nat.id by lia.
    assert (0 <= w * warp_size) by (apply Z.mul_nonneg_nonneg; lia).
    assert (T * 1 <= T * stride) by (apply Z.mul_le_mono_nonneg_l; lia).
    destruct epw_cases as [He|[He|He]]; rewrite He in *; lia. }
  destruct (slack_writes_spec r' w final Hw Hfinal Hleft) as [Hslackw Hslacknodup].
  unfold decompress_warp. rewrite Hloop.
  exists (tr ++ slack_writes_of w final). split; [reflexivity|]. split.
  - intros wr. rewrite in_app_iff, Htr, Hslackw. split.
    + intros [(q & r & Hr & Hq & Hwr)|(Hmine & q & Hq & Hwr)].
      * exists q. split; [assumption|]. left. exists r. auto.
      * exists q. split; [assumption|]. right. auto.
    + intros (q & Hwr & [(r & Hr & Hq)|(Hmine & Hq)]).
      * left. exists q, r. auto.
      * right. split; [assumption|]. exists q. auto.
  - rewrite map_app. apply NoDup_app; [assumption|assumption|].
    intros p Hp Hp'.
    apply in_map_iff in Hp as (wr & Hwp & Hp).
    apply Htr in Hp as (q & r & _ & ((_ & HqT) & _) & Hwr).
    apply in_map_iff in Hp' as (wr' & Hwp' & Hp').
    apply Hslackw in Hp' as (_ & q' & Hq' & Hwr').
    subst wr wr'. cbn in Hwp, Hwp'. lia.
Qed.

(** The block writes every position of its segment once, with the value the
    tables give it. *)
Lemma decompress_segment_spec :
  exists tr,
    decompress_segment IndexSize UncompressedSize PositionOffsetSize PositionsAreRelative
      warp_size block_length decompressed_at run_start_positions run_data params = Some tr
    /\ (forall wr, In wr tr <-> exists q, 0 <= q < dl /\ wr = expected_write_at q)
    /\ NoDup (map w_pos tr).
Proof.
  pose proof config_facts as (Hepw & HW & HWB & HS).
  destruct truncated_bounds as (HTdl & Hslack & m & Hm & HT).
  set (writes_of_warp := fun w => match decompress_warp_of w with
                                  | Some tr => tr
                                  | None => []
                                  end).
  assert (Hwarp' : forall w, 0 <= w < warps_in_block ->
            decompress_warp_of w = Some (writes_of_warp w)
            /\ (forall wr, In wr (writes_of_warp w) <->
                           exists q, wr = expected_write_at q
                                     /\ ((exists r, 0 <= r /\ in_turn w r q)
                                         \/ (w = the_slack_warp /\ T <= q < dl)))
            /\ NoDup (map w_pos (writes_of_warp w))).
  { intros w Hw. destruct (decompress_warp_spec w Hw) as (tr & Heq & Hin & Hnodup).
    subst writes_of_warp. cbv beta. rewrite Heq. auto. }
  exists (flat_map writes_of_warp (zseq 0 (Z.to_nat warps_in_block))).
  assert (Hwarps : forall w, In w (zseq 0 (Z.to_nat warps_in_block)) <->
                             0 <= w < warps_in_block)
    by (intros w; rewrite in_zseq by lia; lia).
  split; [|split].
  - unfold decompress_segment, decompress_a_segment_with_few_runs.
    rewrite num_warps_eq.
    rewrite (sequence_map_some _ writes_of_warp)
      by (intros w Hw; apply Hwarp', Hwarps, Hw).
    cbn [option_map]. now rewrite flat_map_concat_map.
  - intros wr. rewrite in_flat_map. split.
    + intros (w & Hw & Hwr). apply Hwarps in Hw.
      apply (proj1 (proj2 (Hwarp' w Hw))) in Hwr as (q & Hwr & Hq).
      exists q. split; [|assumption].
      destruct Hq as [(r & _ & (Hq & _))|(_ & Hq)]; lia.
    + intros (q & Hq & Hwr).
      destruct (Z_lt_le_dec q T) as [Hlt|Hge].
      * destruct (in_turn_of_position q ltac:(lia)) as (Hw & Hr & Hturn).
        eexists. split; [apply Hwarps; exact Hw|].
        apply (proj1 (proj2 (Hwarp' _ Hw))). exists q. split; [assumption|].
        left. eexists. split; [exact Hr|exact Hturn].
      * exists the_slack_warp. split; [apply Hwarps, slack_warp_in_block|].
        apply (proj1 (proj2 (Hwarp' _ slack_warp_in_block))).
        exists q. split; [assumption|]. right. split; [reflexivity|lia].
  - rewrite map_flat_map.
    apply (NoDup_flat_map_keyed _
             (fun p => if p - off <? T
                       then ((p - off) / epw) mod block_length / warp_size
                       else the_slack_warp)).
    + apply NoDup_zseq.
    + intros w Hw. apply Hwarp', Hwarps, Hw.
    + intros w p Hw Hp. apply Hwarps in Hw.
      apply in_map_iff in Hp as (wr & Hwp & Hp).
      apply (proj1 (proj2 (Hwarp' w Hw))) in Hp as (q & Hwr & Hq).
      subst wr. cbn in Hwp. subst p.
      replace (off + q - off) with q by lia.
      destruct Hq as [(r & Hr & Hq)|(Hmine & Hq)].
      * destruct (Z.ltb_spec q T) as [_|Hge]; [|destruct Hq as ((_ & HqT) & _); lia].
        now apply (warp_of_position w r q).
      * destruct (Z.ltb_spec q T) as [Hlt|_]; [lia|]. now symmetry.
Qed.

End SegmentFacts.

(** ** The tables of the compressor *)

Lemma zth_cons_first (a : Z) (l : list Z) : zth (a :: l) 0 = a.
Proof. reflexivity. Qed.

Lemma zth_cons_later (a : Z) (l : list Z) (j : Z) : 0 < j -> zth (a :: l) j = zth l (j - 1).
Proof.
  intros Hj. unfold zth.
  replace (Z.to_nat j) with (S (Z.to_nat (j - 1))) by lia. reflexivity.
Qed.

Lemma zth_in (l : list Z) (j : Z) : 0 <= j < Z.of_nat (length l) -> In (zth l j) l.
Proof. intros Hj. unfold zth. apply nth_In. lia. Qed.

Lemma run_starts_length (from : Z) (run_lengths : list Z) :
  length (run_starts from run_lengths) = length run_lengths.
Proof.
  revert from. induction run_lengths as [|len rest IH]; intros from; [reflexivity|].
  cbn. now rewrite IH.
Qed.

Lemma run_starts_from (from s : Z) (run_lengths : list Z) :
  (forall len, In len run_lengths -> 0 <= len) ->
  In s (run_starts from run_lengths) -> from <= s.
Proof.
  revert from. induction run_lengths as [|len rest IH]; intros from Hpos Hin; [destruct Hin|].
  cbn in Hin. destruct Hin as [<-|Hin]; [lia|].
  assert (0 <= len) by (apply Hpos; now left).
  apply IH in Hin; [lia|]. intros len' Hlen'. apply Hpos. now right.
Qed.

Lemma run_starts_below_total (runs : list (Z * Z)) (from s : Z) :
  (forall r, In r runs -> 1 <= snd r) ->
  In s (run_starts from (map snd runs)) -> s < from + uncompressed_length_of runs.
Proof.
  revert from. induction runs as [|r rest IH]; intros from Hpos Hin; [destruct Hin|].
  assert (Hlen : 1 <= snd r) by (apply Hpos; now left).
  assert (Hrest : forall r', In r' rest -> 1 <= snd r')
    by (intros r' Hr'; apply Hpos; now right).
  assert (Hnonneg : 0 <= uncompressed_length_of rest).
  { clear - Hrest. induction rest as [|r' rest IH]; [cbn; lia|].
    unfold uncompressed_length_of in *. cbn [map fold_right].
    assert (1 <= snd r') by (apply Hrest; now left).
    specialize (IH (fun r'' Hr'' => Hrest r'' (or_intror Hr''))). lia. }
  unfold uncompressed_length_of in *. cbn [map fold_right run_starts] in *.
  destruct Hin as [<-|Hin]; [lia|].
  specialize (IH (from + snd r) Hrest Hin). lia.
Qed.

Lemma covering_run_cons (from p : Z) (starts : list Z) :
  from <= p -> covering_run (from :: starts) p = covering_run starts p + 1.
Proof.
  intros Hle. unfold covering_run. cbn [filter].
  destruct (Z.leb_spec from p); [|lia]. cbn [length]. lia.
Qed.

Lemma covering_run_none (p : Z) (starts : list Z) :
  (forall s, In s starts -> p < s) -> covering_run starts p = -1.
Proof.
  intros Hall. unfold covering_run.
  replace (filter (fun s => s <=? p) starts) with (@nil Z); [reflexivity|].
  symmetry. induction starts as [|s rest IH]; [reflexivity|].
  cbn [filter]. destruct (Z.leb_spec s p) as [Hle|_].
  - specialize (Hall s (or_introl eq_refl)). lia.
  - apply IH. intros s' Hs'. apply Hall. now right.
Qed.

(** The covering run of a position starts at or before it, and the runs
    after it start later. *)
Lemma covering_run_spec (run_lengths : list Z) :
  forall from p,
    (forall len, In len run_lengths -> 1 <= len) ->
    from <= p < from + fold_right Z.add 0 run_lengths ->
    let starts := run_starts from run_lengths in
    let c := covering_run starts p in
    0 <= c < Z.of_nat (length run_lengths)
    /\ (forall j, 0 <= j <= c -> zth starts j <= p)
    /\ (forall j, c < j < Z.of_nat (length run_lengths) -> p < zth starts j).
Proof.
  induction run_lengths as [|len rest IH]; intros from p Hpos Hp; [cbn in Hp; lia|].
  cbn [fold_right run_starts] in *. cbv zeta.
  rewrite covering_run_cons by lia.
  assert (Hlen : 1 <= len) by (apply Hpos; now left).
  assert (Hrest : forall len', In len' rest -> 1 <= len')
    by (intros len' Hin; apply Hpos; now right).
  assert (Hlater : forall j, 0 < j < Z.of_nat (S (length rest)) ->
                             from + len <= zth (from :: run_starts (from + len) rest) j).
  { intros j Hj. rewrite zth_cons_later by lia.
    apply (run_starts_from _ _ rest).
    - intros len' Hin. specialize (Hrest len' Hin). lia.
    - apply zth_in. rewrite run_starts_length. lia. }
  destruct (Z_lt_le_dec p (from + len)) as [Hfirst|Hnot].
  - rewrite covering_run_none.
    + cbn [length]. split; [lia|]. split.
      * intros j Hj. replace j with 0 by lia. rewrite zth_cons_first. lia.
      * intros j Hj. specialize (Hlater j ltac:(lia)). lia.
    + intros s Hs. apply run_starts_from in Hs; [lia|].
      intros len' Hin. specialize (Hrest len' Hin). lia.
  - destruct (IH (from + len) p Hrest ltac:(lia)) as (Hc & Hbelow & Habove).
    cbn [length]. split; [lia|]. split.
    + intros j Hj. destruct (Z.eq_dec j 0) as [->|Hne].
      * rewrite zth_cons_first. lia.
      * rewrite zth_cons_later by lia. apply Hbelow. lia.
    + intros j Hj. rewrite zth_cons_later by lia. apply Habove. lia.
Qed.

Lemma uncompressed_length_cons (r : Z * Z) (rest : list (Z * Z)) :
  uncompressed_length_of (r :: rest) = snd r + uncompressed_length_of rest.
Proof. reflexivity. Qed.

Lemma length_expand (runs : list (Z * Z)) :
  (forall r, In r runs -> 0 <= snd r) ->
  Z.of_nat (length (expand runs)) = uncompressed_length_of runs.
Proof.
  induction runs as [|r rest IH]; intros Hpos; [reflexivity|].
  unfold expand in *. cbn [flat_map]. rewrite length_app, repeat_length.
  rewrite uncompressed_length_cons, Nat2Z.inj_add, IH.
  - specialize (Hpos r (or_introl eq_refl)). lia.
  - intros r' Hr'. apply Hpos. now right.
Qed.

(** The array holds, at each position, the value of the covering run. *)
Lemma expand_covering (runs : list (Z * Z)) :
  forall from p,
    (forall r, In r runs -> 1 <= snd r) ->
    from <= p < from + uncompressed_length_of runs ->
    zth (expand runs) (p - from)
    = zth (map fst runs) (covering_run (run_starts from (map snd runs)) p).
Proof.
  induction runs as [|[v len] rest IH]; intros from p Hpos Hp; [cbn in Hp; lia|].
  rewrite uncompressed_length_cons in Hp. cbn [fst snd map run_starts] in *.
  rewrite covering_run_cons by lia.
  assert (Hlen : 1 <= len) by (apply (Hpos (v, len)); now left).
  assert (Hrest : forall r, In r rest -> 1 <= snd r)
    by (intros r Hin; apply Hpos; now right).
  unfold expand. cbn [flat_map fst snd]. fold (expand rest).
  destruct (Z_lt_le_dec p (from + len)) as [Hfirst|Hnot].
  - rewrite covering_run_none.
    + cbn [Z.add]. rewrite zth_cons_first. unfold zth.
      rewrite app_nth1 by (rewrite repeat_length; lia).
      apply nth_repeat_lt. lia.
    + intros s Hs. apply run_starts_from in Hs; [lia|].
      intros len' Hin. apply in_map_iff in Hin as (r & <- & Hr).
      specialize (Hrest r Hr). lia.
  - pose proof (covering_run_spec (map snd rest) (from + len) p) as Hspec.
    destruct Hspec as (Hc & _).
    { intros len' Hin. apply in_map_iff in Hin as (r & <- & Hr). now apply Hrest. }
    { unfold uncompressed_length_of in Hp. lia. }
    rewrite zth_cons_later by lia.
    replace (covering_run (run_starts (from + len) (map snd rest)) p + 1 - 1)
      with (covering_run (run_starts (from + len) (map snd rest)) p) by lia.
    rewrite <- IH by (assumption || lia).
    unfold zth. rewrite app_nth2 by (rewrite repeat_length; lia).
    rewrite repeat_length. f_equal. lia.
Qed.

(** ** Replaying the writes *)

Lemma length_store (a : list Z) (i : nat) (v : Z) : length (store a i v) = length a.
Proof.
  revert i. induction a as [|h t IH]; intros i; [reflexivity|].
  destruct i; cbn; [reflexivity|]. now rewrite IH.
Qed.

Lemma nth_store (a : list Z) (i j : nat) (v : Z) :
  (j < length a)%nat ->
  nth j (store a i v) 0 = if Nat.eqb i j then v else nth j a 0.
Proof.
  revert i j. induction a as [|h t IH]; intros i j Hj; [cbn in Hj; lia|].
  destruct i as [|i], j as [|j]; cbn; try reflexivity.
  apply IH. cbn in Hj. lia.
Qed.

Lemma length_apply_writes (tr : list write) (a : list Z) :
  length (apply_writes tr a) = length a.
Proof.
  revert a. induction tr as [|w tr IH]; intros a; [reflexivity|].
  unfold apply_writes in *. cbn [fold_left]. rewrite IH. unfold apply_write.
  destruct (w_pos w <? 0); [reflexivity|apply length_store].
Qed.

(** A slot written, by writes which agree on the value, holds that value. *)
Lemma nth_apply_writes (v : Z) (j : nat) (tr : list write) :
  forall a : list Z,
    (j < length a)%nat ->
    (forall w, In w tr -> w_pos w = Z.of_nat j -> w_val w = v) ->
    nth j (apply_writes tr a) 0
    = if existsb (fun w => w_pos w =? Z.of_nat j) tr then v else nth j a 0.
Proof.
  induction tr as [|w tr IH]; intros a Hj Hval; [reflexivity|].
  unfold apply_writes in *. cbn [fold_left existsb].
  rewrite IH.
  - destruct (existsb (fun w0 => w_pos w0 =? Z.of_nat j) tr);
      [now rewrite orb_true_r|].
    rewrite orb_false_r. unfold apply_write.
    destruct (Z.ltb_spec (w_pos w) 0) as [Hneg|Hpos].
    + destruct (Z.eqb_spec (w_pos w) (Z.of_nat j)); [lia|reflexivity].
    + rewrite nth_store by assumption.
      destruct (Z.eqb_spec (w_pos w) (Z.of_nat j)) as [Heq|Hne].
      * replace (Z.to_nat (w_pos w)) with j by lia. rewrite Nat.eqb_refl.
        apply Hval; [now left|assumption].
      * destruct (Nat.eqb_spec (Z.to_nat (w_pos w)) j); [lia|reflexivity].
  - unfold apply_write. destruct (w_pos w <? 0); [assumption|].
    now rewrite length_store.
  - intros w' Hin. apply Hval. now right.
Qed.

(** Writes which fill every slot of the buffer with the elements of an array
    leave the array in the buffer. *)
Lemma apply_writes_fills (tr : list write) (a buffer : list Z) :
  length buffer = length a ->
  (forall w, In w tr <->
             exists p, 0 <= p < Z.of_nat (length a) /\ w = mk_write p (zth a p)) ->
  apply_writes tr buffer = a.
Proof.
  intros Hlen Htr. apply (nth_ext _ _ 0 0).
  - now rewrite length_apply_writes.
  - intros j Hj. rewrite length_apply_writes in Hj.
    rewrite (nth_apply_writes (nth j a 0)); [|assumption|].
    + assert (Hex : existsb (fun w => w_pos w =? Z.of_nat j) tr = true).
      { apply existsb_exists. exists (mk_write (Z.of_nat j) (zth a (Z.of_nat j))).
        split; [|cbn; apply Z.eqb_refl].
        apply Htr. exists (Z.of_nat j). split; [lia|reflexivity]. }
      now rewrite Hex.
    + intros w Hin Hpos. apply Htr in Hin as (p & Hp & ->).
      cbn in Hpos |- *. subst p. unfold zth. now rewrite Nat2Z.id.
Qed.

(** Writes which name each position of a range once are, by their
    positions, a rearrangement of the range. *)
Lemma positions_permutation (tr : list write) (f : Z -> Z) (lo len : Z) :
  0 <= lo -> 0 <= len ->
  NoDup (map w_pos tr) ->
  (forall wr, In wr tr <-> exists p, lo <= p < lo + len /\ wr = mk_write p (f p)) ->
  Permutation (map w_pos tr) (zseq lo (Z.to_nat len)).
Proof.
  intros Hlo Hlen Hnodup Hin. apply NoDup_Permutation; [assumption|apply NoDup_zseq|].
  intros p. rewrite in_zseq by assumption. rewrite in_map_iff. split.
  - intros (wr & Hp & Hwr). apply Hin in Hwr as (p' & Hp' & ->). cbn in Hp. lia.
  - intros Hp. exists (mk_write p (f p)). split; [reflexivity|].
    apply Hin. exists p. split; [lia|reflexivity].
Qed.

(** ** The positions a block writes

    Which positions a block writes, and whether its turns are defined, is a
    matter of the start and the length of the segment alone: the run tables
    and the number of runs decide the values only. *)

Lemma map_of_positions {X : Type} (F F' : lane_registers -> X)
    (lanes lanes' : list lane_registers) :
  (forall a b, relative_write_position a = relative_write_position b -> F a = F' b) ->
  map relative_write_position lanes = map relative_write_position lanes' ->
  map F lanes = map F' lanes'.
Proof.
  intros Hsame. revert lanes'.
  induction lanes as [|a lanes IH]; intros [|b lanes'] Hpos; try discriminate; [reflexivity|].
  cbn [map] in *. injection Hpos as Hab Hrest.
  now rewrite (Hsame a b Hab), (IH lanes' Hrest).
Qed.

Lemma flat_map_of_positions {X : Type} (F F' : lane_registers -> list X)
    (lanes lanes' : list lane_registers) :
  (forall a b, relative_write_position a = relative_write_position b -> F a = F' b) ->
  map relative_write_position lanes = map relative_write_position lanes' ->
  flat_map F lanes = flat_map F' lanes'.
Proof.
  intros Hsame Hpos. rewrite !flat_map_concat_map.
  now rewrite (map_of_positions F F' lanes lanes' Hsame Hpos).
Qed.

Lemma forallb_of_positions (F F' : lane_registers -> bool)
    (lanes lanes' : list lane_registers) :
  (forall a b, relative_write_position a = relative_write_position b -> F a = F' b) ->
  map relative_write_position lanes = map relative_write_position lanes' ->
  forallb F lanes = forallb F' lanes'.
Proof.
  intros Hsame Hpos.
  pose proof (map_of_positions F F' lanes lanes' Hsame Hpos) as Hmap.
  clear Hsame Hpos. revert lanes' Hmap.
  induction lanes as [|a lanes IH]; intros [|b lanes'] Hmap; try discriminate; [reflexivity|].
  cbn [map forallb] in *. injection Hmap as Hab Hrest.
  now rewrite Hab, (IH lanes' Hrest).
Qed.

Lemma nth_of_positions (lanes lanes' : list lane_registers) (i : nat) :
  map relative_write_position lanes = map relative_write_position lanes' ->
  relative_write_position (nth i lanes (mk_lane 0 0))
  = relative_write_position (nth i lanes' (mk_lane 0 0)).
Proof.
  intros Hpos.
  change (relative_write_position (nth i lanes (mk_lane 0 0)))
    with (nth i lanes (mk_lane 0 0)).(relative_write_position).
  rewrite <- !(map_nth relative_write_position). now rewrite Hpos.
Qed.

Section TurnPositions.
Variables IndexSize UncompressedSize PositionOffsetSize : Z.
Variable PositionsAreRelative : bool.
Variables warp_size block_length decompressed_at : Z.
Variables run_start_positions run_data : list Z.
Variable params : segment_decompression_params_t.

Local Notation epw := (elements_per_thread_write UncompressedSize).
Local Notation off := (segment_offset PositionsAreRelative params).
Local Notation rel_of := relative_write_position.
Local Notation no_lane := (mk_lane 0 0).
Local Notation write_position_of regs :=
  (wrap_offset PositionOffsetSize (rel_of regs + off)).
Local Notation aligned := (store_is_aligned UncompressedSize decompressed_at).
Local Notation in_loop_of := (in_loop UncompressedSize params).
Local Notation further :=
  (has_a_further_write UncompressedSize PositionOffsetSize block_length params).
Local Notation next_of :=
  (next_relative_write_position_for_this_thread UncompressedSize PositionOffsetSize
     block_length).
Local Notation locate :=
  (locate_and_perform_next_write IndexSize UncompressedSize PositionOffsetSize
     PositionsAreRelative decompressed_at run_start_positions run_data params).

(** The positions of a packed store, and when it faults. *)
Lemma locate_and_perform_next_write_positions (regs : lane_registers) :
  match locate regs with
  | Some (ws, _) =>
      aligned (write_position_of regs) = true
      /\ map w_pos ws = map (Z.add (write_position_of regs)) (zseq 0 (Z.to_nat epw))
  | None => aligned (write_position_of regs) = false
  end.
Proof.
  unfold locate_and_perform_next_write.
  destruct (fold_left _ _ _) as [[run_index c] buffer].
  destruct (aligned (write_position_of regs)); [|reflexivity].
  split; [reflexivity|]. rewrite map_map. reflexivity.
Qed.

(** A turn of the loop by its positions: whether it is defined, where the
    lanes go, and which positions they write. *)
Lemma main_round_positions (lanes : list lane_registers) :
  (Z.to_nat (warp_size - 1) < length lanes)%nat ->
  match main_round IndexSize UncompressedSize PositionOffsetSize PositionsAreRelative
          warp_size block_length decompressed_at run_start_positions run_data params
          lanes with
  | Some (lanes', ws) =>
      turn_is_defined UncompressedSize PositionOffsetSize PositionsAreRelative warp_size
        block_length decompressed_at params lanes = true
      /\ map rel_of lanes'
         = map (fun regs => if in_loop_of regs then next_of regs else rel_of regs) lanes
      /\ map w_pos ws
         = flat_map (fun regs =>
                       if in_loop_of regs
                       then map (Z.add (write_position_of regs)) (zseq 0 (Z.to_nat epw))
                       else []) lanes
  | None =>
      turn_is_defined UncompressedSize PositionOffsetSize PositionsAreRelative warp_size
        block_length decompressed_at params lanes = false
  end.
Proof.
  intros Hlast.
  set (last := nth (Z.to_nat (warp_size - 1)) lanes no_lane).
  set (performed_of := fun regs : lane_registers =>
         if in_loop_of regs then locate regs else None).
  set (c_of := fun regs : lane_registers =>
         match locate regs with Some (_, c) => c | None => 0 end).
  unfold main_round, turn_is_defined.
  rewrite (sequence_map_cases _ performed_of
             (fun regs => negb (in_loop_of regs) || aligned (write_position_of regs))).
  2: { intros regs _. subst performed_of. cbv beta.
       destruct (in_loop_of regs); [|reflexivity]. cbn [negb orb].
       pose proof (locate_and_perform_next_write_positions regs) as Hlocate.
       destruct (locate regs) as [[ws c]|].
       - destruct Hlocate as [-> _]. reflexivity.
       - rewrite Hlocate. reflexivity. }
  match goal with |- context [forallb ?f lanes && _] => destruct (forallb f lanes) eqn:Haligned end;
    cbn [andb]; [|reflexivity].
  rewrite forallb_forall in Haligned.
  assert (Hperformed : forall regs, In regs lanes -> in_loop_of regs = true ->
            exists ws, locate regs = Some (ws, c_of regs)
                       /\ map w_pos ws
                          = map (Z.add (write_position_of regs)) (zseq 0 (Z.to_nat epw))).
  { intros regs Hin Hloop. specialize (Haligned regs Hin). rewrite Hloop in Haligned.
    cbn [negb orb] in Haligned. subst c_of. cbv beta.
    pose proof (locate_and_perform_next_write_positions regs) as Hlocate.
    destruct (locate regs) as [[ws c]|]; [|congruence].
    exists ws. split; [reflexivity|apply Hlocate]. }
  rewrite combine_map_self.
  rewrite (nth_map_in_range _ _ _ no_lane) by assumption.
  fold last.
  assert (Hlastin : In last lanes) by (subst last; now apply nth_In).
  set (from_last_lane :=
         if in_loop_of last && further last then Some (c_of last) else None).
  assert (Hfrom : match performed_of last with
                  | Some (_, run_covering_current_element) =>
                      if further last then Some run_covering_current_element else None
                  | None => None
                  end = from_last_lane).
  { subst performed_of from_last_lane. cbv beta.
    destruct (in_loop_of last) eqn:Hloop; [|reflexivity].
    destruct (Hperformed last Hlastin Hloop) as (ws & -> & _). reflexivity. }
  rewrite Hfrom. rewrite map_map. cbn [fst snd].
  rewrite (sequence_map_cases _
             (fun regs => if in_loop_of regs
                          then if further regs
                               then mk_lane (c_of last) (next_of regs)
                               else mk_lane (first_possible_run_for_next_write regs)
                                      (next_of regs)
                          else regs)
             (fun regs => negb (in_loop_of regs && further regs)
                          || (in_loop_of last && further last))).
  2: { intros regs Hin. subst performed_of from_last_lane. cbv beta. unfold adopt.
       destruct (in_loop_of regs) eqn:Hloop; [|reflexivity].
       destruct (Hperformed regs Hin Hloop) as (ws & -> & _).
       cbn [andb].
       destruct (further regs); cbn [negb orb]; [|reflexivity].
       destruct (in_loop_of last && further last); reflexivity. }
  rewrite forallb_orb_const.
  match goal with |- context [if ?c then _ else _] => destruct c end; [|reflexivity].
  split; [reflexivity|]. split.
  - rewrite map_map. apply map_ext. intros regs.
    destruct (in_loop_of regs); [|reflexivity]. destruct (further regs); reflexivity.
  - rewrite flat_map_map, map_flat_map. apply flat_map_agree.
    intros regs Hin. subst performed_of. cbv beta.
    destruct (in_loop_of regs) eqn:Hloop; [|reflexivity].
    destruct (Hperformed regs Hin Hloop) as (ws & -> & Hpositions). exact Hpositions.
Qed.

End TurnPositions.

Lemma map_fst_combine {A B : Type} (l : list A) (l' : list B) :
  length l = length l' -> map fst (combine l l') = l.
Proof.
  revert l'. induction l as [|a l IH]; intros [|b l'] Hlen; try discriminate; [reflexivity|].
  cbn. f_equal. apply IH. now injection Hlen.
Qed.

Lemma combine_map_snd {A B C : Type} (f : B -> C) (l : list A) (l' : list B) :
  combine l (map f l') = map (fun ab => (fst ab, f (snd ab))) (combine l l').
Proof.
  revert l'. induction l as [|a l IH]; intros [|b l']; try reflexivity.
  cbn. f_equal. apply IH.
Qed.

Lemma sequence_of_positions {A : Type} (f f' : A -> option (list write)) (l : list A) :
  (forall a, In a l -> option_map (map w_pos) (f a) = option_map (map w_pos) (f' a)) ->
  option_map (fun trs => map w_pos (concat trs)) (sequence (map f l))
  = option_map (fun trs => map w_pos (concat trs)) (sequence (map f' l)).
Proof.
  intros Hsame. induction l as [|a l IH]; [reflexivity|].
  cbn [map sequence fold_right]. fold (sequence (map f l)) (sequence (map f' l)).
  specialize (IH (fun a' Ha' => Hsame a' (or_intror Ha'))).
  specialize (Hsame a (or_introl eq_refl)).
  destruct (f a) as [tr|], (f' a) as [tr'|]; try discriminate; [|reflexivity].
  destruct (sequence (map f l)) as [trs|], (sequence (map f' l)) as [trs'|];
    try discriminate; [|reflexivity].
  cbn [option_map concat] in *. rewrite !map_app.
  injection Hsame as ->. injection IH as ->. reflexivity.
Qed.

Section SamePositions.
Variables IndexSize UncompressedSize PositionOffsetSize : Z.
Variable PositionsAreRelative : bool.
Variables warp_size block_length warps_in_block decompressed_at : Z.
Variables run_start_positions run_data run_start_positions' run_data' : list Z.
Variables params params' : segment_decompression_params_t.

Hypothesis Hwarp_size : 0 < warp_size.
Hypothesis Hblock : 0 < warps_in_block /\ block_length = warps_in_block * warp_size.
Hypothesis Hsame_start :
  uncompressed_start_position params' = uncompressed_start_position params.
Hypothesis Hsame_length : decompressed_length params' = decompressed_length params.

Local Notation rel_of := relative_write_position.
Local Notation no_lane := (mk_lane 0 0).
Local Notation main_round_of tables values prm :=
  (main_round IndexSize UncompressedSize PositionOffsetSize PositionsAreRelative
     warp_size block_length decompressed_at tables values prm).
Local Notation main_loop_of tables values prm :=
  (main_loop IndexSize UncompressedSize PositionOffsetSize PositionsAreRelative
     warp_size block_length decompressed_at tables values prm).
Local Notation slack_writes_of tables values prm :=
  (slack_writes IndexSize UncompressedSize PositionOffsetSize PositionsAreRelative
     block_length tables values prm).
Local Notation decompress_warp_of tables values prm :=
  (decompress_warp IndexSize UncompressedSize PositionOffsetSize PositionsAreRelative
     warp_size block_length decompressed_at tables values prm).

Lemma same_offset :
  segment_offset PositionsAreRelative params' = segment_offset PositionsAreRelative params.
Proof. unfold segment_offset. now rewrite Hsame_start. Qed.

Lemma same_truncated :
  truncated_decompressed_length UncompressedSize params'
  = truncated_decompressed_length UncompressedSize params.
Proof. unfold truncated_decompressed_length. now rewrite Hsame_length. Qed.

Lemma same_in_loop (a b : lane_registers) :
  rel_of a = rel_of b ->
  in_loop UncompressedSize params a = in_loop UncompressedSize params' b.
Proof. intros Hab. unfold in_loop. now rewrite same_truncated, Hab. Qed.

Lemma same_further (a b : lane_registers) :
  rel_of a = rel_of b ->
  has_a_further_write UncompressedSize PositionOffsetSize block_length params a
  = has_a_further_write UncompressedSize PositionOffsetSize block_length params' b.
Proof.
  intros Hab. unfold has_a_further_write, next_relative_write_position_for_this_thread.
  now rewrite Hsame_length, Hab.
Qed.

Lemma same_turn_is_defined (lanes lanes' : list lane_registers) :
  map rel_of lanes = map rel_of lanes' ->
  turn_is_defined UncompressedSize PositionOffsetSize PositionsAreRelative warp_size
    block_length decompressed_at params lanes
  = turn_is_defined UncompressedSize PositionOffsetSize PositionsAreRelative warp_size
      block_length decompressed_at params' lanes'.
Proof.
  intros Hpos. unfold turn_is_defined.
  pose proof (nth_of_positions lanes lanes' (Z.to_nat (warp_size - 1)) Hpos) as Hlast.
  f_equal; [|f_equal].
  - apply forallb_of_positions; [|assumption].
    intros a b Hab. now rewrite (same_in_loop a b Hab), same_offset, Hab.
  - apply forallb_of_positions; [|assumption].
    intros a b Hab. now rewrite (same_in_loop a b Hab), (same_further a b Hab).
  - cbv zeta. now rewrite (same_in_loop _ _ Hlast), (same_further _ _ Hlast).
Qed.

(** Two turns from the same positions are defined together, lead to the
    same positions and write the same positions. *)
Lemma main_round_same (lanes lanes' : list lane_registers) :
  map rel_of lanes = map rel_of lanes' ->
  (Z.to_nat (warp_size - 1) < length lanes)%nat ->
  match main_round_of run_start_positions run_data params lanes,
        main_round_of run_start_positions' run_data' params' lanes' with
  | Some (next, ws), Some (next', ws') =>
      map rel_of next = map rel_of next' /\ map w_pos ws = map w_pos ws'
      /\ length next = length lanes
  | None, None => True
  | _, _ => False
  end.
Proof.
  intros Hpos Hlast.
  assert (Hlast' : (Z.to_nat (warp_size - 1) < length lanes')%nat).
  { apply (f_equal (@length Z)) in Hpos. rewrite !length_map in Hpos. lia. }
  pose proof (main_round_positions IndexSize UncompressedSize PositionOffsetSize
                PositionsAreRelative warp_size block_length decompressed_at
                run_start_positions run_data params lanes Hlast) as Hround.
  pose proof (main_round_positions IndexSize UncompressedSize PositionOffsetSize
                PositionsAreRelative warp_size block_length decompressed_at
                run_start_positions' run_data' params' lanes' Hlast') as Hround'.
  pose proof (same_turn_is_defined lanes lanes' Hpos) as Hdefined.
  destruct (main_round_of run_start_positions run_data params lanes) as [[next ws]|],
           (main_round_of run_start_positions' run_data' params' lanes') as [[next' ws']|].
  - destruct Hround as (_ & Hnext & Hws). destruct Hround' as (_ & Hnext' & Hws').
    split; [|split].
    + rewrite Hnext, Hnext'. apply map_of_positions; [|assumption].
      intros a b Hab. rewrite (same_in_loop a b Hab).
      unfold next_relative_write_position_for_this_thread. now rewrite Hab.
    + rewrite Hws, Hws'. apply flat_map_of_positions; [|assumption].
      intros a b Hab. now rewrite (same_in_loop a b Hab), same_offset, Hab.
    + apply (f_equal (@length Z)) in Hnext. now rewrite !length_map in Hnext.
  - destruct Hround as (Hd & _). congruence.
  - destruct Hround' as (Hd & _). congruence.
  - exact I.
Qed.

Lemma main_loop_same (fuel : nat) :
  forall lanes lanes' : list lane_registers,
    map rel_of lanes = map rel_of lanes' ->
    (Z.to_nat (warp_size - 1) < length lanes)%nat ->
    match main_loop_of run_start_positions run_data params fuel lanes,
          main_loop_of run_start_positions' run_data' params' fuel lanes' with
    | Some (final, ws), Some (final', ws') =>
        map rel_of final = map rel_of final' /\ map w_pos ws = map w_pos ws'
    | None, None => True
    | _, _ => False
    end.
Proof.
  induction fuel as [|fuel IH]; intros lanes lanes' Hpos Hlast; cbn [main_loop];
    rewrite <- (forallb_of_positions
                  (fun regs => negb (in_loop UncompressedSize params regs))
                  (fun regs => negb (in_loop UncompressedSize params' regs))
                  lanes lanes'
                  (fun a b Hab => f_equal negb (same_in_loop a b Hab)) Hpos);
    destruct (forallb _ lanes); try (split; [assumption|reflexivity]); try exact I.
  pose proof (main_round_same lanes lanes' Hpos Hlast) as Hround.
  destruct (main_round_of run_start_positions run_data params lanes) as [[next ws]|],
           (main_round_of run_start_positions' run_data' params' lanes') as [[next' ws']|];
    try contradiction; [|exact I].
  destruct Hround as (Hnext & Hws & Hlen).
  specialize (IH next next' Hnext ltac:(lia)).
  destruct (main_loop_of run_start_positions run_data params fuel next) as [[final rest]|],
           (main_loop_of run_start_positions' run_data' params' fuel next')
             as [[final' rest']|];
    try contradiction; [|exact I].
  destruct IH as [Hfinal Hrest]. split; [assumption|].
  rewrite !map_app. now rewrite Hws, Hrest.
Qed.

Lemma same_wrote_last (a b : lane_registers) :
  rel_of a = rel_of b ->
  this_thread_wrote_last_element_so_far UncompressedSize PositionOffsetSize block_length
    params a
  = this_thread_wrote_last_element_so_far UncompressedSize PositionOffsetSize block_length
      params' b.
Proof.
  intros Hab. unfold this_thread_wrote_last_element_so_far.
  now rewrite same_truncated, Hab.
Qed.

Lemma same_num_slack_elements :
  num_slack_elements UncompressedSize PositionOffsetSize params'
  = num_slack_elements UncompressedSize PositionOffsetSize params.
Proof. unfold num_slack_elements. now rewrite same_truncated, Hsame_length. Qed.

(** Which lanes write a slack element is a matter of the positions. *)
Lemma rederive_flags_same (first_thread_of_warp : Z) (lanes lanes' : list lane_registers) :
  map rel_of lanes = map rel_of lanes' ->
  map snd (rederive_first_possible_run UncompressedSize PositionOffsetSize block_length
             params first_thread_of_warp lanes)
  = map snd (rederive_first_possible_run UncompressedSize PositionOffsetSize block_length
               params' first_thread_of_warp lanes').
Proof.
  intros Hpos.
  assert (Hlen : length lanes = length lanes').
  { apply (f_equal (@length Z)) in Hpos. now rewrite !length_map in Hpos. }
  assert (Hstay : map snd (map (fun regs : lane_registers => (regs, false)) lanes)
                  = map snd (map (fun regs : lane_registers => (regs, false)) lanes')).
  { rewrite !map_map. cbn [snd]. apply map_of_positions; [reflexivity|assumption]. }
  assert (Hindexed : forall (h h' : Z * lane_registers -> lane_registers * bool)
                            (flag : Z -> bool),
            (forall lr, snd (h lr) = flag (fst lr)) ->
            (forall lr, snd (h' lr) = flag (fst lr)) ->
            map snd (map h (combine (zseq 0 (length lanes)) lanes))
            = map snd (map h' (combine (zseq 0 (length lanes')) lanes'))).
  { intros h h' flag Hh Hh'. rewrite !map_map.
    rewrite (map_ext _ (fun lr => flag (fst lr)) Hh).
    rewrite (map_ext _ (fun lr => flag (fst lr)) Hh').
    rewrite <- !(map_map fst flag).
    rewrite !map_fst_combine by now rewrite zseq_length.
    now rewrite Hlen. }
  unfold rederive_first_possible_run.
  rewrite same_num_slack_elements, same_truncated.
  rewrite <- (map_of_positions _ _ lanes lanes' same_wrote_last Hpos).
  destruct (elements_per_thread_write UncompressedSize >? 1); [|exact Hstay].
  destruct (num_slack_elements UncompressedSize PositionOffsetSize params =? 0);
    [exact Hstay|].
  destruct (truncated_decompressed_length UncompressedSize params =? 0).
  - apply (Hindexed _ _
             (fun lane => negb (first_thread_of_warp + lane
                                >=? num_slack_elements UncompressedSize PositionOffsetSize
                                      params)));
      intros [lane regs]; cbn [fst];
      destruct (first_thread_of_warp + lane >=? _); reflexivity.
  - cbv zeta. destruct (builtins.all_in_warp_satisfy _); [exact Hstay|].
    apply (Hindexed _ _
             (fun lane => negb (lane >=? num_slack_elements UncompressedSize
                                           PositionOffsetSize params)));
      intros [lane regs]; reflexivity.
Qed.

Lemma slack_writes_same (first_thread_of_warp : Z) (lanes lanes' : list lane_registers) :
  map rel_of lanes = map rel_of lanes' ->
  map w_pos (slack_writes_of run_start_positions run_data params first_thread_of_warp lanes)
  = map w_pos (slack_writes_of run_start_positions' run_data' params'
                 first_thread_of_warp lanes').
Proof.
  intros Hpos.
  assert (Hlen : length lanes = length lanes').
  { apply (f_equal (@length Z)) in Hpos. now rewrite !length_map in Hpos. }
  set (position_of := fun lane : Z =>
         wrap (Z.max (position_offset_bits PositionOffsetSize) (index_bits IndexSize))
           (truncated_decompressed_length UncompressedSize params + lane
            + segment_offset PositionsAreRelative params)).
  assert (Hshape : forall tables values prm (rederived : list (lane_registers * bool)),
            truncated_decompressed_length UncompressedSize prm
            = truncated_decompressed_length UncompressedSize params ->
            segment_offset PositionsAreRelative prm
            = segment_offset PositionsAreRelative params ->
            map w_pos
              (flat_map (fun lr : Z * (lane_registers * bool) =>
                           if snd (snd lr)
                           then [slack_write IndexSize UncompressedSize PositionOffsetSize
                                   PositionsAreRelative tables values prm
                                   (fst lr) (fst (snd lr))]
                           else [])
                        (combine (zseq 0 (length lanes)) rederived))
            = flat_map (fun lf : Z * bool => if snd lf then [position_of (fst lf)] else [])
                       (combine (zseq 0 (length lanes)) (map snd rederived))).
  { intros tables values prm rederived HT Hoff.
    rewrite map_flat_map, combine_map_snd, flat_map_map. apply flat_map_agree.
    intros [lane [regs flag]] _. cbn [fst snd].
    destruct flag; [|reflexivity].
    unfold slack_write, position_of. cbn [map w_pos]. now rewrite HT, Hoff. }
  unfold slack_writes. rewrite <- Hlen.
  rewrite (Hshape run_start_positions run_data params) by reflexivity.
  rewrite (Hshape run_start_positions' run_data' params') by (apply same_truncated || apply same_offset).
  now rewrite (rederive_flags_same first_thread_of_warp lanes lanes' Hpos).
Qed.

Lemma full_warp (w : Z) :
  0 <= w < warps_in_block ->
  length (map (initial_registers UncompressedSize PositionOffsetSize warp_size w)
              (warp_lanes warp_size block_length w)) = Z.to_nat warp_size.
Proof.
  intros Hw. rewrite length_map. unfold warp_lanes. rewrite zseq_length.
  destruct Hblock as [Hnw HB].
  assert ((w + 1) * warp_size <= warps_in_block * warp_size)
    by (apply Z.mul_le_mono_nonneg_r; lia).
  lia.
Qed.

Lemma decompress_warp_same (w : Z) :
  0 <= w < warps_in_block ->
  option_map (map w_pos) (decompress_warp_of run_start_positions run_data params w)
  = option_map (map w_pos) (decompress_warp_of run_start_positions' run_data' params' w).
Proof.
  intros Hw. unfold decompress_warp, main_loop_fuel. rewrite same_truncated.
  set (start := map (initial_registers UncompressedSize PositionOffsetSize warp_size w)
                    (warp_lanes warp_size block_length w)).
  pose proof (main_loop_same
                (Z.to_nat (truncated_decompressed_length UncompressedSize params))
                start start eq_refl) as Hloop.
  specialize (Hloop ltac:(subst start; rewrite (full_warp w Hw); lia)).
  destruct (main_loop_of run_start_positions run_data params _ start) as [[final ws]|],
           (main_loop_of run_start_positions' run_data' params' _ start)
             as [[final' ws']|];
    try contradiction; [|reflexivity].
  destruct Hloop as [Hfinal Hws]. cbn [option_map]. rewrite !map_app.
  now rewrite Hws, (slack_writes_same (w * warp_size) final final' Hfinal).
Qed.

(** The positions a block writes do not depend on the run tables. *)
Lemma decompress_segment_same :
  option_map (map w_pos)
    (decompress_segment IndexSize UncompressedSize PositionOffsetSize PositionsAreRelative
       warp_size block_length decompressed_at run_start_positions run_data params)
  = option_map (map w_pos)
      (decompress_segment IndexSize UncompressedSize PositionOffsetSize
         PositionsAreRelative warp_size block_length decompressed_at
         run_start_positions' run_data' params').
Proof.
  unfold decompress_segment, decompress_a_segment_with_few_runs.
  assert (Hwarps : num_warps warp_size block_length = warps_in_block).
  { unfold num_warps. destruct Hblock as [Hnw HB].
    symmetry. apply (Z.div_unique _ _ warps_in_block (warp_size - 1)); lia. }
  rewrite Hwarps.
  pose proof (sequence_of_positions
                (decompress_warp_of run_start_positions run_data params)
                (decompress_warp_of run_start_positions' run_data' params')
                (zseq 0 (Z.to_nat warps_in_block))) as Hsequence.
  specialize (Hsequence (fun w Hw =>
                decompress_warp_same w
                  ltac:(apply in_zseq in Hw; [lia|lia]))).
  destruct (sequence (map (decompress_warp_of run_start_positions run_data params) _)),
           (sequence (map (decompress_warp_of run_start_positions' run_data' params') _));
    cbn [option_map] in *; congruence.
Qed.

End SamePositions.

Section SegmentPositions.
Variables IndexSize UncompressedSize PositionOffsetSize : Z.
Variable PositionsAreRelative : bool.
Variables warp_size block_length warps_in_block decompressed_at : Z.
Variables run_start_positions run_data : list Z.
Variable params : segment_decompression_params_t.

Local Notation epw := (elements_per_thread_write UncompressedSize).
Local Notation dl := (decompressed_length params).
Local Notation off := (segment_offset PositionsAreRelative params).

Hypothesis Hsize :
  UncompressedSize = 1 \/ UncompressedSize = 2 \/ UncompressedSize = 4 \/ UncompressedSize = 8.
Hypothesis Hib : 32 <= index_bits IndexSize.
Hypothesis Hpb : 32 <= position_offset_bits PositionOffsetSize.
Hypothesis Hwarp : epw <= warp_size <= 32.
Hypothesis Hblock : 0 < warps_in_block /\ block_length = warps_in_block * warp_size.
Hypothesis Hstride : block_length * epw < 2 ^ 32.
Hypothesis Hdl : 0 <= dl.
Hypothesis Hoff : 0 <= off.
Hypothesis Hfit : off + dl + block_length * epw < 2 ^ position_offset_bits PositionOffsetSize.
Hypothesis Hstart_aligned : (decompressed_at + off) mod epw = 0.
Hypothesis Hshuffles :
  shuffles_include_the_last_lane UncompressedSize warp_size block_length dl.

(** Whatever the run tables and the number of runs, the block returns and
    writes every position of its segment once. *)
Lemma decompress_segment_positions :
  exists tr,
    decompress_segment IndexSize UncompressedSize PositionOffsetSize PositionsAreRelative
      warp_size block_length decompressed_at run_start_positions run_data params = Some tr
    /\ Permutation (map w_pos tr) (zseq off (Z.to_nat dl)).
Proof.
  set (one_run := mk_params 0 1 (uncompressed_start_position params) dl).
  assert (Hcover : tables_cover_segment PositionsAreRelative [] [] one_run
                     (fun _ => 0) (fun _ => 0)).
  { intros q Hq. cbn [num_runs one_run].
    split; [lia|]. split; [intros j Hj; lia|]. split; [intros j Hj; lia|reflexivity]. }
  assert (Hone : num_runs one_run < 2 ^ index_bits IndexSize).
  { cbn [num_runs one_run].
    assert (2 ^ 32 <= 2 ^ index_bits IndexSize) by (apply pow2_le_mono; lia). lia. }
  destruct (decompress_segment_spec IndexSize UncompressedSize PositionOffsetSize
              PositionsAreRelative warp_size block_length warps_in_block decompressed_at
              [] [] one_run (fun _ => 0) (fun _ => 0)
              Hsize Hib Hpb Hwarp Hblock Hstride Hdl Hoff Hfit Hone Hcover
              Hstart_aligned Hshuffles)
    as (tr' & Hsome & Hin & Hnodup).
  assert (HW : 0 < warp_size).
  { pose proof (epw_cases UncompressedSize Hsize). lia. }
  pose proof (decompress_segment_same IndexSize UncompressedSize PositionOffsetSize
                PositionsAreRelative warp_size block_length warps_in_block decompressed_at
                run_start_positions run_data [] [] params one_run HW Hblock
                eq_refl eq_refl) as Hsame.
  rewrite Hsome in Hsame.
  destruct (decompress_segment _ _ _ _ _ _ _ run_start_positions run_data params)
    as [tr|]; [|discriminate].
  exists tr. split; [reflexivity|].
  cbn [option_map] in Hsame. injection Hsame as ->.
  apply (positions_permutation tr' (fun _ => 0)); try assumption.
  intros wr. rewrite Hin. cbn [decompressed_length one_run].
  unfold expected_write.
  change (segment_offset PositionsAreRelative one_run) with off.
  split.
  - intros (q & Hq & ->). exists (off + q). split; [lia|reflexivity].
  - intros (p & Hp & ->). exists (p - off). split; [lia|]. f_equal. lia.
Qed.

End SegmentPositions.

(** ** The kernel on the tables of the compressor *)

Section GridFacts.
Variables IndexSize UncompressedSize PositionOffsetSize : Z.
Variable PositionsAreRelative : bool.
Variables warp_size block_length warps_in_block : Z.
Variable runs : list (Z * Z).
Variable anchoring_period : Z.

Local Notation epw := (elements_per_thread_write UncompressedSize).
Local Notation starts := (run_starts 0 (map snd runs)).
Local Notation table := (run_start_positions_of PositionsAreRelative runs anchoring_period).
Local Notation values := (map fst runs).
Local Notation anchors := (position_anchors_of runs anchoring_period).
Local Notation total := (uncompressed_length_of runs).
Local Notation num_anchors := (num_anchors_of runs anchoring_period).
Local Notation num_element_runs := (Z.of_nat (length runs)).
Local Notation covering_of p := (covering_run starts p).
Local Notation resolved g :=
  (resolve_segment_decompression_params IndexSize PositionOffsetSize table anchors
     anchoring_period num_anchors num_element_runs total g).

Hypothesis Hsize :
  UncompressedSize = 1 \/ UncompressedSize = 2 \/ UncompressedSize = 4 \/ UncompressedSize = 8.
Hypothesis Hidx : 4 <= IndexSize <= PositionOffsetSize.
Hypothesis Hwarp : epw <= warp_size <= 32.
Hypothesis Hblock : 0 < warps_in_block /\ block_length = warps_in_block * warp_size.
Hypothesis Hstride : block_length * epw < 2 ^ 32.
Hypothesis Hperiod : 1 <= anchoring_period < 2 ^ (8 * IndexSize).
Hypothesis Hruns : forall r, In r runs -> 1 <= snd r.
Hypothesis Hfit : total + block_length * epw < 2 ^ (8 * IndexSize).
Hypothesis Hanchors : num_anchors < 2 ^ 32.

Lemma widths : 2 ^ 32 <= 2 ^ (8 * IndexSize) <= 2 ^ (8 * PositionOffsetSize).
Proof. split; apply pow2_le_mono; lia. Qed.

Lemma stride_nonneg : 0 <= block_length * epw.
Proof.
  destruct (epw_cases UncompressedSize Hsize) as [He|[He|He]]; rewrite He in *;
    destruct Hblock as [Hnw HB]; lia.
Qed.

Lemma total_nonneg : 0 <= total /\ num_element_runs <= total.
Proof.
  clear - Hruns. induction runs as [|r rest IH]; [cbn; lia|].
  rewrite uncompressed_length_cons.
  assert (1 <= snd r) by (apply Hruns; now left).
  destruct IH as [IH1 IH2]; [intros r' Hr'; apply Hruns; now right|].
  cbn [length]. lia.
Qed.

Lemma covering_spec (p : Z) :
  0 <= p < total ->
  0 <= covering_of p < num_element_runs
  /\ (forall j, 0 <= j <= covering_of p -> zth starts j <= p)
  /\ (forall j, covering_of p < j < num_element_runs -> p < zth starts j).
Proof.
  intros Hp.
  pose proof (covering_run_spec (map snd runs) 0 p) as Hspec.
  rewrite length_map in Hspec. apply Hspec.
  - intros len Hin. apply in_map_iff in Hin as (r & <- & Hr). now apply Hruns.
  - unfold uncompressed_length_of in Hp. lia.
Qed.

Lemma covering_of_monotone (p p' : Z) :
  0 <= p -> p <= p' -> p' < total -> covering_of p <= covering_of p'.
Proof.
  intros Hp Hle Hp'.
  destruct (covering_spec p ltac:(lia)) as (Hc & Hbelow & _).
  destruct (covering_spec p' ltac:(lia)) as (Hc' & _ & Habove).
  destruct (Z_le_gt_dec (covering_of p) (covering_of p')) as [|Hgt]; [assumption|].
  specialize (Hbelow (covering_of p)). specialize (Habove (covering_of p)). lia.
Qed.

Lemma anchor_facts (g : Z) :
  0 <= g < num_anchors ->
  g * anchoring_period < total
  /\ (g + 1 <> num_anchors -> (g + 1) * anchoring_period < total)
  /\ total <= num_anchors * anchoring_period.
Proof.
  intros Hg. unfold num_anchors_of, div_rounding_up in *.
  pose proof (Z.div_mod (total + anchoring_period - 1) anchoring_period ltac:(lia)) as Hdiv.
  pose proof (Z.mod_pos_bound (total + anchoring_period - 1) anchoring_period ltac:(lia))
    as Hmod.
  set (count := (total + anchoring_period - 1) / anchoring_period) in *.
  set (rest := (total + anchoring_period - 1) mod anchoring_period) in *.
  assert (g * anchoring_period <= (count - 1) * anchoring_period) by (apply Z.mul_le_mono_nonneg_r; lia).
  split; [lia|]. split; [|lia].
  intros Hinner.
  assert ((g + 1) * anchoring_period <= (count - 1) * anchoring_period) by (apply Z.mul_le_mono_nonneg_r; lia).
  lia.
Qed.

Lemma anchor_value (k : Z) :
  0 <= k < num_anchors -> zth anchors k = covering_of (k * anchoring_period).
Proof.
  intros Hk. unfold position_anchors_of.
  rewrite zth_map_zseq by lia. reflexivity.
Qed.

Local Notation segment_length g := (segment_length_of runs anchoring_period g).

Lemma segment_length_bounds (g : Z) :
  0 <= g < num_anchors ->
  1 <= segment_length g <= anchoring_period
  /\ g * anchoring_period + segment_length g <= total.
Proof.
  intros Hg. destruct (anchor_facts g Hg) as (Hstart & Hinner & Htotal).
  unfold segment_length_of. destruct (Z.eqb_spec (g + 1) num_anchors) as [Hlast|Hnot].
  - rewrite <- Hlast in Htotal. lia.
  - specialize (Hinner Hnot). lia.
Qed.

(** An entry of the table of run start positions: the start of the run, or
    its offset within the segment it starts in. *)
Lemma table_at (j : Z) :
  0 <= j < num_element_runs ->
  zth table j
  = if PositionsAreRelative then zth starts j mod anchoring_period else zth starts j.
Proof.
  intros Hj. unfold run_start_positions_of, relative_run_starts.
  destruct PositionsAreRelative; [|reflexivity].
  unfold zth.
  apply (nth_map_in_range (fun s => s mod anchoring_period) starts (Z.to_nat j) 0 0).
  rewrite run_starts_length, length_map. lia.
Qed.

(** A run which starts within a segment has, as its offset, the distance of
    its start from the start of the segment. *)
Lemma offset_in_segment (g s : Z) :
  g * anchoring_period <= s < (g + 1) * anchoring_period ->
  s mod anchoring_period = s - g * anchoring_period.
Proof.
  intros Hs. symmetry.
  apply (Z.mod_unique s anchoring_period g); lia.
Qed.

Lemma resolved_fields (g : Z) :
  0 <= g < num_anchors ->
  let first := covering_of (g * anchoring_period) in
  uncompressed_start_position (resolved g) = g * anchoring_period
  /\ decompressed_length (resolved g) = segment_length g
  /\ first_run_index (resolved g) = first
  /\ 0 <= first
  /\ first + num_runs (resolved g) <= num_element_runs
  /\ (forall p, g * anchoring_period <= p < g * anchoring_period + segment_length g ->
                covering_of p < first + num_runs (resolved g))
  /\ (g + 1 <> num_anchors ->
      first + num_runs (resolved g) <= covering_of ((g + 1) * anchoring_period) + 1).
Proof.
  intros Hg first.
  pose proof widths as [Hw32 Hwpb]. pose proof total_nonneg as [Htot Hcount].
  pose proof stride_nonneg as Hs.
  destruct (anchor_facts g Hg) as (Hstart & Hinner & Htotal).
  destruct (segment_length_bounds g Hg) as (Hlen & Hend).
  assert (Hg32 : g + 1 < 2 ^ 32) by lia.
  assert (Hp : 0 <= anchoring_period < 2 ^ (8 * PositionOffsetSize)) by lia.
  assert (Hst : g * anchoring_period < 2 ^ (8 * IndexSize)) by lia.
  assert (Hg0 : 0 <= g * anchoring_period) by (apply Z.mul_nonneg_nonneg; lia).
  destruct (covering_spec (g * anchoring_period) ltac:(lia)) as (Hfirst & _).
  fold first in Hfirst.
  assert (Hthis : zth anchors g = first) by (now apply anchor_value).
  split; [apply resolved_start; lia|].
  split.
  { unfold segment_length_of in *.
    destruct (Z.eqb_spec (g + 1) num_anchors) as [Hlast|Hnot].
    - apply resolved_length_last; lia.
    - apply resolved_length_inner; lia. }
  split; [assumption|]. split; [lia|].
  unfold segment_length_of in *.
  destruct (Z.eqb_spec (g + 1) num_anchors) as [Hlast|Hnot].
  - rewrite resolved_num_runs_last by (rewrite ?Hthis; lia).
    rewrite Hthis. split; [lia|]. split; [|intros Hne; contradiction].
    intros p Hp'. destruct (covering_spec p ltac:(lia)) as (Hc & _). lia.
  - specialize (Hinner Hnot).
    assert (Hnext : zth anchors (g + 1) = covering_of ((g + 1) * anchoring_period))
      by (apply anchor_value; lia).
    destruct (covering_spec ((g + 1) * anchoring_period) ltac:(lia)) as (Hcn & Hbelow & _).
    pose proof (covering_of_monotone (g * anchoring_period) ((g + 1) * anchoring_period)
                  ltac:(lia) ltac:(lia) ltac:(lia)) as Hmono.
    fold first in Hmono.
    rewrite resolved_num_runs_inner by (rewrite ?Hthis, ?Hnext; lia).
    rewrite Hthis, Hnext.
    set (next := covering_of ((g + 1) * anchoring_period)) in *.
    split; [|split].
    + destruct (zth table next <? (g + 1) * anchoring_period); lia.
    + intros p Hp'.
      pose proof (covering_of_monotone p ((g + 1) * anchoring_period)
                    ltac:(lia) ltac:(lia) ltac:(lia)) as Hmono'.
      fold next in Hmono'.
      destruct (Z.ltb_spec (zth table next) ((g + 1) * anchoring_period)) as [Hlt|Hge];
        [lia|].
      rewrite table_at in Hge by lia.
      destruct PositionsAreRelative.
      * pose proof (Z.mod_pos_bound (zth starts next) anchoring_period ltac:(lia)). lia.
      * destruct (Z.eq_dec (covering_of p) next) as [Heq|Hne]; [|lia].
        destruct (covering_spec p ltac:(lia)) as (_ & Hbelow' & _).
        specialize (Hbelow' next). rewrite Heq in Hbelow'. lia.
    + intros _. destruct (zth table next <? (g + 1) * anchoring_period); lia.
Qed.

Local Notation array := (expand runs).

Lemma block_of_position (p : Z) :
  0 <= p < total ->
  0 <= p / anchoring_period < num_anchors
  /\ p / anchoring_period * anchoring_period <= p
       < p / anchoring_period * anchoring_period + segment_length (p / anchoring_period).
Proof.
  intros Hp.
  pose proof (position_in_chunk anchoring_period p ltac:(lia)) as Hchunk.
  assert (Hblock' : 0 <= p / anchoring_period < num_anchors).
  { split; [apply Z.div_pos; lia|].
    assert (Hlast : 0 <= num_anchors - 1 < num_anchors \/ num_anchors <= 0) by lia.
    destruct Hlast as [Hlast|Hnone].
    - destruct (anchor_facts _ Hlast) as (_ & _ & Htotal).
      apply Z.div_lt_upper_bound; lia.
    - exfalso. unfold num_anchors_of, div_rounding_up in Hnone.
      assert (1 <= (total + anchoring_period - 1) / anchoring_period)
        by (apply Z.div_le_lower_bound; lia).
      lia. }
  split; [assumption|].
  unfold segment_length_of.
  destruct (Z.eqb_spec (p / anchoring_period + 1) num_anchors); lia.
Qed.

Local Notation decompress_block_of :=
  (decompress_block IndexSize UncompressedSize PositionOffsetSize PositionsAreRelative
     warp_size block_length values table anchors anchoring_period num_anchors
     num_element_runs total).

Local Notation writes_of_block :=
  (fun g => match decompress_block_of g with
            | Some tr => tr
            | None => []
            end).

(** From here on every segment starts at a multiple of the elements of a
    thread write, and in every segment the last lane of a warp has a
    further write whenever another lane of the warp has. *)
Hypothesis Hstarts_aligned :
  forall g, 0 <= g < num_anchors -> (g * anchoring_period) mod epw = 0.
Hypothesis Hshuffles :
  forall g, 0 <= g < num_anchors ->
    shuffles_include_the_last_lane UncompressedSize warp_size block_length
      (segment_length g).

(** Block [g] returns, having written each position of its segment once. *)
Lemma block_positions (g : Z) :
  0 <= g < num_anchors ->
  decompress_block_of g = Some (writes_of_block g)
  /\ Permutation (map w_pos (writes_of_block g))
       (zseq (g * anchoring_period) (Z.to_nat (segment_length g))).
Proof.
  intros Hg.
  pose proof widths as [Hw32 Hwpb]. pose proof total_nonneg as [Htot Hcount].
  pose proof stride_nonneg as Hs.
  destruct (resolved_fields g Hg) as (Hst & Hdl & _).
  destruct (segment_length_bounds g Hg) as (Hlen & Hend).
  destruct (anchor_facts g Hg) as (Hstart & _).
  assert (Hg0 : 0 <= g * anchoring_period) by (apply Z.mul_nonneg_nonneg; lia).
  set (decompressed_offset :=
         if PositionsAreRelative then uncompressed_start_position (resolved g) else 0).
  assert (Hwhere : decompressed_offset + segment_offset PositionsAreRelative (resolved g)
                   = g * anchoring_period).
  { subst decompressed_offset. unfold segment_offset.
    destruct PositionsAreRelative; lia. }
  assert (Hoffset : 0 <= decompressed_offset
                    /\ 0 <= segment_offset PositionsAreRelative (resolved g)).
  { subst decompressed_offset. unfold segment_offset.
    destruct PositionsAreRelative; lia. }
  destruct (decompress_segment_positions IndexSize UncompressedSize PositionOffsetSize
              PositionsAreRelative warp_size block_length warps_in_block
              decompressed_offset
              (offset_ptr table (first_run_index (resolved g)))
              (offset_ptr values (first_run_index (resolved g)))
              (resolved g))
    as (tr & Hsome & Hperm);
    try assumption;
    try (unfold index_bits, position_offset_bits, segment_offset; rewrite ?Hst, ?Hdl;
         destruct PositionsAreRelative; lia).
  { rewrite Hwhere. now apply Hstarts_aligned. }
  { rewrite Hdl. now apply Hshuffles. }
  unfold decompress_block. fold decompressed_offset. rewrite Hsome. cbn [option_map].
  split; [reflexivity|].
  rewrite map_map. cbn [w_pos].
  rewrite <- (map_map w_pos (Z.add decompressed_offset)).
  rewrite (Permutation_map (Z.add decompressed_offset) Hperm).
  rewrite Hdl.
  rewrite (zseq_shift (segment_offset PositionsAreRelative (resolved g))) by lia.
  rewrite (zseq_shift (g * anchoring_period)) by lia.
  rewrite map_map. rewrite <- Hwhere.
  erewrite map_ext; [reflexivity|]. intros q. cbv beta. lia.
Qed.

Lemma decompress_grid_returns :
  decompress IndexSize UncompressedSize PositionOffsetSize PositionsAreRelative
    warp_size block_length
    values table anchors anchoring_period num_anchors num_element_runs total num_anchors
  = Some (map writes_of_block (zseq 0 (Z.to_nat num_anchors))).
Proof.
  unfold decompress. apply sequence_map_some.
  intros g Hg. apply in_zseq in Hg; [|lia]. apply block_positions. lia.
Qed.

(** The blocks together write each position of the array once. *)
Lemma grid_positions :
  Permutation (map w_pos (flat_map writes_of_block (zseq 0 (Z.to_nat num_anchors))))
    (zseq 0 (Z.to_nat total)).
Proof.
  pose proof total_nonneg as [Htot _].
  assert (Hblockpos : forall g p, 0 <= g < num_anchors ->
            In p (map w_pos (writes_of_block g))
            <-> g * anchoring_period <= p < g * anchoring_period + segment_length g).
  { intros g p Hg. destruct (block_positions g Hg) as (_ & Hperm).
    destruct (segment_length_bounds g Hg) as (Hlen & _).
    assert (Hg0 : 0 <= g * anchoring_period) by (apply Z.mul_nonneg_nonneg; lia).
    split.
    - intros Hin. apply (Permutation_in _ Hperm) in Hin.
      apply in_zseq in Hin; lia.
    - intros Hp. apply (Permutation_in _ (Permutation_sym Hperm)).
      apply in_zseq; lia. }
  apply NoDup_Permutation; [|apply NoDup_zseq|].
  - rewrite map_flat_map.
    apply (NoDup_flat_map_keyed _ (fun p => p / anchoring_period)).
    + apply NoDup_zseq.
    + intros g Hg. apply in_zseq in Hg; [|lia].
      destruct (block_positions g ltac:(lia)) as (_ & Hperm).
      apply (Permutation_NoDup (Permutation_sym Hperm)), NoDup_zseq.
    + intros g p Hg Hp. apply in_zseq in Hg; [|lia].
      assert (Hg' : 0 <= g < num_anchors) by lia.
      apply (Hblockpos g p Hg') in Hp.
      destruct (segment_length_bounds g Hg') as (Hlen & _).
      symmetry. apply (Z.div_unique p anchoring_period g (p - g * anchoring_period)); lia.
  - intros p. rewrite map_flat_map, in_flat_map, in_zseq by lia. split.
    + intros (g & Hg & Hp). apply in_zseq in Hg; [|lia].
      assert (Hg' : 0 <= g < num_anchors) by lia.
      apply (Hblockpos g p Hg') in Hp.
      destruct (segment_length_bounds g Hg') as (_ & Hend).
      assert (Hg0 : 0 <= g * anchoring_period) by (apply Z.mul_nonneg_nonneg; lia).
      lia.
    + intros Hp. destruct (block_of_position p ltac:(lia)) as (Hg & Hseg).
      exists (p / anchoring_period). split; [apply in_zseq; lia|].
      now apply Hblockpos.
Qed.

(** From here on, with segment-relative positions, no run starts where a
    segment other than the first starts. *)
Hypothesis Hboundary :
  PositionsAreRelative = true ->
  forall g, 0 < g < num_anchors -> ~ In (g * anchoring_period) starts.

Lemma segment_tables_cover (g : Z) :
  0 <= g < num_anchors ->
  tables_cover_segment PositionsAreRelative
    (offset_ptr table (first_run_index (resolved g)))
    (offset_ptr values (first_run_index (resolved g)))
    (resolved g)
    (fun q => covering_of (g * anchoring_period + q) - covering_of (g * anchoring_period))
    (fun q => zth array (g * anchoring_period + q)).
Proof.
  intros Hg.
  destruct (resolved_fields g Hg)
    as (Hst & Hdl & Hfirst & Hfirst0 & Hlast & Hwithin & Hupto).
  destruct (segment_length_bounds g Hg) as (Hlen & Hend).
  destruct (anchor_facts g Hg) as (Hstart & Hinner & Htotal).
  assert (Hg0 : 0 <= g * anchoring_period) by (apply Z.mul_nonneg_nonneg; lia).
  unfold tables_cover_segment, segment_offset. rewrite Hst, Hdl, Hfirst.
  set (first := covering_of (g * anchoring_period)) in *.
  intros q Hq.
  destruct (covering_spec (g * anchoring_period + q) ltac:(lia)) as (Hc & Hbelow & Habove).
  destruct (covering_spec (g * anchoring_period) ltac:(lia)) as (_ & _ & Hafter).
  fold first in Hafter.
  pose proof (covering_of_monotone (g * anchoring_period) (g * anchoring_period + q)
                ltac:(lia) ltac:(lia) ltac:(lia)) as Hmono.
  fold first in Hmono.
  specialize (Hwithin (g * anchoring_period + q) ltac:(lia)).
  split; [lia|]. split; [|split].
  - intros j Hj. rewrite zth_offset_ptr, table_at by lia.
    specialize (Hbelow (first + j) ltac:(lia)).
    specialize (Hafter (first + j) ltac:(lia)).
    destruct PositionsAreRelative; [|lia].
    rewrite (offset_in_segment g) by lia. lia.
  - intros j Hj. rewrite zth_offset_ptr, table_at by lia.
    specialize (Habove (first + j) ltac:(lia)).
    destruct PositionsAreRelative eqn:Hrelative; [|lia].
    assert (Hin : In (zth starts (first + j)) starts)
      by (apply zth_in; rewrite run_starts_length, length_map; lia).
    assert (Hstarts : zth starts (first + j) < (g + 1) * anchoring_period).
    { destruct (Z.eq_dec (g + 1) num_anchors) as [Hlastseg|Hnot].
      - pose proof (run_starts_below_total runs 0 _ Hruns Hin) as Hrun.
        rewrite <- Hlastseg in Htotal. lia.
      - specialize (Hinner Hnot). specialize (Hupto Hnot).
        destruct (covering_spec ((g + 1) * anchoring_period) ltac:(lia)) as (Hcn & Hbn & _).
        specialize (Hbn (first + j) ltac:(lia)).
        destruct (Z.eq_dec (zth starts (first + j)) ((g + 1) * anchoring_period))
          as [Heq|Hne]; [|lia].
        exfalso. apply (Hboundary eq_refl (g + 1)); [lia|].
        now rewrite <- Heq. }
    rewrite (offset_in_segment g) by lia. lia.
  - rewrite zth_offset_ptr by lia.
    replace (first + (covering_of (g * anchoring_period + q) - first))
      with (covering_of (g * anchoring_period + q)) by lia.
    pose proof (expand_covering runs 0 (g * anchoring_period + q) Hruns ltac:(lia)) as Hval.
    rewrite Z.sub_0_r in Hval. now rewrite Hval.
Qed.

(** Block [g] writes each position of its segment once, with the element of
    the array. *)
Lemma decompress_block_spec (g : Z) :
  0 <= g < num_anchors ->
  exists tr,
    decompress_block_of g = Some tr
    /\ (forall wr, In wr tr <->
                   exists p, g * anchoring_period <= p
                                < g * anchoring_period + segment_length g
                             /\ wr = mk_write p (zth array p))
    /\ NoDup (map w_pos tr).
Proof.
  intros Hg.
  pose proof widths as [Hw32 Hwpb]. pose proof total_nonneg as [Htot Hcount].
  pose proof stride_nonneg as Hs.
  destruct (resolved_fields g Hg)
    as (Hst & Hdl & Hfirst & Hfirst0 & Hlast & Hwithin & _).
  destruct (segment_length_bounds g Hg) as (Hlen & Hend).
  destruct (anchor_facts g Hg) as (Hstart & _).
  assert (Hg0 : 0 <= g * anchoring_period) by (apply Z.mul_nonneg_nonneg; lia).
  set (decompressed_offset :=
         if PositionsAreRelative then uncompressed_start_position (resolved g) else 0).
  assert (Hwhere : decompressed_offset + segment_offset PositionsAreRelative (resolved g)
                   = g * anchoring_period).
  { subst decompressed_offset. unfold segment_offset.
    destruct PositionsAreRelative; lia. }
  destruct (decompress_segment_spec IndexSize UncompressedSize PositionOffsetSize
              PositionsAreRelative warp_size block_length warps_in_block
              decompressed_offset
              (offset_ptr table (first_run_index (resolved g)))
              (offset_ptr values (first_run_index (resolved g)))
              (resolved g)
              (fun q => covering_of (g * anchoring_period + q)
                        - covering_of (g * anchoring_period))
              (fun q => zth array (g * anchoring_period + q)))
    as (tr & Hsome & Hin & Hnodup);
    try assumption;
    try (unfold index_bits, position_offset_bits, segment_offset; rewrite ?Hst, ?Hdl;
         destruct PositionsAreRelative; lia).
  { now apply segment_tables_cover. }
  { rewrite Hwhere. now apply Hstarts_aligned. }
  { rewrite Hdl. now apply Hshuffles. }
  exists (map (fun w => mk_write (decompressed_offset + w_pos w) (w_val w)) tr).
  split; [|split].
  - unfold decompress_block. fold decompressed_offset. now rewrite Hsome.
  - intros wr. rewrite in_map_iff. split.
    + intros (wr' & <- & Hwr'). apply Hin in Hwr' as (q & Hq & ->).
      rewrite Hdl in Hq. exists (g * anchoring_period + q). split; [lia|].
      unfold expected_write. cbn [w_pos w_val]. f_equal. lia.
    + intros (p' & Hp' & ->).
      exists (expected_write PositionsAreRelative (resolved g)
                (fun q => zth array (g * anchoring_period + q)) (p' - g * anchoring_period)).
      split.
      * unfold expected_write. cbn [w_pos w_val]. f_equal; [lia|f_equal; lia].
      * apply Hin. exists (p' - g * anchoring_period). split; [rewrite Hdl; lia|reflexivity].
  - rewrite map_map. cbn [w_pos].
    rewrite <- (map_map w_pos (fun p' => decompressed_offset + p')).
    apply Finite.Injective_map_NoDup; [|assumption].
    intros a b Hab. lia.
Qed.

Lemma writes_of_block_spec (g : Z) :
  0 <= g < num_anchors ->
  decompress_block_of g = Some (writes_of_block g)
  /\ (forall wr, In wr (writes_of_block g) <->
                 exists p, g * anchoring_period <= p
                              < g * anchoring_period + segment_length g
                           /\ wr = mk_write p (zth array p))
  /\ NoDup (map w_pos (writes_of_block g)).
Proof.
  intros Hg. destruct (decompress_block_spec g Hg) as (tr & Heq & Hin & Hnodup).
  cbv beta. rewrite Heq. auto.
Qed.

Lemma in_grid_writes (wr : write) :
  In wr (flat_map writes_of_block (zseq 0 (Z.to_nat num_anchors)))
  <-> exists p, 0 <= p < 0 + total /\ wr = mk_write p (zth array p).
Proof.
  rewrite in_flat_map. split.
  - intros (g & Hg & Hwr). apply in_zseq in Hg; [|lia].
    assert (Hg' : 0 <= g < num_anchors) by lia.
    apply (proj1 (proj2 (writes_of_block_spec g Hg'))) in Hwr as (p & Hp & ->).
    destruct (segment_length_bounds g Hg') as (_ & Hend).
    exists p. split; [|reflexivity]. lia.
  - intros (p & Hp & ->).
    destruct (block_of_position p ltac:(lia)) as (Hg & Hseg).
    exists (p / anchoring_period). split; [apply in_zseq; lia|].
    apply (proj1 (proj2 (writes_of_block_spec _ Hg))). exists p. auto.
Qed.

Lemma NoDup_grid_writes :
  NoDup (map w_pos (flat_map writes_of_block (zseq 0 (Z.to_nat num_anchors)))).
Proof.
  rewrite map_flat_map.
  apply (NoDup_flat_map_keyed _ (fun p => p / anchoring_period)).
  - apply NoDup_zseq.
  - intros g Hg. apply in_zseq in Hg; [|lia]. apply writes_of_block_spec. lia.
  - intros g p Hg Hp. apply in_zseq in Hg; [|lia].
    assert (Hg' : 0 <= g < num_anchors) by lia.
    apply in_map_iff in Hp as (wr & Hwp & Hwr).
    apply (proj1 (proj2 (writes_of_block_spec g Hg'))) in Hwr as (p' & Hp' & ->).
    cbn in Hwp. subst p'.
    destruct (segment_length_bounds g Hg') as (Hlen & _).
    symmetry. apply (Z.div_unique p anchoring_period g (p - g * anchoring_period)); lia.
Qed.

Lemma decompress_grid :
  decompress IndexSize UncompressedSize PositionOffsetSize PositionsAreRelative
    warp_size block_length
    values table anchors anchoring_period num_anchors num_element_runs total num_anchors
  = Some (map writes_of_block (zseq 0 (Z.to_nat num_anchors))).
Proof.
  unfold decompress. apply sequence_map_some.
  intros g Hg. apply in_zseq in Hg; [|lia]. apply writes_of_block_spec. lia.
Qed.

End GridFacts.

(** ** The decompressor undoes the compressor *)

(** C1, as amended. An array given by runs of length at least 1 is
    compressed with an anchoring period of at least 1 into run values,
    position anchors and run start positions, absolute or segment-relative,
    and decompressed by the kernel, one block per anchor. The kernel returns
    and its writes leave the array in the output buffer, provided that
    - every segment starts at a multiple of the number of elements of a
      thread write, so that the packed stores are aligned;
    - in every segment the last lane of a warp has a further write whenever
      another lane of the warp has one, so that [get_from_last_lane] reads
      a lane which calls it;
    - with segment-relative positions, no run starts where a segment other
      than the first starts.
    The value size is one the kernel is instantiated for, the block is made
    of whole warps of at most 32 lanes, and the lengths fit the index
    type. *)
Theorem decode_encoded_is_identity :
  forall (IndexSize UncompressedSize PositionOffsetSize : Z) (PositionsAreRelative : bool)
         (warp_size block_length warps_in_block : Z)
         (runs : list (Z * Z)) (anchoring_period : Z) (decompressed : list Z),
    UncompressedSize = 1 \/ UncompressedSize = 2 \/ UncompressedSize = 4
    \/ UncompressedSize = 8 ->
    4 <= IndexSize <= PositionOffsetSize ->
    elements_per_thread_write UncompressedSize <= warp_size <= 32 ->
    0 < warps_in_block /\ block_length = warps_in_block * warp_size ->
    block_length * elements_per_thread_write UncompressedSize < 2 ^ 32 ->
    1 <= anchoring_period < 2 ^ (8 * IndexSize) ->
    (forall r, In r runs -> 1 <= snd r) ->
    uncompressed_length_of runs
      + block_length * elements_per_thread_write UncompressedSize < 2 ^ (8 * IndexSize) ->
    num_anchors_of runs anchoring_period < 2 ^ 32 ->
    (PositionsAreRelative = true ->
     forall g, 0 < g < num_anchors_of runs anchoring_period ->
       ~ In (g * anchoring_period) (run_starts 0 (map snd runs))) ->
    (forall g, 0 <= g < num_anchors_of runs anchoring_period ->
       (g * anchoring_period) mod elements_per_thread_write UncompressedSize = 0) ->
    (forall g, 0 <= g < num_anchors_of runs anchoring_period ->
       shuffles_include_the_last_lane UncompressedSize warp_size block_length
         (segment_length_of runs anchoring_period g)) ->
    length decompressed = length (expand runs) ->
    decode_encoded IndexSize UncompressedSize PositionOffsetSize PositionsAreRelative
      warp_size block_length runs anchoring_period decompressed
    = Some (expand runs).
Proof.
  intros IndexSize UncompressedSize PositionOffsetSize PositionsAreRelative
         warp_size block_length warps_in_block runs anchoring_period decompressed
         Hsize Hidx Hwarp Hblock Hstride Hperiod Hruns Hfit Hanchors
         Hboundary Haligned Hshuffles Hlen.
  unfold decode_encoded.
  rewrite (decompress_grid IndexSize UncompressedSize PositionOffsetSize
             PositionsAreRelative warp_size block_length warps_in_block runs
             anchoring_period) by assumption.
  cbn [option_map]. f_equal.
  rewrite <- flat_map_concat_map.
  apply apply_writes_fills; [assumption|].
  intros w.
  rewrite (in_grid_writes IndexSize UncompressedSize PositionOffsetSize
             PositionsAreRelative warp_size block_length warps_in_block runs
             anchoring_period) by assumption.
  rewrite length_expand; [reflexivity|].
  intros r Hr. specialize (Hruns r Hr). lia.
Qed.

Lemma decode_encoded_is_identity_witness :
  decode_encoded 4 2 4 true 32 32 [(5, 3); (7, 4); (9, 2)] 4 [0; 0; 0; 0; 0; 0; 0; 0; 0]
  = Some [5; 5; 5; 7; 7; 7; 7; 9; 9]
  /\ decode_encoded 4 4 4 false 32 64 [(1, 100); (2, 92)] 192 (repeat 0 192%nat)
     = Some (repeat 1 100%nat ++ repeat 2 92%nat).
Proof.
  split.
  - apply (decode_encoded_is_identity 4 2 4 true 32 32 1 [(5, 3); (7, 4); (9, 2)] 4).
    + right. left. reflexivity.
    + lia.
    + vm_compute. split; discriminate.
    + split; [lia|reflexivity].
    + reflexivity.
    + split; [lia|reflexivity].
    + intros r [<-|[<-|[<-|[]]]]; cbn; lia.
    + reflexivity.
    + reflexivity.
    + intros _ g Hg Hin.
      change (num_anchors_of [(5, 3); (7, 4); (9, 2)] 4) with 3 in Hg.
      cbn in Hin. lia.
    + intros g _. change (elements_per_thread_write 2) with 2.
      replace (g * 4) with (g * 2 * 2) by lia. apply Z.mod_mul. lia.
    + intros g Hg k Hrow Hfirst. exfalso.
      change (num_anchors_of [(5, 3); (7, 4); (9, 2)] 4) with 3 in Hg.
      change (elements_per_thread_write 2) with 2 in Hfirst.
      unfold segment_length_of in Hfirst.
      change (num_anchors_of [(5, 3); (7, 4); (9, 2)] 4) with 3 in Hfirst.
      change (uncompressed_length_of [(5, 3); (7, 4); (9, 2)]) with 9 in Hfirst.
      destruct (g + 1 =? 3); lia.
    + reflexivity.
  - apply (decode_encoded_is_identity 4 4 4 false 32 64 2 [(1, 100); (2, 92)] 192).
    + right. right. left. reflexivity.
    + lia.
    + vm_compute. split; discriminate.
    + split; [lia|reflexivity].
    + reflexivity.
    + split; [lia|reflexivity].
    + intros r [<-|[<-|[]]]; cbn; lia.
    + reflexivity.
    + reflexivity.
    + discriminate.
    + intros g _. change (elements_per_thread_write 4) with 1. apply Z.mod_1_r.
    + intros g Hg k Hrow Hfirst.
      change (num_anchors_of [(1, 100); (2, 92)] 192) with 1 in Hg.
      assert (g = 0) by lia. subst g.
      change (segment_length_of [(1, 100); (2, 92)] 192 0) with 192 in *.
      change (elements_per_thread_write 4) with 1 in *. lia.
    + reflexivity.
Defined.

(** C1, as the claim has it, does not hold for every anchoring period and
    every form of the positions. With values of 2 bytes and an anchoring
    period of 5 the second segment starts at element 5: the first packed
    store of its block is at a byte address which is no multiple of 4, and
    the kernel faults. With segment-relative positions, runs of 4 and an
    anchoring period of 4, the second run starts where the second segment
    starts: the first block counts it among its runs and, its offset
    being 0, takes its value for every position. With values of 4 bytes,
    one segment of 200 values and a block of two warps, the lanes 0 to 7 of
    the first warp have a fourth write and call [get_from_last_lane] after
    their third, while the last lane of the warp has none and does not
    call it: the value they take is not defined, and neither is the output
    of the kernel. *)
Lemma decode_encoded_not_for_every_period :
  decode_encoded 4 2 4 false 32 32 [(5, 3); (7, 4); (9, 2)] 5 [0; 0; 0; 0; 0; 0; 0; 0; 0]
  = None
  /\ expand [(5, 3); (7, 4); (9, 2)] = [5; 5; 5; 7; 7; 7; 7; 9; 9]
  /\ decode_encoded 4 4 4 true 32 32 [(7, 4); (9, 4)] 4 [0; 0; 0; 0; 0; 0; 0; 0]
     = Some [9; 9; 9; 9; 9; 9; 9; 9]
  /\ expand [(7, 4); (9, 4)] = [7; 7; 7; 7; 9; 9; 9; 9]
  /\ decode_encoded 4 4 4 false 32 64 [(1, 100); (2, 100)] 200 (repeat 0 200%nat) = None.
Proof. repeat split; vm_compute; reflexivity. Qed.

(** A block of two warps decompressing a segment of 100 values of 4 bytes:
    after the first write of the second warp its lanes 0 to 3 have a
    further write, at the positions 96 to 99, and call
    [get_from_last_lane]; the last lane of the warp has none, position 127
    being beyond the segment, and does not call it. What the shuffle
    returns is not defined, and neither is the turn. *)
Lemma a_shuffle_without_the_last_lane :
  let params := mk_params 0 2 0 100 in
  let lanes := map (initial_registers 4 4 32 1) (warp_lanes 32 64 1) in
  has_a_further_write 4 4 64 params (nth 3 lanes (mk_lane 0 0)) = true
  /\ has_a_further_write 4 4 64 params (nth 31 lanes (mk_lane 0 0)) = false
  /\ main_round 4 4 4 false 32 64 0 [0; 60] [1; 2] params lanes = None.
Proof. repeat split; vm_compute; reflexivity. Qed.

(** C2, as amended. On the tables of the compressor, with absolute or
    segment-relative positions, with segments which start at multiples of
    the number of elements of a thread write, and in which the last lane of
    a warp has a further write whenever another lane of the warp has one,
    the kernel returns; block [g] writes as many positions as its
    [decompressed_length], namely the positions of its segment, each once;
    and the writes of all the blocks name every position of
    [0, uncompressed_length) exactly once. *)
Theorem decompress_writes_each_slot_once :
  forall (IndexSize UncompressedSize PositionOffsetSize : Z) (PositionsAreRelative : bool)
         (warp_size block_length warps_in_block : Z)
         (runs : list (Z * Z)) (anchoring_period : Z),
    let run_start_positions :=
      run_start_positions_of PositionsAreRelative runs anchoring_period in
    let position_anchors := position_anchors_of runs anchoring_period in
    let num_anchors := num_anchors_of runs anchoring_period in
    let num_element_runs := Z.of_nat (length runs) in
    let uncompressed_length := uncompressed_length_of runs in
    UncompressedSize = 1 \/ UncompressedSize = 2 \/ UncompressedSize = 4
    \/ UncompressedSize = 8 ->
    4 <= IndexSize <= PositionOffsetSize ->
    elements_per_thread_write UncompressedSize <= warp_size <= 32 ->
    0 < warps_in_block /\ block_length = warps_in_block * warp_size ->
    block_length * elements_per_thread_write UncompressedSize < 2 ^ 32 ->
    1 <= anchoring_period < 2 ^ (8 * IndexSize) ->
    (forall r, In r runs -> 1 <= snd r) ->
    uncompressed_length
      + block_length * elements_per_thread_write UncompressedSize < 2 ^ (8 * IndexSize) ->
    num_anchors < 2 ^ 32 ->
    (forall g, 0 <= g < num_anchors ->
       (g * anchoring_period) mod elements_per_thread_write UncompressedSize = 0) ->
    (forall g, 0 <= g < num_anchors ->
       shuffles_include_the_last_lane UncompressedSize warp_size block_length
         (segment_length_of runs anchoring_period g)) ->
    exists per_block : list (list write),
      decompress IndexSize UncompressedSize PositionOffsetSize PositionsAreRelative
        warp_size block_length
        (map fst runs) run_start_positions position_anchors anchoring_period num_anchors
        num_element_runs uncompressed_length num_anchors
      = Some per_block
      /\ length per_block = Z.to_nat num_anchors
      /\ (forall g, 0 <= g < num_anchors ->
            let params :=
              resolve_segment_decompression_params IndexSize PositionOffsetSize
                run_start_positions position_anchors anchoring_period num_anchors
                num_element_runs uncompressed_length g in
            let writes := nth (Z.to_nat g) per_block [] in
            Z.of_nat (length writes) = decompressed_length params
            /\ Permutation (map w_pos writes)
                 (zseq (uncompressed_start_position params)
                       (Z.to_nat (decompressed_length params))))
      /\ Permutation (map w_pos (concat per_block))
           (zseq 0 (Z.to_nat uncompressed_length)).
Proof.
  intros IndexSize UncompressedSize PositionOffsetSize PositionsAreRelative
         warp_size block_length warps_in_block runs anchoring_period
         run_start_positions position_anchors num_anchors num_element_runs
         uncompressed_length
         Hsize Hidx Hwarp Hblock Hstride Hperiod Hruns Hfit Hanchors
         Haligned Hshuffles.
  subst run_start_positions position_anchors num_anchors num_element_runs
        uncompressed_length.
  pose proof (total_nonneg runs Hruns) as [Htotal _].
  eexists. split.
  { apply (decompress_grid_returns IndexSize UncompressedSize PositionOffsetSize
             PositionsAreRelative warp_size block_length warps_in_block runs
             anchoring_period); assumption. }
  split; [now rewrite length_map, zseq_length|]. split.
  - intros g Hg params writes.
    destruct (resolved_fields IndexSize UncompressedSize PositionOffsetSize
                PositionsAreRelative warp_size block_length warps_in_block runs
                anchoring_period
                Hsize Hidx Hwarp Hblock Hstride Hperiod Hruns Hfit Hanchors g Hg)
      as (Hst & Hdl & _).
    destruct (segment_length_bounds IndexSize PositionOffsetSize runs anchoring_period
                Hidx Hperiod g Hg) as (Hlen & _).
    fold params in Hst, Hdl.
    destruct (block_positions IndexSize UncompressedSize PositionOffsetSize
                PositionsAreRelative warp_size block_length warps_in_block runs
                anchoring_period
                Hsize Hidx Hwarp Hblock Hstride Hperiod Hruns Hfit Hanchors
                Haligned Hshuffles g Hg)
      as (_ & Hperm).
    assert (Hwrites :
              Permutation (map w_pos writes)
                (zseq (uncompressed_start_position params)
                      (Z.to_nat (decompressed_length params)))).
    { subst writes.
      rewrite (nth_map_in_range _ _ _ 0) by (rewrite zseq_length; lia).
      rewrite nth_zseq by lia. cbn [Z.add]. rewrite Z2Nat.id by lia.
      now rewrite Hst, Hdl. }
    split; [|assumption].
    apply Permutation_length in Hwrites.
    rewrite length_map, zseq_length in Hwrites. lia.
  - rewrite <- flat_map_concat_map.
    apply (grid_positions IndexSize UncompressedSize PositionOffsetSize
             PositionsAreRelative warp_size block_length warps_in_block runs
             anchoring_period); assumption.
Qed.

Lemma decompress_writes_each_slot_once_witness :
  exists per_block : list (list write),
    decompress 4 2 4 false 32 32 [5; 7; 9] [0; 3; 7] [0; 1; 2] 4 3 3 9 3 = Some per_block
    /\ length per_block = 3%nat
    /\ Permutation (map w_pos (concat per_block)) (zseq 0 9).
Proof.
  destruct (decompress_writes_each_slot_once 4 2 4 false 32 32 1
              [(5, 3); (7, 4); (9, 2)] 4)
    as (per_block & Hreturns & Hblocks & _ & Hslots).
  - right. left. reflexivity.
  - lia.
  - vm_compute. split; discriminate.
  - split; [lia|reflexivity].
  - reflexivity.
  - split; [lia|reflexivity].
  - intros r [<-|[<-|[<-|[]]]]; cbn; lia.
  - reflexivity.
  - reflexivity.
  - intros g _. change (elements_per_thread_write 2) with 2.
    replace (g * 4) with (g * 2 * 2) by lia. apply Z.mod_mul. lia.
  - intros g Hg k Hrow Hfirst. exfalso.
    change (num_anchors_of [(5, 3); (7, 4); (9, 2)] 4) with 3 in Hg.
    change (elements_per_thread_write 2) with 2 in Hfirst.
    unfold segment_length_of in Hfirst.
    change (num_anchors_of [(5, 3); (7, 4); (9, 2)] 4) with 3 in Hfirst.
    change (uncompressed_length_of [(5, 3); (7, 4); (9, 2)]) with 9 in Hfirst.
    destruct (g + 1 =? 3); lia.
  - exists per_block. split; [exact Hreturns|]. split; [exact Hblocks|exact Hslots].
Defined.

(** C2, as the claim has it, does not hold for every valid configuration:
    with values of 2 bytes, runs of 3, 4 and 2 elements and an anchoring
    period of 5, the block of the second segment, of length 4, faults at
    its first packed store, at element 5, and writes nothing; the kernel
    does not return. Nor are the writes defined for values of 4 bytes, one
    segment of 200 values and a block of two warps, where lanes of the
    first warp call [get_from_last_lane] while its last lane does not. *)
Lemma decompress_faults_on_a_misaligned_segment :
  let run_start_positions := run_starts 0 [3; 4; 2] in
  let position_anchors := position_anchors_of [(5, 3); (7, 4); (9, 2)] 5 in
  decompressed_length
    (resolve_segment_decompression_params 4 4 run_start_positions position_anchors
       5 2 3 9 1) = 4
  /\ decompress_block 4 2 4 false 32 32 [5; 7; 9] run_start_positions position_anchors
       5 2 3 9 1 = None
  /\ decompress 4 2 4 false 32 32 [5; 7; 9] run_start_positions position_anchors
       5 2 3 9 2 = None
  /\ decompress 4 4 4 false 32 64 [1; 2] [0; 100] [0] 200 1 2 200 1 = None.
Proof. repeat split; vm_compute; reflexivity. Qed.

(** ** The search start of a warp *)




(** * More properties of the warp primitives and of the kernel *)

(** ** Votes *)

Lemma holds_logical_not (x : Z) : holds (logical_not x) = negb (holds x).
Proof. unfold holds, logical_not. now destruct (x =? 0). Qed.

Lemma warp_ballot_range (predicates : list bool) :
  0 <= builtins.warp_ballot predicates < 2 ^ Z.of_nat (length predicates).
Proof.
  induction predicates as [|b rest IH]; [cbn; lia|].
  cbn [builtins.warp_ballot length]. rewrite Nat2Z.inj_succ, Z.pow_succ_r by lia.
  destruct b; cbn [Z.b2z]; lia.
Qed.

Lemma warp_ballot_none (predicates : list bool) :
  builtins.warp_ballot predicates = 0 <-> forallb negb predicates = true.
Proof.
  induction predicates as [|b rest IH]; [cbn; tauto|].
  cbn [builtins.warp_ballot forallb]. pose proof (warp_ballot_range rest).
  destruct b; cbn [Z.b2z negb andb]; [split; [lia|discriminate]|].
  rewrite <- IH. lia.
Qed.

Lemma warp_ballot_all (predicates : list bool) :
  builtins.warp_ballot predicates = 2 ^ Z.of_nat (length predicates) - 1
  <-> forallb (fun b => b) predicates = true.
Proof.
  induction predicates as [|b rest IH]; [cbn; tauto|].
  cbn [builtins.warp_ballot forallb length]. pose proof (warp_ballot_range rest).
  rewrite Nat2Z.inj_succ, Z.pow_succ_r by lia.
  destruct b; cbn [Z.b2z andb]; [|split; [lia|discriminate]].
  rewrite <- IH. lia.
Qed.

Lemma popcount_below_cons (n : nat) (b : bool) (x : Z) :
  builtins.popcount_below (S n) (Z.b2z b + 2 * x) = Z.b2z b + builtins.popcount_below n x.
Proof.
  induction n as [|n IH].
  - cbn [builtins.popcount_below Z.of_nat]. rewrite (Z.add_comm (Z.b2z b) (2 * x)), Z.testbit_0_r. lia.
  - change (builtins.popcount_below (S (S n)) (Z.b2z b + 2 * x))
      with (Z.b2z (Z.testbit (Z.b2z b + 2 * x) (Z.of_nat (S n)))
            + builtins.popcount_below (S n) (Z.b2z b + 2 * x)).
    rewrite IH. cbn [builtins.popcount_below].
    rewrite Nat2Z.inj_succ, (Z.add_comm (Z.b2z b)), Z.testbit_succ_r by lia. lia.
Qed.

Lemma popcount_below_zero (n : nat) : builtins.popcount_below n 0 = 0.
Proof.
  induction n as [|n IH]; [reflexivity|].
  cbn [builtins.popcount_below]. now rewrite Z.testbit_0_l, IH.
Qed.

Lemma popcount_warp_ballot (predicates : list bool) (n : nat) :
  (length predicates <= n)%nat ->
  builtins.popcount_below n (builtins.warp_ballot predicates)
  = Z.of_nat (length (filter (fun b => b) predicates)).
Proof.
  revert n. induction predicates as [|b rest IH]; intros n Hn.
  - apply popcount_below_zero.
  - destruct n as [|n]; [cbn in Hn; lia|].
    cbn [builtins.warp_ballot]. rewrite popcount_below_cons, IH by (cbn in Hn; lia).
    destruct b; cbn [filter length Z.b2z]; lia.
Qed.

Lemma forallb_of_map {A B : Type} (f : B -> bool) (g : A -> B) (l : list A) :
  forallb f (map g l) = forallb (fun x => f (g x)) l.
Proof. induction l as [|a l IH]; [reflexivity|]. cbn. now rewrite IH. Qed.

Lemma all_satisfy_spec (predicate : list Z) :
  all_satisfy predicate = 1 <-> forall p, In p predicate -> p <> 0.
Proof.
  unfold all_satisfy, builtins.all_in_warp_satisfy. rewrite forallb_of_map.
  destruct (forallb (fun x => holds x) predicate) eqn:Hf; cbn [Z.b2z].
  - split; [|reflexivity]. intros _ p Hp.
    rewrite forallb_forall in Hf. specialize (Hf p Hp). unfold holds in Hf.
    destruct (Z.eqb_spec p 0); [discriminate|assumption].
  - split; [discriminate|]. intros Hnz. exfalso.
    destruct (forallb_false_witness _ _ Hf) as (p & Hp & Hh).
    unfold holds in Hh. destruct (Z.eqb_spec p 0); [|discriminate].
    now apply (Hnz p).
Qed.

Lemma all_satisfy_flag (predicate : list Z) :
  all_satisfy predicate = 0 \/ all_satisfy predicate = 1.
Proof. unfold all_satisfy. destruct (builtins.all_in_warp_satisfy _); auto. Qed.

Lemma none_satisfy_spec (predicate : list Z) :
  none_satisfy predicate = 1 <-> forall p, In p predicate -> p = 0.
Proof.
  unfold none_satisfy. rewrite all_satisfy_spec. split.
  - intros H p Hp. specialize (H (logical_not p) (in_map _ _ _ Hp)).
    unfold logical_not in H. destruct (Z.eqb_spec p 0); [assumption|now cbn in H].
  - intros H q Hq. apply in_map_iff in Hq as (p & <- & Hp).
    rewrite (H p Hp). discriminate.
Qed.

Lemma some_or_none (predicate : list Z) :
  (exists p, In p predicate /\ p <> 0) \/ (forall p, In p predicate -> p = 0).
Proof.
  induction predicate as [|a l [(p & Hp & Hnz)|IH]].
  - right. intros p [].
  - left. exists p. split; [now right|assumption].
  - destruct (Z.eq_dec a 0) as [Ha|Ha].
    + right. intros p [<-|Hp]; auto.
    + left. exists a. split; [now left|assumption].
Qed.

(** X1. [all_satisfy] is 1 exactly when the predicate of every lane is not
    zero, [none_satisfy] exactly when the predicate of every lane is zero,
    and [some_satisfy] exactly when some lane has a predicate which is not
    zero; [some_satisfy] is the complement of [none_satisfy]. *)
Theorem votes_quantify_over_the_lanes (predicate : list Z) :
  (all_satisfy predicate = 1 <-> forall p, In p predicate -> p <> 0)
  /\ (none_satisfy predicate = 1 <-> forall p, In p predicate -> p = 0)
  /\ (some_satisfy predicate = 1 <-> exists p, In p predicate /\ p <> 0)
  /\ some_satisfy predicate = 1 - none_satisfy predicate.
Proof.
  assert (Hsome : some_satisfy predicate = 1 - none_satisfy predicate).
  { unfold some_satisfy, logical_not, none_satisfy.
    destruct (all_satisfy_flag (map logical_not predicate)) as [-> | ->]; reflexivity. }
  split; [apply all_satisfy_spec|]. split; [apply none_satisfy_spec|].
  split; [|exact Hsome].
  rewrite Hsome. pose proof (none_satisfy_spec predicate) as Hnone.
  destruct (some_or_none predicate) as [(p & Hp & Hnz)|Hzero].
  - split; [intros _; now exists p|]. intros _.
    assert (none_satisfy predicate <> 1) by (rewrite Hnone; intros H; now apply Hnz, H).
    unfold none_satisfy in *.
    destruct (all_satisfy_flag (map logical_not predicate)); lia.
  - split.
    + intros H. apply Hnone in Hzero. lia.
    + intros (p & Hp & Hnz). exfalso. now apply Hnz, Hzero.
Qed.

(** X2. In a warp of 32 lanes [all_lanes_agree_on] is 1 exactly when the
    predicates of all lanes are zero or those of all lanes are not; when
    fewer than 32 lanes take part the complement of the ballot is never zero
    and the function is 1 only when no lane satisfies the predicate. *)
Theorem all_lanes_agree_on_full_and_partial_warps (predicate : list Z) :
  (length predicate = 32%nat ->
   (all_lanes_agree_on predicate = 1
    <-> (forall p, In p predicate -> p = 0) \/ (forall p, In p predicate -> p <> 0)))
  /\ ((length predicate < 32)%nat ->
      all_lanes_agree_on predicate = none_satisfy predicate).
Proof.
  pose proof (warp_ballot_range (map holds predicate)) as Hrange.
  rewrite length_map in Hrange.
  assert (Hnone : builtins.warp_ballot (map holds predicate) = 0
                  <-> none_satisfy predicate = 1).
  { rewrite warp_ballot_none, none_satisfy_spec, forallb_forall. split.
    - intros H p Hp. specialize (H (holds p) (in_map _ _ _ Hp)).
      unfold holds in H. destruct (Z.eqb_spec p 0); [assumption|discriminate].
    - intros H b Hb. apply in_map_iff in Hb as (p & <- & Hp).
      now rewrite (H p Hp). }
  assert (Hnot : wrap32 (Z.lnot (builtins.warp_ballot (map holds predicate)))
                 = 2 ^ 32 - 1 - builtins.warp_ballot (map holds predicate)
                 \/ (32 < length predicate)%nat).
  { destruct (Nat.leb_spec (length predicate) 32) as [Hle|Hgt]; [left|right; lia].
    assert (2 ^ Z.of_nat (length predicate) <= 2 ^ 32)
      by (apply Z.pow_le_mono_r; lia).
    unfold wrap32, wrap, Z.lnot.
    rewrite <- (Z.mod_unique_pos (Z.pred (- builtins.warp_ballot (map holds predicate)))
                  (2 ^ 32) (-1)
                  (2 ^ 32 - 1 - builtins.warp_ballot (map holds predicate))); lia. }
  split.
  - intros Hlen. destruct Hnot as [Hnot|Hgt]; [|lia].
    unfold all_lanes_agree_on. cbv zeta. rewrite Hnot.
    rewrite <- none_satisfy_spec, <- all_satisfy_spec, <- Hnone.
    pose proof (warp_ballot_all (map holds predicate)) as Hall.
    rewrite length_map, Hlen in Hall. change (Z.of_nat 32) with 32 in Hall.
    assert (Hsat : all_satisfy predicate = 1
                   <-> forallb (fun b => b) (map holds predicate) = true).
    { unfold all_satisfy, builtins.all_in_warp_satisfy.
      destruct (forallb _ _); cbn; split; congruence. }
    rewrite Hsat, <- Hall.
    destruct (Z.eqb_spec (builtins.warp_ballot (map holds predicate)) 0) as [Hz|Hz];
      cbn [orb].
    + split; [now left|reflexivity].
    + destruct (Z.eqb_spec (2 ^ 32 - 1 - builtins.warp_ballot (map holds predicate)) 0)
        as [Hf|Hf]; cbn [Z.b2z].
      * split; [intros _; right; lia|reflexivity].
      * split; [discriminate|]. intros [H|H]; [contradiction|lia].
  - intros Hlen. destruct Hnot as [Hnot|Hgt]; [|lia].
    unfold all_lanes_agree_on. cbv zeta. rewrite Hnot.
    assert (2 ^ Z.of_nat (length predicate) <= 2 ^ 31)
      by (apply Z.pow_le_mono_r; lia).
    destruct (Z.eqb_spec (2 ^ 32 - 1 - builtins.warp_ballot (map holds predicate)) 0)
      as [Hf|Hf]; [lia|]. rewrite orb_false_r.
    destruct (Z.eqb_spec (builtins.warp_ballot (map holds predicate)) 0) as [Hz|Hz];
      cbn [Z.b2z].
    + symmetry. now apply Hnone.
    + unfold none_satisfy in *.
      destruct (all_satisfy_flag (map logical_not predicate)) as [H0|H1];
        [now rewrite H0|]. exfalso. now apply Hz, Hnone.
Qed.

Lemma all_lanes_agree_on_full_and_partial_warps_witness :
  (all_lanes_agree_on (repeat 1 32) = 1
   <-> (forall p, In p (repeat 1 32) -> p = 0) \/ (forall p, In p (repeat 1 32) -> p <> 0))
  /\ all_lanes_agree_on (repeat 1 31) = none_satisfy (repeat 1 31).
Proof.
  split.
  - apply (proj1 (all_lanes_agree_on_full_and_partial_warps (repeat 1 32))). reflexivity.
  - apply (proj2 (all_lanes_agree_on_full_and_partial_warps (repeat 1 31))). cbn. lia.
Defined.

(** X3. In a warp of at most 32 lanes [vote_and_tally] is the number of
    lanes whose predicate is not zero, and [active_lane_count] the number of
    lanes taking part. *)
Theorem vote_and_tally_counts_the_lanes (predicate : list Z) (active : list bool) :
  (length predicate <= 32)%nat -> (length active <= 32)%nat ->
  vote_and_tally predicate = Z.of_nat (length (filter holds predicate))
  /\ active_lane_count active = Z.of_nat (length (filter (fun a => a) active)).
Proof.
  intros Hp Ha. unfold vote_and_tally, active_lane_count, active_lanes_mask,
    builtins.population_count.
  rewrite !popcount_warp_ballot by (rewrite ?length_map; assumption).
  split; [|reflexivity]. f_equal.
  clear Hp. induction predicate as [|p l IH]; [reflexivity|].
  cbn [map filter]. destruct (holds p); cbn [length]; now rewrite IH.
Qed.

Lemma vote_and_tally_counts_the_lanes_witness :
  vote_and_tally [0; 7; 0; 1] = Z.of_nat (length (filter holds [0; 7; 0; 1]))
  /\ active_lane_count [true; false; true]
     = Z.of_nat (length (filter (fun a => a) [true; false; true])).
Proof. apply vote_and_tally_counts_the_lanes; cbn; lia. Defined.

(** ** The first and the last lane of a ballot *)

Lemma first_true (predicates : list bool) :
  existsb (fun b => b) predicates = true ->
  exists first, (first < length predicates)%nat
                /\ nth first predicates false = true
                /\ forall l, (l < first)%nat -> nth l predicates false = false.
Proof.
  induction predicates as [|b rest IH]; [discriminate|].
  destruct b.
  - intros _. exists 0%nat. cbn. repeat split; [lia|]. intros l Hl. lia.
  - cbn [existsb orb]. intros Hex. destruct (IH Hex) as (first & Hlt & Hset & Hzero).
    exists (S first). cbn [length nth]. repeat split; [lia|assumption|].
    intros [|l] Hl; [reflexivity|]. apply Hzero. lia.
Qed.

Lemma clz_below_last_set (x : Z) (last n : nat) :
  Z.testbit x (Z.of_nat last) = true ->
  (forall l, (last < l < n)%nat -> Z.testbit x (Z.of_nat l) = false) ->
  (last < n)%nat ->
  builtins.clz_below n x = Z.of_nat (n - 1 - last).
Proof.
  intros Hset Hzero. induction n as [|n IH]; intros Hn; [lia|].
  cbn [builtins.clz_below].
  destruct (Nat.eq_dec n last) as [->|Hne].
  - rewrite Hset. f_equal. lia.
  - rewrite Hzero by lia. rewrite IH; [lia| |lia].
    intros l Hl. apply Hzero. lia.
Qed.

(** X4. In a warp of at most 32 lanes, some of which satisfy the predicate,
    [first_lane_satisfying] is the lowest lane which satisfies it. *)
Theorem first_lane_satisfying_is_the_lowest (predicates : list bool) :
  (length predicates <= 32)%nat ->
  existsb (fun b => b) predicates = true ->
  0 <= first_lane_satisfying predicates < Z.of_nat (length predicates)
  /\ nth (Z.to_nat (first_lane_satisfying predicates)) predicates false = true
  /\ forall l, (l < Z.to_nat (first_lane_satisfying predicates))%nat ->
               nth l predicates false = false.
Proof.
  intros Hlen Hex. destruct (first_true predicates Hex) as (first & Hlt & Hset & Hzero).
  rewrite (first_lane_satisfying_spec predicates first) by (assumption || lia).
  rewrite Nat2Z.id. repeat split; try assumption; lia.
Qed.

Lemma first_lane_satisfying_is_the_lowest_witness :
  0 <= first_lane_satisfying [false; false; true; false; true] < Z.of_nat 5
  /\ nth (Z.to_nat (first_lane_satisfying [false; false; true; false; true]))
         [false; false; true; false; true] false = true
  /\ forall l, (l < Z.to_nat (first_lane_satisfying [false; false; true; false; true]))%nat ->
               nth l [false; false; true; false; true] false = false.
Proof.
  apply (first_lane_satisfying_is_the_lowest [false; false; true; false; true]);
    [cbn; lia|reflexivity].
Defined.

(** X5. Without [PreferFirstLane] the leader is the lowest lane taking part:
    [select_leader_lane<false>] names it, [am_leader_lane<false>] holds in
    that lane and in no other, and [have_a_single_active_lane_compute] has
    the function run once and hands its result to the lanes. *)
Theorem leader_without_preference_is_the_lowest_active_lane
    {St R : Type} (active : list bool) (first : nat) (f : St -> R * St) (s : St) :
  (length active <= 32)%nat ->
  nth first active false = true ->
  (forall l, (l < first)%nat -> nth l active false = false) ->
  let mask := active_lanes_mask active in
  detail.select_leader_lane false mask = Z.of_nat first
  /\ (forall lane, detail.am_leader_lane false mask lane = (Z.of_nat first =? lane))
  /\ have_a_single_active_lane_compute false f mask s = (Some (fst (f s)), snd (f s)).
Proof.
  intros Hlen Hset Hzero mask.
  assert (Hfirst : (first < length active)%nat).
  { destruct (Nat.ltb_spec first (length active)) as [|Hge]; [assumption|].
    rewrite nth_overflow in Hset by assumption. discriminate. }
  assert (Hleader : detail.select_leader_lane false mask = Z.of_nat first).
  { apply (first_lane_satisfying_spec active first); [lia|assumption..]. }
  split; [assumption|]. split.
  - intros lane. unfold detail.am_leader_lane. now rewrite Hleader.
  - unfold have_a_single_active_lane_compute, have_a_single_lane_compute.
    rewrite Hleader. unfold lane_is_active. subst mask. unfold active_lanes_mask.
    rewrite testbit_warp_ballot, Hset.
    destruct (Z.leb_spec 0 (Z.of_nat first)); [|lia].
    destruct (Z.ltb_spec (Z.of_nat first) 32); [|lia].
    cbn [andb]. now destruct (f s).
Qed.

Lemma leader_without_preference_is_the_lowest_active_lane_witness :
  detail.select_leader_lane false (active_lanes_mask [false; true; true]) = Z.of_nat 1
  /\ (forall lane, detail.am_leader_lane false (active_lanes_mask [false; true; true]) lane
                   = (Z.of_nat 1 =? lane))
  /\ have_a_single_active_lane_compute false (fun c : Z => (c, c + 1))
       (active_lanes_mask [false; true; true]) 5
     = (Some (fst (5, 5 + 1)), snd (5, 5 + 1)).
Proof.
  apply (leader_without_preference_is_the_lowest_active_lane
           [false; true; true] 1 (fun c : Z => (c, c + 1)) 5).
  - cbn. lia.
  - reflexivity.
  - intros l Hl. assert (l = 0%nat) as -> by lia. reflexivity.
Defined.

(** X6. With [PreferFirstLane], the default, [select_leader_lane] counts the
    zeros above the highest lane taking part: when that lane is [last] the
    leader is lane [31 - last], whether or not that lane takes part; in a
    warp whose lane 31 takes part it is lane 0. *)
Theorem leader_with_preference_counts_down_from_lane_31 (active : list bool) (last : nat) :
  (length active <= 32)%nat ->
  nth last active false = true ->
  (forall l, (last < l)%nat -> nth l active false = false) ->
  detail.select_leader_lane true (active_lanes_mask active) = 31 - Z.of_nat last.
Proof.
  intros Hlen Hset Hzero.
  assert (Hlast : (last < length active)%nat).
  { destruct (Nat.ltb_spec last (length active)) as [|Hge]; [assumption|].
    rewrite nth_overflow in Hset by assumption. discriminate. }
  unfold detail.select_leader_lane, builtins.count_leading_zeros, active_lanes_mask.
  rewrite (clz_below_last_set _ last); try lia.
  - now rewrite testbit_warp_ballot.
  - intros l Hl. rewrite testbit_warp_ballot. apply Hzero. lia.
Qed.

Lemma leader_with_preference_counts_down_from_lane_31_witness :
  detail.select_leader_lane true (active_lanes_mask [true; true; false; true])
  = 31 - Z.of_nat 3.
Proof.
  apply (leader_with_preference_counts_down_from_lane_31 [true; true; false; true] 3).
  - cbn. lia.
  - reflexivity.
  - intros l Hl. destruct l as [|[|[|[|l]]]]; try lia. now destruct l.
Defined.

(** ** The butterfly of [reduce] *)

Lemma lxor_pow2_clear (i t : nat) :
  Nat.testbit i t = false -> Nat.lxor i (2 ^ t) = (i + 2 ^ t)%nat.
Proof.
  intros Hbit. symmetry. apply Nat.add_nocarry_lxor.
  apply Nat.bits_inj. intros n.
  rewrite Nat.land_spec, Nat.bits_0, Nat.pow2_bits_eqb.
  destruct (Nat.eqb_spec t n) as [<-|_]; [now rewrite Hbit|apply andb_false_r].
Qed.

Lemma lxor_pow2_set (i t : nat) :
  Nat.testbit i t = true -> (Nat.lxor i (2 ^ t) + 2 ^ t)%nat = i.
Proof.
  intros Hbit.
  rewrite <- lxor_pow2_clear.
  - rewrite Nat.lxor_assoc, Nat.lxor_nilpotent. apply Nat.lxor_0_r.
  - rewrite Nat.lxor_spec, Hbit, Nat.pow2_bits_eqb, Nat.eqb_refl. reflexivity.
Qed.

(** The lane a lane exchanges with under the mask [m = 2^t], in terms of the
    residue of the lane modulo [2m]. *)
Lemma lxor_pow2 (i t : nat) :
  let m := (2 ^ t)%nat in
  ((i mod (2 * m) < m /\ Nat.lxor i m = i + m)
   \/ (m <= i mod (2 * m) /\ Nat.lxor i m + m = i))%nat.
Proof.
  intros m.
  assert (Hm : (0 < m)%nat) by (subst m; apply Nat.neq_0_lt_0, Nat.pow_nonzero; lia).
  pose proof (Nat.testbit_spec' i t) as Hspec. fold m in Hspec.
  pose proof (Nat.Div0.mod_mul_r i m 2) as Hmod.
  replace (m * 2)%nat with (2 * m)%nat in Hmod by lia.
  pose proof (Nat.mod_upper_bound i m ltac:(lia)) as Hlow.
  destruct (Nat.testbit i t) eqn:Hbit; cbn [Nat.b2n] in Hspec.
  - right. split; [lia|]. now apply lxor_pow2_set.
  - left. split; [lia|]. now apply lxor_pow2_clear.
Qed.

Section ReduceFacts.
Context {T : Type}.
Variable op : T -> T -> T.
Variable warp_size : nat.
Hypothesis op_assoc : forall x y z, op x (op y z) = op (op x y) z.
Hypothesis op_comm : forall x y, op x y = op y x.

Lemma join_assoc (a b c : option T) : join op a (join op b c) = join op (join op a b) c.
Proof. destruct a, b, c; cbn; try reflexivity. now rewrite op_assoc. Qed.

Lemma join_comm (a b : option T) : join op a b = join op b a.
Proof. destruct a, b; cbn; try reflexivity. now rewrite op_comm. Qed.

(** Two disjoint selections of lanes, combined apart and then joined, give
    what their union gives. *)
Lemma combined_union (v : nat -> T) (keep1 keep2 : nat -> bool) (lanes : list nat) :
  (forall j, keep1 j = true -> keep2 j = false) ->
  combined op v (fun j => keep1 j || keep2 j) lanes
  = join op (combined op v keep1 lanes) (combined op v keep2 lanes).
Proof.
  intros Hdisjoint. induction lanes as [|j lanes IH]; [reflexivity|].
  unfold combined in *. cbn [fold_right]. rewrite IH.
  destruct (keep1 j) eqn:H1; cbn [orb].
  - rewrite (Hdisjoint j H1). apply join_assoc.
  - destruct (keep2 j); [|reflexivity].
    rewrite join_assoc, (join_comm (Some (v j))), <- join_assoc. reflexivity.
Qed.

Lemma combined_agree (v : nat -> T) (keep1 keep2 : nat -> bool) (lanes : list nat) :
  (forall j, In j lanes -> keep1 j = keep2 j) ->
  combined op v keep1 lanes = combined op v keep2 lanes.
Proof.
  intros Hagree. induction lanes as [|j lanes IH]; [reflexivity|].
  unfold combined in *. cbn [fold_right].
  rewrite (Hagree j) by now left. rewrite IH; [reflexivity|].
  intros k Hk. apply Hagree. now right.
Qed.

(** A single lane selected. *)
Lemma combined_single (v : nat -> T) (i first n : nat) :
  (first <= i < first + n)%nat ->
  combined op v (fun j => (j =? i)%nat) (seq first n) = Some (v i).
Proof.
  revert first. induction n as [|n IH]; intros first Hi; [lia|].
  unfold combined in *. cbn [seq fold_right].
  destruct (Nat.eqb_spec first i) as [->|Hne].
  - assert (Hrest : fold_right
                      (fun j acc => if (j =? i)%nat then join op (Some (v j)) acc else acc)
                      None (seq (S i) n) = None).
    { clear. generalize (Nat.lt_succ_diag_r i). generalize (S i) as k.
      induction n as [|n IH]; intros k Hk; [reflexivity|]. cbn [seq fold_right].
      destruct (Nat.eqb_spec k i); [lia|]. apply IH. lia. }
    now rewrite Hrest.
  - apply IH. lia.
Qed.

(** All lanes selected: the fold of the values in lane order. *)
Lemma op_fold_left (x y : T) (rest : list T) :
  op x (fold_left op rest y) = fold_left op rest (op x y).
Proof.
  revert y. induction rest as [|z rest IH]; intros y; [reflexivity|].
  cbn [fold_left]. rewrite IH. now rewrite op_assoc.
Qed.

Lemma combined_values_agree (v1 v2 : nat -> T) (keep : nat -> bool) (lanes : list nat) :
  (forall j, In j lanes -> v1 j = v2 j) ->
  combined op v1 keep lanes = combined op v2 keep lanes.
Proof.
  intros Hagree. induction lanes as [|j lanes IH]; [reflexivity|].
  unfold combined in *. cbn [fold_right].
  rewrite (Hagree j) by now left. rewrite IH; [reflexivity|].
  intros l Hl. apply Hagree. now right.
Qed.

Lemma combined_all (value : list T) (d : T) (first : nat) (x : T) :
  combined op (fun j => nth (j - first) (x :: value) d) (fun _ => true)
    (seq first (S (length value)))
  = Some (fold_left op value x).
Proof.
  revert first x. induction value as [|y rest IH]; intros first x.
  - unfold combined. cbn. now rewrite Nat.sub_diag.
  - change (seq first (S (length (y :: rest))))
      with (first :: seq (S first) (S (length rest))).
    change (combined op (fun j => nth (j - first) (x :: y :: rest) d) (fun _ => true)
              (first :: seq (S first) (S (length rest))))
      with (join op (Some (nth (first - first) (x :: y :: rest) d))
              (combined op (fun j => nth (j - first) (x :: y :: rest) d) (fun _ => true)
                 (seq (S first) (S (length rest))))).
    rewrite (combined_values_agree _ (fun j => nth (j - S first) (y :: rest) d)).
    + rewrite IH, Nat.sub_diag. cbn [nth join fold_left]. now rewrite op_fold_left.
    + intros j Hj. apply in_seq in Hj.
      replace (j - first)%nat with (S (j - S first)) by lia. reflexivity.
Qed.

Lemma length_shfl_xor (xs : list T) (lane_mask : nat) :
  length (shfl_xor xs lane_mask) = length xs.
Proof. unfold shfl_xor. now rewrite length_map, length_with_lane_index. Qed.

Lemma nth_shfl_xor (xs : list T) (lane_mask i : nat) (d : T) :
  (i < length xs)%nat -> (Nat.lxor i lane_mask < length xs)%nat ->
  nth i (shfl_xor xs lane_mask) d = nth (Nat.lxor i lane_mask) xs d.
Proof.
  intros Hi Hsrc. unfold shfl_xor.
  rewrite (nth_map_in_range _ _ _ (O, d)) by now rewrite length_with_lane_index.
  rewrite nth_with_lane_index by assumption. cbn [fst snd].
  now apply nth_indep.
Qed.

Lemma length_reduce_step (shuffle_mask : nat) (x : list T) :
  length (reduce_step op shuffle_mask x) = length x.
Proof.
  unfold reduce_step. rewrite length_map, length_combine, length_shfl_xor.
  apply Nat.min_id.
Qed.

Lemma nth_reduce_step (shuffle_mask i : nat) (x : list T) (d : T) :
  (i < length x)%nat -> (Nat.lxor i shuffle_mask < length x)%nat ->
  nth i (reduce_step op shuffle_mask x) d
  = op (nth i x d) (nth (Nat.lxor i shuffle_mask) x d).
Proof.
  intros Hi Hsrc. unfold reduce_step, acc_op.
  rewrite (nth_map_in_range _ _ _ (d, d))
    by (rewrite length_combine, length_shfl_xor; lia).
  rewrite combine_nth by now rewrite length_shfl_xor.
  cbn [fst snd]. now rewrite nth_shfl_xor.
Qed.

(** A step of the butterfly with the mask [2^t] halves the modulus. *)
Lemma butterfly_invariant_step (v : nat -> T) (d : T) (t : nat) (x : list T) :
  (exists c, warp_size = c * (2 * 2 ^ t))%nat ->
  butterfly_invariant op warp_size v d (2 * 2 ^ t) x ->
  butterfly_invariant op warp_size v d (2 ^ t) (reduce_step op (2 ^ t) x).
Proof.
  intros (c & Hc) [Hlen Hx]. split; [now rewrite length_reduce_step|].
  set (m := (2 ^ t)%nat) in *.
  assert (Hm : (0 < m)%nat) by (subst m; apply Nat.neq_0_lt_0, Nat.pow_nonzero; lia).
  intros i Hi.
  pose proof (Nat.div_mod_eq i (2 * m)) as Hdiv.
  pose proof (Nat.mod_upper_bound i (2 * m) ltac:(lia)) as Hres.
  assert (Hq : (i / (2 * m) < c)%nat) by nia.
  assert (Hpartner : (Nat.lxor i m < warp_size)%nat).
  { destruct (lxor_pow2 i t) as [[Hlow Hl]|[Hhigh Hl]]; fold m in Hlow, Hl || fold m in Hhigh, Hl;
      nia. }
  rewrite nth_reduce_step by lia.
  change (Some (op (nth i x d) (nth (Nat.lxor i m) x d)))
    with (join op (Some (nth i x d)) (Some (nth (Nat.lxor i m) x d))).
  rewrite <- (Hx i Hi), <- (Hx (Nat.lxor i m) Hpartner).
  rewrite <- combined_union.
  - apply combined_agree. intros j _.
    pose proof (Nat.Div0.mod_mul_r j m 2) as Hj.
    pose proof (Nat.Div0.mod_mul_r i m 2) as Hi2.
    replace (m * 2)%nat with (2 * m)%nat in Hj, Hi2 by lia.
    pose proof (Nat.mod_upper_bound j m ltac:(lia)) as Hjm.
    pose proof (Nat.mod_upper_bound i m ltac:(lia)) as Him.
    pose proof (Nat.mod_upper_bound (j / m) 2 ltac:(lia)) as Hjb.
    pose proof (Nat.mod_upper_bound (i / m) 2 ltac:(lia)) as Hib.
    assert (Hp : ((Nat.lxor i m) mod (2 * m)
                  = if (i mod (2 * m) <? m) then i mod (2 * m) + m else i mod (2 * m) - m)%nat).
    { destruct (lxor_pow2 i t) as [[Hlow Hl]|[Hhigh Hl]]; fold m in Hlow, Hl || fold m in Hhigh, Hl.
      - destruct (Nat.ltb_spec (i mod (2 * m)) m); [|lia]. rewrite Hl.
        symmetry. apply (Nat.mod_unique _ _ (i / (2 * m))); lia.
      - destruct (Nat.ltb_spec (i mod (2 * m)) m); [lia|].
        symmetry. apply (Nat.mod_unique _ _ (i / (2 * m))); lia. }
    rewrite Hp, Hj, Hi2. clear Hp Hj Hi2 Hdiv Hres Hq Hpartner.
    set (a := (j mod m)%nat) in *. set (b := ((j / m) mod 2)%nat) in *.
    set (a' := (i mod m)%nat) in *. set (b' := ((i / m) mod 2)%nat) in *.
    assert (Hb : (b = 0 \/ b = 1)%nat) by lia.
    assert (Hb' : (b' = 0 \/ b' = 1)%nat) by lia.
    destruct Hb as [-> | ->], Hb' as [-> | ->];
      rewrite ?Nat.mul_0_r, ?Nat.mul_1_r, ?Nat.add_0_r;
      destruct (Nat.eqb_spec a a') as [Ha|Ha];
      repeat match goal with
             | |- context [Nat.ltb ?x ?y] => destruct (Nat.ltb_spec x y)
             | |- context [Nat.eqb ?x ?y] => destruct (Nat.eqb_spec x y)
             end; cbn [orb]; try reflexivity; lia.
  - intros j Hj. apply Nat.eqb_eq in Hj. apply Nat.eqb_neq. rewrite Hj.
    destruct (lxor_pow2 i t) as [[Hlow Hl]|[Hhigh Hl]]; fold m in Hlow, Hl || fold m in Hhigh, Hl.
    + rewrite Hl. intros Hsame.
      assert (((i + m) mod (2 * m) = i mod (2 * m) + m)%nat)
        by (symmetry; apply (Nat.mod_unique _ _ (i / (2 * m))); lia). lia.
    + intros Hsame.
      assert (((Nat.lxor i m) mod (2 * m) = i mod (2 * m) - m)%nat)
        by (symmetry; apply (Nat.mod_unique _ _ (i / (2 * m))); lia). lia.
Qed.

(** The ladder from the mask [2^t] downwards, on [2^(t+1)] lanes or a
    multiple: every lane ends with the values of all lanes combined. *)
Lemma reduce_ladder_combines (v : nat -> T) (d : T) (t fuel : nat) (x : list T) :
  (exists c, warp_size = c * (2 * 2 ^ t))%nat -> (t < fuel)%nat ->
  butterfly_invariant op warp_size v d (2 * 2 ^ t) x ->
  butterfly_invariant op warp_size v d 1 (reduce_ladder op fuel (2 ^ t) x).
Proof.
  revert fuel x. induction t as [|t IH]; intros fuel x Hc Hfuel Hinv.
  - destruct fuel as [|fuel]; [lia|]. cbn [reduce_ladder].
    change (2 ^ 0)%nat with 1%nat. cbn [Nat.ltb Nat.leb].
    change (1 / 2)%nat with 0%nat.
    apply (butterfly_invariant_step v d 0) in Hinv; [|assumption].
    destruct fuel; exact Hinv.
  - destruct fuel as [|fuel]; [lia|]. cbn [reduce_ladder].
    assert (Hpos : (0 < 2 ^ S t)%nat) by (apply Nat.neq_0_lt_0, Nat.pow_nonzero; lia).
    destruct (Nat.ltb_spec 0 (2 ^ S t)) as [_|]; [|lia].
    replace (2 ^ S t / 2)%nat with (2 ^ t)%nat
      by (rewrite Nat.pow_succ_r', Nat.mul_comm, Nat.div_mul; lia).
    apply IH; [|lia|].
    + destruct Hc as (c & Hc). exists (2 * c)%nat. rewrite Hc, Nat.pow_succ_r'. lia.
    + rewrite <- Nat.pow_succ_r'. now apply butterfly_invariant_step.
Qed.

Lemma reduce_combines (value : list T) (d : T) (k : nat) (i : nat) :
  warp_size = (2 ^ S k)%nat -> length value = warp_size -> (i < warp_size)%nat ->
  nth i (reduce op warp_size value) d = fold_left op (tl value) (hd d value).
Proof.
  intros HW Hlen Hi. unfold reduce.
  replace (warp_size / 2)%nat with (2 ^ k)%nat
    by (rewrite HW, Nat.pow_succ_r', Nat.mul_comm, Nat.div_mul; lia).
  assert (Hpos : (0 < 2 ^ k)%nat) by (apply Nat.neq_0_lt_0, Nat.pow_nonzero; lia).
  assert (Hk : (k < warp_size)%nat).
  { rewrite HW. apply Nat.lt_trans with (2 ^ k)%nat; [apply Nat.pow_gt_lin_r; lia|].
    rewrite Nat.pow_succ_r'. lia. }
  destruct (reduce_ladder_combines (fun j => nth j value d) d k warp_size value)
    as [_ Hall].
  - exists 1%nat. rewrite HW, Nat.pow_succ_r'. lia.
  - assumption.
  - split; [assumption|]. intros j Hj.
    rewrite (combined_agree _ _ (fun l => (l =? j)%nat)).
    + apply combined_single. lia.
    + intros l Hl. apply in_seq in Hl. rewrite <- HW at 1. rewrite <- (Nat.pow_succ_r' 2 k), <- HW.
      now rewrite !Nat.mod_small by lia.
  - specialize (Hall i Hi).
    rewrite (combined_agree _ _ (fun _ => true)) in Hall
      by (intros; now rewrite !Nat.mod_1_r).
    destruct value as [|x rest]; [cbn in Hlen; lia|].
    assert (Hseq : seq 0 warp_size = seq 0 (S (length rest))) by now rewrite <- Hlen.
    rewrite Hseq in Hall.
    rewrite (combined_values_agree _ (fun j => nth (j - 0) (x :: rest) d)) in Hall
      by (intros; now rewrite Nat.sub_0_r).
    rewrite combined_all in Hall. injection Hall as <-. reflexivity.
Qed.
End ReduceFacts.

(** X7. When the operator is associative and commutative and the warp has
    [2^(k+1)] lanes, [reduce] leaves in every lane the values of all the
    lanes folded in lane order; [sum] leaves in every lane the sum of the
    values of all lanes, modulo the width of the type. *)
Theorem reduce_gives_every_lane_the_fold_of_all
    {T : Type} (op : T -> T -> T) (k : nat) (value : list T) (d : T) (i : nat) :
  (forall x y z, op x (op y z) = op (op x y) z) ->
  (forall x y, op x y = op y x) ->
  length value = (2 ^ S k)%nat -> (i < 2 ^ S k)%nat ->
  nth i (reduce op (2 ^ S k) value) d = fold_left op (tl value) (hd d value).
Proof.
  intros Hassoc Hcomm Hlen Hi.
  now apply (reduce_combines op (2 ^ S k) Hassoc Hcomm value d k).
Qed.

Lemma reduce_gives_every_lane_the_fold_of_all_witness :
  nth 2 (reduce Z.mul (2 ^ 2) [2; 3; 5; 7]) 0 = fold_left Z.mul (tl [2; 3; 5; 7]) (hd 0 [2; 3; 5; 7]).
Proof.
  apply (reduce_gives_every_lane_the_fold_of_all Z.mul 1 [2; 3; 5; 7] 0 2).
  - intros x y z. lia.
  - intros x y. lia.
  - reflexivity.
  - cbn. lia.
Defined.

Lemma fold_left_wrap_add (bits : Z) (rest : list Z) (x y : Z) :
  fold_left (fun a b => wrap bits (a + b)) rest (wrap bits (x + y))
  = wrap bits (x + y + fold_right Z.add 0 rest).
Proof.
  revert x y. induction rest as [|z rest IH]; intros x y.
  - cbn. now rewrite Z.add_0_r.
  - cbn [fold_left fold_right].
    replace (wrap bits (wrap bits (x + y) + z)) with (wrap bits ((x + y) + z))
      by (unfold wrap; now rewrite Zplus_mod_idemp_l).
    rewrite IH. f_equal. lia.
Qed.

(** X8. [sum] on a warp of [2^(k+1)] lanes leaves in every lane the sum of
    the values of all the lanes modulo [2^bits], the width of the type:
    overflow wraps around and is otherwise ignored. *)
Theorem warp_sum_is_the_sum_of_all_lanes (bits : Z) (k : nat) (value : list Z) (i : nat) :
  length value = (2 ^ S k)%nat -> (i < 2 ^ S k)%nat ->
  nth i (warp_sum bits (2 ^ S k) value) 0 = wrap bits (fold_right Z.add 0 value).
Proof.
  intros Hlen Hi. unfold warp_sum.
  rewrite (reduce_combines (fun x y => wrap bits (x + y)) (2 ^ S k)
             (fun x y z => wrap_add_assoc bits x y z)
             (fun x y => f_equal (wrap bits) (Z.add_comm x y)) value 0 k i eq_refl Hlen Hi).
  destruct value as [|x [|y rest]].
  - cbn [length] in Hlen. pose proof (Nat.pow_nonzero 2 (S k)). lia.
  - exfalso. cbn [length] in Hlen. rewrite Nat.pow_succ_r' in Hlen.
    pose proof (Nat.pow_nonzero 2 k). lia.
  - cbn [hd tl fold_left fold_right]. rewrite fold_left_wrap_add. f_equal. lia.
Qed.

Lemma warp_sum_is_the_sum_of_all_lanes_witness :
  nth 3 (warp_sum 8 (2 ^ 2) [100; 100; 100; 7]) 0
  = wrap 8 (fold_right Z.add 0 [100; 100; 100; 7]).
Proof.
  apply (warp_sum_is_the_sum_of_all_lanes 8 1 [100; 100; 100; 7] 3); [reflexivity|cbn; lia].
Defined.

(** ** Loops at a stride *)

Section StrideFacts.
Variables bits stride bound : Z.
Hypothesis Hstride : 0 < stride.
Hypothesis Hfit : bound + stride <= 2 ^ bits.

Lemma in_at_stride (fuel : nat) (pos p : Z) :
  0 <= pos -> bound - pos <= Z.of_nat fuel ->
  In p (at_stride fuel bits pos stride bound)
  <-> exists q, 0 <= q /\ p = pos + q * stride /\ p < bound.
Proof.
  revert pos. induction fuel as [|fuel IH]; intros pos Hpos Hfuel.
  - cbn. split; [intros []|]. intros (q & Hq & -> & Hlt). nia.
  - cbn [at_stride]. destruct (Z.ltb_spec pos bound) as [Hlt|Hge].
    + rewrite wrap_small by lia. cbn [In]. rewrite IH by lia. split.
      * intros [<-|(q & Hq & -> & Hp)]; [exists 0; lia|exists (q + 1); lia].
      * intros (q & Hq & -> & Hp).
        destruct (Z.eq_dec q 0) as [->|Hne]; [left; lia|right].
        exists (q - 1). lia.
    + split; [intros []|]. intros (q & Hq & -> & Hp). nia.
Qed.

Lemma NoDup_at_stride (fuel : nat) (pos : Z) :
  0 <= pos -> bound - pos <= Z.of_nat fuel ->
  NoDup (at_stride fuel bits pos stride bound).
Proof.
  revert pos. induction fuel as [|fuel IH]; intros pos Hpos Hfuel; [constructor|].
  cbn [at_stride]. destruct (Z.ltb_spec pos bound) as [Hlt|Hge]; [|constructor].
  rewrite wrap_small by lia. constructor; [|apply IH; lia].
  rewrite in_at_stride by lia. intros (q & Hq & Heq & _). nia.
Qed.
End StrideFacts.

Section WarpStrideFacts.
Variables warp_size length : Z.
Hypothesis Hwarp : 0 < warp_size.
Hypothesis Hfit : length + warp_size <= 2 ^ 32.

Lemma in_lane_positions (lane p : Z) :
  0 <= lane < warp_size ->
  In p (at_stride (Z.to_nat length) 32 lane warp_size length)
  <-> 0 <= p < length /\ p mod warp_size = lane.
Proof.
  intros Hlane. rewrite in_at_stride by lia. split.
  - intros (q & Hq & -> & Hp). split; [nia|]. now apply mod_of_thread.
  - intros (Hp & Hmod). exists (p / warp_size).
    pose proof (Z.div_mod p warp_size ltac:(lia)).
    split; [apply Z.div_pos; lia|]. lia.
Qed.

(** The writes of a warp which stores [g pos] at every position its lanes
    come to. *)
Lemma in_warp_stride_writes (g : Z -> Z) (w : write) :
  In w (by_all_lanes warp_size
          (fun lane => map (fun pos => mk_write pos (g pos))
                           (at_stride (Z.to_nat length) 32 lane warp_size length)))
  <-> exists p, 0 <= p < length /\ w = mk_write p (g p).
Proof.
  unfold by_all_lanes. rewrite in_flat_map. split.
  - intros (lane & Hlane & Hin). apply in_zseq in Hlane; [|lia].
    apply in_map_iff in Hin as (p & <- & Hp).
    apply in_lane_positions in Hp; [|lia]. exists p. split; [lia|reflexivity].
  - intros (p & Hp & ->). exists (p mod warp_size).
    pose proof (Z.mod_pos_bound p warp_size Hwarp).
    split; [apply in_zseq; lia|].
    apply (in_map (fun pos => mk_write pos (g pos))). apply in_lane_positions; lia.
Qed.

Lemma warp_stride_positions :
  Permutation
    (by_all_lanes warp_size (fun lane => at_stride (Z.to_nat length) 32 lane warp_size length))
    (zseq 0 (Z.to_nat length)).
Proof.
  apply NoDup_Permutation; [|apply NoDup_zseq|].
  - apply (NoDup_flat_map_keyed _ (fun p => p mod warp_size)); [apply NoDup_zseq| |].
    + intros lane Hlane. apply in_zseq in Hlane; [|lia]. apply NoDup_at_stride; lia.
    + intros lane p Hlane Hp. apply in_zseq in Hlane; [|lia].
      apply in_lane_positions in Hp; [|lia]. cbv beta. lia.
  - intros p. unfold by_all_lanes. rewrite in_flat_map, in_zseq by lia. split.
    + intros (lane & Hlane & Hp). apply in_zseq in Hlane; [|lia].
      apply in_lane_positions in Hp; lia.
    + intros Hp. exists (p mod warp_size).
      pose proof (Z.mod_pos_bound p warp_size Hwarp).
      split; [apply in_zseq; lia|]. apply in_lane_positions; lia.
Qed.

Lemma warp_stride_writes_once (g : Z -> Z) :
  Permutation
    (map w_pos
       (by_all_lanes warp_size
          (fun lane => map (fun pos => mk_write pos (g pos))
                           (at_stride (Z.to_nat length) 32 lane warp_size length))))
    (zseq 0 (Z.to_nat length)).
Proof.
  unfold by_all_lanes. rewrite map_flat_map.
  rewrite (flat_map_agree _
             (fun lane => at_stride (Z.to_nat length) 32 lane warp_size length)).
  - apply warp_stride_positions.
  - intros lane _. rewrite map_map. cbn [w_pos]. apply map_id.
Qed.
End WarpStrideFacts.

(** Writes which put [g p] at every position [p] below [n] leave [g] on the
    first [n] elements of the buffer and the rest of the buffer as it was. *)
Lemma apply_writes_prefix (tr : list write) (g : Z -> Z) (n : Z) (buffer : list Z) :
  0 <= n <= Z.of_nat (length buffer) ->
  (forall w, In w tr <-> exists p, 0 <= p < n /\ w = mk_write p (g p)) ->
  apply_writes tr buffer = map g (zseq 0 (Z.to_nat n)) ++ skipn (Z.to_nat n) buffer.
Proof.
  intros Hn Htr. apply (nth_ext _ _ 0 0).
  - rewrite length_apply_writes, length_app, length_map, zseq_length, length_skipn. lia.
  - intros j Hj. rewrite length_apply_writes in Hj.
    rewrite (nth_apply_writes (if Z.of_nat j <? n then g (Z.of_nat j) else nth j buffer 0));
      [|assumption|].
    + destruct (Z.ltb_spec (Z.of_nat j) n) as [Hlt|Hge].
      * assert (Hex : existsb (fun w => w_pos w =? Z.of_nat j) tr = true).
        { apply existsb_exists. exists (mk_write (Z.of_nat j) (g (Z.of_nat j))).
          split; [|cbn; apply Z.eqb_refl]. apply Htr. exists (Z.of_nat j). split; [lia|reflexivity]. }
        rewrite Hex, app_nth1 by (rewrite length_map, zseq_length; lia).
        rewrite (nth_map_in_range _ _ _ 0) by (rewrite zseq_length; lia).
        rewrite nth_zseq by lia. f_equal.
      * rewrite app_nth2 by (rewrite length_map, zseq_length; lia).
        rewrite length_map, zseq_length, nth_skipn.
        replace (Z.to_nat n + (j - Z.to_nat n))%nat with j by lia.
        now destruct (existsb _ tr).
    + intros w Hin Hpos. apply Htr in Hin as (p & Hp & ->). cbn in Hpos |- *. subst p.
      destruct (Z.ltb_spec (Z.of_nat j) n); [reflexivity|lia].
Qed.

Lemma map_zth_zseq (a : list Z) (n : nat) :
  (n <= length a)%nat -> map (zth a) (zseq 0 n) = firstn n a.
Proof.
  intros Hn. apply (nth_ext _ _ 0 0).
  - rewrite length_map, zseq_length, length_firstn. lia.
  - intros j Hj. rewrite length_map, zseq_length in Hj.
    rewrite (nth_map_in_range _ _ _ 0) by (rewrite zseq_length; lia).
    rewrite nth_zseq, nth_firstn by lia.
    destruct (Nat.ltb_spec j n); [|lia]. unfold zth. f_equal. lia.
Qed.

(** X9. When the positions and one stride fit 32 bits, the lanes of a warp
    in [at_warp_stride] come to every position below [length] exactly once
    between them, lane [l] to the positions which leave [l] modulo the warp
    size; likewise the warps of a grid in [at_grid_stride]. *)
Theorem at_warp_stride_visits_each_position_once (warp_size num_warps_in_grid length : Z) :
  0 < warp_size -> 0 < num_warps_in_grid -> 0 <= length ->
  length + warp_size <= 2 ^ 32 -> length + num_warps_in_grid <= 2 ^ 32 ->
  Permutation (by_all_lanes warp_size (at_warp_stride warp_size length))
              (zseq 0 (Z.to_nat length))
  /\ (forall lane p, 0 <= lane < warp_size ->
        In p (at_warp_stride warp_size length lane) -> p mod warp_size = lane)
  /\ Permutation
       (flat_map (at_grid_stride num_warps_in_grid length)
                 (zseq 0 (Z.to_nat num_warps_in_grid)))
       (zseq 0 (Z.to_nat length)).
Proof.
  intros HW HG Hlen Hfit Hfit'. split; [|split].
  - now apply warp_stride_positions.
  - intros lane p Hlane Hp. unfold at_warp_stride in Hp.
    now apply in_lane_positions in Hp.
  - now apply (warp_stride_positions num_warps_in_grid length).
Qed.

Lemma at_warp_stride_visits_each_position_once_witness :
  Permutation (by_all_lanes 4 (at_warp_stride 4 10)) (zseq 0 (Z.to_nat 10))
  /\ (forall lane p, 0 <= lane < 4 -> In p (at_warp_stride 4 10 lane) -> p mod 4 = lane)
  /\ Permutation (flat_map (at_grid_stride 3 10) (zseq 0 (Z.to_nat 3)))
                 (zseq 0 (Z.to_nat 10)).
Proof. apply (at_warp_stride_visits_each_position_once 4 3 10); lia. Defined.

(** X10. [copy_n] of elements of 4 or 8 bytes is [naive_copy]: when the
    length and one stride fit 32 bits every position below [length] is
    written once, by one lane, and afterwards the target holds the first
    [length] elements of the source followed by what it held before. *)
Theorem copy_n_of_whole_words
    (warp_size sizeof_T : Z) (MayHaveSlack : bool) (source target : list Z) (n : Z) :
  sizeof_T = 4 \/ sizeof_T = 8 ->
  0 < warp_size -> n + warp_size <= 2 ^ 32 ->
  0 <= n <= Z.of_nat (length source) -> n <= Z.of_nat (length target) ->
  copy_n warp_size sizeof_T MayHaveSlack source n = naive_copy warp_size source n
  /\ Permutation (map w_pos (copy_n warp_size sizeof_T MayHaveSlack source n))
                 (zseq 0 (Z.to_nat n))
  /\ apply_writes (copy_n warp_size sizeof_T MayHaveSlack source n) target
     = firstn (Z.to_nat n) source ++ skipn (Z.to_nat n) target.
Proof.
  intros Hsize HW Hfit Hsrc Htgt.
  assert (Hnaive : copy_n warp_size sizeof_T MayHaveSlack source n
                   = naive_copy warp_size source n).
  { unfold copy_n, naive_copy, by_all_lanes. apply flat_map_agree. intros lane _.
    unfold copy_n_lane, elements_per_full_warp_write.
    destruct Hsize as [-> | ->]; reflexivity. }
  split; [assumption|]. rewrite Hnaive. unfold naive_copy, naive_copy_lane. split.
  - apply (warp_stride_writes_once warp_size n HW Hfit (zth source)).
  - rewrite <- map_zth_zseq by lia. apply apply_writes_prefix; [lia|].
    intros w. apply (in_warp_stride_writes warp_size n HW Hfit (zth source)).
Qed.

Lemma copy_n_of_whole_words_witness :
  copy_n 4 4 true [11; 12; 13; 14; 15; 16] 5 = naive_copy 4 [11; 12; 13; 14; 15; 16] 5
  /\ Permutation (map w_pos (copy_n 4 4 true [11; 12; 13; 14; 15; 16] 5))
                 (zseq 0 (Z.to_nat 5))
  /\ apply_writes (copy_n 4 4 true [11; 12; 13; 14; 15; 16] 5) [0; 0; 0; 0; 0; 0; 0]
     = firstn (Z.to_nat 5) [11; 12; 13; 14; 15; 16] ++ skipn (Z.to_nat 5) [0; 0; 0; 0; 0; 0; 0].
Proof.
  apply (copy_n_of_whole_words 4 4 true [11; 12; 13; 14; 15; 16] [0; 0; 0; 0; 0; 0; 0] 5);
    cbn; lia.
Defined.

(** X11. [cast_and_copy] leaves in the target the first [length] elements of
    the source, each reduced to the width of the target type, and writes no
    other element. *)
Theorem cast_and_copy_converts_each_element
    (warp_size target_bits : Z) (source target : list Z) (n : Z) :
  0 < warp_size -> n + warp_size <= 2 ^ 32 ->
  0 <= n <= Z.of_nat (length source) -> n <= Z.of_nat (length target) ->
  apply_writes (cast_and_copy warp_size target_bits source n) target
  = map (wrap target_bits) (firstn (Z.to_nat n) source) ++ skipn (Z.to_nat n) target.
Proof.
  intros HW Hfit Hsrc Htgt.
  rewrite <- map_zth_zseq, map_map by lia. apply apply_writes_prefix; [lia|].
  intros w.
  apply (in_warp_stride_writes warp_size n HW Hfit
           (fun pos => wrap target_bits (zth source pos))).
Qed.

Lemma cast_and_copy_converts_each_element_witness :
  apply_writes (cast_and_copy 4 8 [255; 256; 257; 1000; 7] 4) [0; 0; 0; 0; 9]
  = map (wrap 8) (firstn (Z.to_nat 4) [255; 256; 257; 1000; 7])
    ++ skipn (Z.to_nat 4) [0; 0; 0; 0; 9].
Proof.
  apply (cast_and_copy_converts_each_element 4 8 [255; 256; 257; 1000; 7] [0; 0; 0; 0; 9] 4);
    cbn; lia.
Defined.

(** X12. [fill_n] sets the first [count] elements to the value, each by one
    write, and leaves the rest of the buffer as it was. *)
Theorem fill_n_sets_the_first_elements (warp_size count value : Z) (buffer : list Z) :
  0 < warp_size -> count + warp_size <= 2 ^ 32 ->
  0 <= count <= Z.of_nat (length buffer) ->
  Permutation (map w_pos (fill_n warp_size count value)) (zseq 0 (Z.to_nat count))
  /\ apply_writes (fill_n warp_size count value) buffer
     = repeat value (Z.to_nat count) ++ skipn (Z.to_nat count) buffer.
Proof.
  intros HW Hfit Hcount. split.
  - apply (warp_stride_writes_once warp_size count HW Hfit (fun _ => value)).
  - replace (repeat value (Z.to_nat count))
      with (map (fun _ : Z => value) (zseq 0 (Z.to_nat count))).
    + apply apply_writes_prefix; [lia|]. intros w.
      apply (in_warp_stride_writes warp_size count HW Hfit (fun _ => value)).
    + rewrite <- (zseq_length 0 (Z.to_nat count)) at 2.
      induction (zseq 0 (Z.to_nat count)) as [|a l IH]; [reflexivity|].
      cbn [map length repeat]. now rewrite IH.
Qed.

Lemma fill_n_sets_the_first_elements_witness :
  Permutation (map w_pos (fill_n 4 6 9)) (zseq 0 (Z.to_nat 6))
  /\ apply_writes (fill_n 4 6 9) [1; 2; 3; 4; 5; 6; 7; 8]
     = repeat 9 (Z.to_nat 6) ++ skipn (Z.to_nat 6) [1; 2; 3; 4; 5; 6; 7; 8].
Proof. apply (fill_n_sets_the_first_elements 4 6 9 [1; 2; 3; 4; 5; 6; 7; 8]); cbn; lia. Defined.

(** X13. [lookup] leaves in the target, at every position below
    [num_indices], the element of the lookup table which the index at that
    position names, and writes no other element. *)
Theorem lookup_maps_indices_through_the_table
    (warp_size : Z) (lookup_table indices target : list Z) (num_indices : Z) :
  0 < warp_size -> num_indices + warp_size <= 2 ^ 32 ->
  0 <= num_indices <= Z.of_nat (length indices) ->
  num_indices <= Z.of_nat (length target) ->
  apply_writes (lookup warp_size lookup_table indices num_indices) target
  = map (zth lookup_table) (firstn (Z.to_nat num_indices) indices)
    ++ skipn (Z.to_nat num_indices) target.
Proof.
  intros HW Hfit Hidx Htgt.
  rewrite <- map_zth_zseq, map_map by lia. apply apply_writes_prefix; [lia|].
  intros w.
  apply (in_warp_stride_writes warp_size num_indices HW Hfit
           (fun pos => zth lookup_table (zth indices pos))).
Qed.

Lemma lookup_maps_indices_through_the_table_witness :
  apply_writes (lookup 4 [100; 101; 102] [2; 0; 1; 1; 2; 0] 5) [0; 0; 0; 0; 0; 7]
  = map (zth [100; 101; 102]) (firstn (Z.to_nat 5) [2; 0; 1; 1; 2; 0])
    ++ skipn (Z.to_nat 5) [0; 0; 0; 0; 0; 7].
Proof.
  apply (lookup_maps_indices_through_the_table 4 [100; 101; 102] [2; 0; 1; 1; 2; 0]
           [0; 0; 0; 0; 0; 7] 5); cbn; lia.
Defined.

(** Read-modify-write turns at positions which do not repeat. *)
Lemma accumulate_turns (op : Z -> Z -> Z) (s : Z -> Z) (keep : Z -> bool) (turns : list Z) :
  NoDup turns -> (forall p, In p turns -> 0 <= p) ->
  forall (d : list Z),
    let result :=
      fold_left (fun d p => if keep p then store d (Z.to_nat p) (op (zth d p) (s p)) else d)
                turns d in
    length result = length d
    /\ forall j, (j < length d)%nat ->
         nth j result 0
         = if existsb (fun p => (p =? Z.of_nat j) && keep p) turns
           then op (nth j d 0) (s (Z.of_nat j)) else nth j d 0.
Proof.
  intros Hnodup. induction Hnodup as [|p turns Hp Hnodup IH]; intros Hpos d; [cbn; auto|].
  cbn [fold_left existsb]. cbv zeta in IH |- *.
  set (d1 := if keep p then store d (Z.to_nat p) (op (zth d p) (s p)) else d).
  assert (Hlen1 : length d1 = length d)
    by (subst d1; destruct (keep p); [apply length_store|reflexivity]).
  destruct (IH (fun q Hq => Hpos q (or_intror Hq)) d1) as [Hlen Hnth].
  split; [lia|]. intros j Hj. rewrite Hnth by lia.
  assert (Hp0 : 0 <= p) by (apply Hpos; now left).
  assert (Hd1 : nth j d1 0
                = if (p =? Z.of_nat j) && keep p then op (nth j d 0) (s (Z.of_nat j))
                  else nth j d 0).
  { subst d1. destruct (keep p); [|now rewrite andb_false_r].
    rewrite nth_store by assumption. rewrite andb_true_r.
    destruct (Z.eqb_spec p (Z.of_nat j)) as [->|Hne].
    - rewrite Nat2Z.id, Nat.eqb_refl. unfold zth. now rewrite Nat2Z.id.
    - destruct (Nat.eqb_spec (Z.to_nat p) j); [lia|reflexivity]. }
  destruct (existsb (fun q => (q =? Z.of_nat j) && keep q) turns) eqn:Hex.
  - rewrite orb_true_r. rewrite Hd1.
    destruct (Z.eqb_spec p (Z.of_nat j)) as [->|Hne]; [|reflexivity].
    exfalso. apply Hp. apply existsb_exists in Hex as (q & Hq & Hqj).
    apply andb_prop in Hqj as [Hqj _]. apply Z.eqb_eq in Hqj. now subst q.
  - rewrite orb_false_r. exact Hd1.
Qed.

(** X14. [elementwise_accumulate] applies the operation once to each of the
    first [length] elements of the destination, with the element of the
    source at the same position, and leaves the other elements as they
    were; the variant with one source element in each lane does so for the
    positions below both [length] and the warp size. *)
Theorem elementwise_accumulate_applies_the_operation_once
    (warp_size : Z) (op : Z -> Z -> Z) (destination source source_element : list Z) (n : Z) :
  0 < warp_size -> n + warp_size <= 2 ^ 32 ->
  0 <= n <= Z.of_nat (length destination) ->
  elementwise_accumulate warp_size op destination source n
  = map (fun p => op (zth destination p) (zth source p)) (zseq 0 (Z.to_nat n))
    ++ skipn (Z.to_nat n) destination
  /\ elementwise_accumulate_element warp_size op destination source_element n
     = map (fun p => op (zth destination p) (zth source_element p))
           (zseq 0 (Z.to_nat (Z.min n warp_size)))
       ++ skipn (Z.to_nat (Z.min n warp_size)) destination.
Proof.
  intros HW Hfit Hn.
  assert (Hshape : forall (m : Z) (result : list Z) (s : Z -> Z),
            0 <= m <= Z.of_nat (length destination) ->
            length result = length destination ->
            (forall j, (j < length destination)%nat ->
               nth j result 0
               = if Z.of_nat j <? m then op (nth j destination 0) (s (Z.of_nat j))
                 else nth j destination 0) ->
            result = map (fun p => op (zth destination p) (s p)) (zseq 0 (Z.to_nat m))
                     ++ skipn (Z.to_nat m) destination).
  { intros m result s Hm Hlen Hnth. apply (nth_ext _ _ 0 0).
    - rewrite Hlen, length_app, length_map, zseq_length, length_skipn. lia.
    - intros j Hj. rewrite Hlen in Hj. rewrite Hnth by assumption.
      destruct (Z.ltb_spec (Z.of_nat j) m).
      + rewrite app_nth1 by (rewrite length_map, zseq_length; lia).
        rewrite (nth_map_in_range _ _ _ 0) by (rewrite zseq_length; lia).
        rewrite nth_zseq by lia. unfold zth. cbn [Z.add]. now rewrite Nat2Z.id.
      + rewrite app_nth2 by (rewrite length_map, zseq_length; lia).
        rewrite length_map, zseq_length, nth_skipn. f_equal. lia. }
  split.
  - apply (Hshape n _ (zth source)); [lia| |].
    + apply (accumulate_turns op (zth source) (fun _ => true)).
      * eapply Permutation_NoDup; [apply Permutation_sym, (warp_stride_positions warp_size n HW Hfit)|].
        apply NoDup_zseq.
      * intros p Hp.
        apply (Permutation_in _ (warp_stride_positions warp_size n HW Hfit)) in Hp.
        apply in_zseq in Hp; lia.
    + intros j Hj. unfold elementwise_accumulate.
      destruct (accumulate_turns op (zth source) (fun _ => true)
                  (by_all_lanes warp_size
                     (fun lane => at_stride (Z.to_nat n) 32 lane warp_size n)))
        with (d := destination) as [_ Hnth].
      * eapply Permutation_NoDup; [apply Permutation_sym, (warp_stride_positions warp_size n HW Hfit)|].
        apply NoDup_zseq.
      * intros p Hp.
        apply (Permutation_in _ (warp_stride_positions warp_size n HW Hfit)) in Hp.
        apply in_zseq in Hp; lia.
      * rewrite Hnth by assumption.
        match goal with
        | |- (if ?e then _ else _) = _ => replace e with (Z.of_nat j <? n); [reflexivity|]
        end.
        symmetry. destruct (Z.ltb_spec (Z.of_nat j) n) as [Hlt|Hge].
        -- apply existsb_exists. exists (Z.of_nat j). split; [|now rewrite Z.eqb_refl].
           apply (Permutation_in _ (Permutation_sym (warp_stride_positions warp_size n HW Hfit))).
           apply in_zseq; lia.
        -- apply not_true_is_false. intros Hex.
           apply existsb_exists in Hex as (p & Hp & Hpj).
           apply (Permutation_in _ (warp_stride_positions warp_size n HW Hfit)) in Hp.
           apply in_zseq in Hp; [|lia]. rewrite andb_true_r in Hpj.
           apply Z.eqb_eq in Hpj. lia.
  - apply (Hshape (Z.min n warp_size) _ (zth source_element)); [lia| |].
    + apply (accumulate_turns op (zth source_element) (fun lane => lane <? n));
        [apply NoDup_zseq|]. intros p Hp. apply in_zseq in Hp; lia.
    + intros j Hj. unfold elementwise_accumulate_element.
      destruct (accumulate_turns op (zth source_element) (fun lane => lane <? n)
                  (zseq 0 (Z.to_nat warp_size)))
        with (d := destination) as [_ Hnth];
        [apply NoDup_zseq|intros p Hp; apply in_zseq in Hp; lia|].
      rewrite Hnth by assumption.
      match goal with
      | |- (if ?e then _ else _) = _ =>
          replace e with (Z.of_nat j <? Z.min n warp_size); [reflexivity|]
      end.
      symmetry. destruct (Z.ltb_spec (Z.of_nat j) (Z.min n warp_size)) as [Hlt|Hge].
      * apply existsb_exists. exists (Z.of_nat j). split; [apply in_zseq; lia|].
        rewrite Z.eqb_refl. apply Z.ltb_lt. lia.
      * apply not_true_is_false. intros Hex.
        apply existsb_exists in Hex as (p & Hp & Hpj). apply in_zseq in Hp; [|lia].
        apply andb_prop in Hpj as [Hpj Hpn]. apply Z.eqb_eq in Hpj. apply Z.ltb_lt in Hpn. lia.
Qed.

Lemma elementwise_accumulate_applies_the_operation_once_witness :
  elementwise_accumulate 4 Z.add [1; 2; 3; 4; 5; 6; 7] [10; 20; 30; 40; 50; 60; 70] 6
  = map (fun p => zth [1; 2; 3; 4; 5; 6; 7] p + zth [10; 20; 30; 40; 50; 60; 70] p)
        (zseq 0 (Z.to_nat 6))
    ++ skipn (Z.to_nat 6) [1; 2; 3; 4; 5; 6; 7]
  /\ elementwise_accumulate_element 4 Z.add [1; 2; 3; 4; 5; 6; 7] [10; 20; 30; 40] 6
     = map (fun p => zth [1; 2; 3; 4; 5; 6; 7] p + zth [10; 20; 30; 40] p)
           (zseq 0 (Z.to_nat (Z.min 6 4)))
       ++ skipn (Z.to_nat (Z.min 6 4)) [1; 2; 3; 4; 5; 6; 7].
Proof.
  apply (elementwise_accumulate_applies_the_operation_once 4 Z.add
           [1; 2; 3; 4; 5; 6; 7] [10; 20; 30; 40; 50; 60; 70] [10; 20; 30; 40] 6); cbn; lia.
Defined.

(** ** [copy_n] with packed writes *)

Lemma flat_map_app_split {A B : Type} (f g : A -> list B) (l : list A) :
  Permutation (flat_map (fun x => f x ++ g x) l) (flat_map f l ++ flat_map g l).
Proof.
  induction l as [|a l IH]; [constructor|].
  cbn [flat_map]. rewrite IH, <- !app_assoc. apply Permutation_app_head.
  rewrite !app_assoc. apply Permutation_app_tail. apply Permutation_app_comm.
Qed.

Lemma clear_lower_bits_of_packing (n e k : Z) :
  0 <= k -> e = 2 ^ k -> clear_lower_k_bits n (log2_constexpr e) = n / e * e.
Proof.
  intros Hk ->. unfold clear_lower_k_bits, log2_constexpr.
  rewrite Z.log2_pow2 by assumption.
  now rewrite Z.shiftr_div_pow2, Z.shiftl_mul_pow2 by assumption.
Qed.

Section PackedFacts.
Variables warp_size e bound fuel : Z.
Variable source : list Z.
Hypothesis He : 0 < e.
Hypothesis Hwarp : 0 < warp_size.
Hypothesis Hbound : bound <= fuel.
Hypothesis Hfit : bound + warp_size * e <= 2 ^ 32.
Hypothesis Hstride : warp_size * e < 2 ^ 32.

(** The element writes of the packed writes of a lane. *)
Local Notation packed_of lane :=
  (flat_map
     (fun pos => map (fun k => mk_write (pos + k) (zth source (pos + k)))
                     (zseq 0 (Z.to_nat e)))
     (at_stride (Z.to_nat fuel) 32 (wrap32 (lane * e)) (wrap32 (warp_size * e)) bound)).

Lemma in_packed_positions (lane pos : Z) :
  0 <= lane < warp_size ->
  In pos (at_stride (Z.to_nat fuel) 32 (wrap32 (lane * e)) (wrap32 (warp_size * e)) bound)
  <-> exists q, 0 <= q /\ pos = (lane + q * warp_size) * e /\ pos < bound.
Proof.
  intros Hlane. unfold wrap32.
  assert (0 <= lane * e < warp_size * e) by nia.
  rewrite !wrap_small by lia.
  rewrite in_at_stride by lia.
  split; intros (q & Hq & -> & Hp); exists q; (split; [assumption|split; [ring|lia]]).
Qed.

Lemma in_packed (w : write) :
  In w (by_all_lanes warp_size (fun lane => packed_of lane))
  <-> exists p, 0 <= p /\ p / e * e < bound /\ w = mk_write p (zth source p).
Proof.
  unfold by_all_lanes. rewrite in_flat_map. split.
  - intros (lane & Hlane & Hin). apply in_zseq in Hlane; [|lia].
    apply in_flat_map in Hin as (pos & Hpos & Hin).
    apply in_packed_positions in Hpos as (q & Hq & -> & Hlt); [|lia].
    apply in_map_iff in Hin as (k & <- & Hk). apply in_zseq in Hk; [|lia].
    exists ((lane + q * warp_size) * e + k).
    assert (0 <= lane + q * warp_size) by nia.
    split; [nia|]. split; [|reflexivity].
    rewrite div_of_lane by lia. lia.
  - intros (p & Hp & Hlt & ->).
    pose proof (position_in_chunk e p He) as Hchunk.
    assert (Hc : 0 <= p / e) by (apply Z.div_pos; lia).
    pose proof (Z.div_mod (p / e) warp_size ltac:(lia)) as Hdiv.
    pose proof (Z.mod_pos_bound (p / e) warp_size Hwarp) as Hmod.
    exists ((p / e) mod warp_size). split; [apply in_zseq; lia|].
    apply in_flat_map. exists (p / e * e). split.
    + apply in_packed_positions; [lia|]. exists (p / e / warp_size).
      split; [apply Z.div_pos; lia|]. split; [|assumption]. f_equal. lia.
    + apply in_map_iff. exists (p - p / e * e). split; [f_equal; [lia|f_equal; lia]|].
      apply in_zseq; lia.
Qed.

Lemma NoDup_packed_positions :
  NoDup (map w_pos (by_all_lanes warp_size (fun lane => packed_of lane))).
Proof.
  unfold by_all_lanes. rewrite map_flat_map.
  apply (NoDup_flat_map_keyed _ (fun p => (p / e) mod warp_size)); [apply NoDup_zseq| |].
  - intros lane Hlane. apply in_zseq in Hlane; [|lia]. rewrite map_flat_map.
    apply (NoDup_flat_map_keyed _ (fun p => p / e * e)).
    + unfold wrap32. assert (0 <= lane * e < warp_size * e) by nia.
      rewrite !wrap_small by lia. apply NoDup_at_stride; lia.
    + intros pos _. rewrite map_map. cbn [w_pos].
      apply Finite.Injective_map_NoDup; [|apply NoDup_zseq]. intros a b Hab. lia.
    + intros pos p Hpos Hp.
      apply in_packed_positions in Hpos as (q & Hq & -> & Hlt); [|lia].
      apply in_map_iff in Hp as (wr & <- & Hwr).
      apply in_map_iff in Hwr as (k & <- & Hk). apply in_zseq in Hk; [|lia].
      cbn [w_pos]. rewrite div_of_lane by lia. reflexivity.
  - intros lane p Hlane Hp. apply in_zseq in Hlane; [|lia].
    apply in_map_iff in Hp as (wr & <- & Hwr).
    apply in_flat_map in Hwr as (pos & Hpos & Hwr).
    apply in_packed_positions in Hpos as (q & Hq & -> & Hlt); [|lia].
    apply in_map_iff in Hwr as (k & <- & Hk). apply in_zseq in Hk; [|lia].
    cbn [w_pos]. rewrite div_of_lane by lia. apply mod_of_thread. lia.
Qed.
End PackedFacts.

(** The writes of [copy_n] for elements of 1 or 2 bytes, [e] of which make a
    packed write: the packed writes below [bound] and the slack writes. *)
Lemma copy_n_packed_shape (warp_size sizeof_T e : Z) (MayHaveSlack : bool)
    (source : list Z) (n : Z) :
  (sizeof_T = 1 /\ e = 4) \/ (sizeof_T = 2 /\ e = 2) ->
  let bound := if MayHaveSlack then n / e * e else n in
  copy_n warp_size sizeof_T MayHaveSlack source n
  = by_all_lanes warp_size
      (fun lane =>
         flat_map
           (fun pos => map (fun k => mk_write (pos + k) (zth source (pos + k)))
                           (zseq 0 (Z.to_nat e)))
           (at_stride (Z.to_nat n) 32 (wrap32 (lane * e)) (wrap32 (warp_size * e)) bound)
         ++ (if MayHaveSlack then
               if e =? 2 then [mk_write bound (zth source bound)]
               else if lane <? wrap32 (n - bound)
                    then [mk_write (wrap32 (bound + lane)) (zth source (wrap32 (bound + lane)))]
                    else []
             else [])).
Proof.
  intros Hsize bound. unfold copy_n, by_all_lanes. apply flat_map_agree. intros lane _.
  unfold copy_n_lane.
  destruct Hsize as [[-> ->]|[-> ->]].
  - change (elements_per_full_warp_write 1) with 4. cbn [Z.eqb Pos.eqb orb negb].
    subst bound. rewrite (clear_lower_bits_of_packing n 4 2) by (reflexivity || lia).
    reflexivity.
  - change (elements_per_full_warp_write 2) with 2. cbn [Z.eqb Pos.eqb orb negb].
    subst bound. rewrite (clear_lower_bits_of_packing n 2 1) by (reflexivity || lia).
    reflexivity.
Qed.

Lemma in_by_all_lanes_app {A : Type} (warp_size : Z) (f g : Z -> list A) (x : A) :
  In x (by_all_lanes warp_size (fun lane => f lane ++ g lane))
  <-> In x (by_all_lanes warp_size f) \/ In x (by_all_lanes warp_size g).
Proof.
  unfold by_all_lanes. rewrite <- in_app_iff. split; apply Permutation_in.
  - apply flat_map_app_split.
  - apply Permutation_sym, flat_map_app_split.
Qed.

Lemma chunk_below (e n p : Z) : 0 < e -> (p / e * e < n / e * e <-> p < n / e * e).
Proof.
  intros He. pose proof (position_in_chunk e p He) as Hchunk.
  split; intros Hlt.
  - assert (p / e < n / e) by nia. nia.
  - assert (p / e < n / e) by (apply Z.div_lt_upper_bound; lia). nia.
Qed.

(** X15. [copy_n] of one-byte elements, four to a packed write: when the
    warp has at least 3 lanes and the length and one stride fit 32 bits,
    every position below [length] is written exactly once, and afterwards
    the target holds the first [length] elements of the source followed by
    what it held before. *)
Theorem copy_n_of_bytes_writes_each_element_once
    (warp_size : Z) (source target : list Z) (n : Z) :
  3 <= warp_size -> n + warp_size * 4 < 2 ^ 32 ->
  0 <= n <= Z.of_nat (length source) -> n <= Z.of_nat (length target) ->
  Permutation (map w_pos (copy_n warp_size 1 true source n)) (zseq 0 (Z.to_nat n))
  /\ apply_writes (copy_n warp_size 1 true source n) target
     = firstn (Z.to_nat n) source ++ skipn (Z.to_nat n) target.
Proof.
  intros HW Hfit Hsrc Htgt.
  rewrite (copy_n_packed_shape warp_size 1 4 true source n) by auto.
  cbv zeta. cbn [Z.eqb Pos.eqb].
  assert (Hn : n / 4 * 4 <= n < n / 4 * 4 + 4)
    by (pose proof (position_in_chunk 4 n ltac:(lia)); lia).
  set (bound := n / 4 * 4) in *.
  assert (Hslack : wrap32 (n - bound) = n - bound) by (apply wrap_small; lia).
  rewrite Hslack.
  set (packed := fun lane : Z =>
         flat_map
           (fun pos => map (fun k => mk_write (pos + k) (zth source (pos + k)))
                           (zseq 0 (Z.to_nat 4)))
           (at_stride (Z.to_nat n) 32 (wrap32 (lane * 4)) (wrap32 (warp_size * 4)) bound)).
  set (slack := fun lane : Z =>
         if lane <? n - bound
         then [mk_write (wrap32 (bound + lane)) (zth source (wrap32 (bound + lane)))]
         else []).
  assert (Hpacked : forall w, In w (by_all_lanes warp_size packed)
                              <-> exists p, 0 <= p < bound /\ w = mk_write p (zth source p)).
  { intros w. subst packed.
    rewrite (in_packed warp_size 4 bound n source) by lia.
    split; intros (p & Hp & Hw).
    - destruct Hw as [Hlt ->]. exists p. split; [|reflexivity].
      apply (chunk_below 4 n p) in Hlt; lia.
    - exists p. split; [lia|]. split; [|assumption].
      apply (chunk_below 4 n p); lia. }
  assert (Hin_slack : forall w, In w (by_all_lanes warp_size slack)
                                <-> exists p, bound <= p < n /\ w = mk_write p (zth source p)).
  { intros w. unfold by_all_lanes. rewrite in_flat_map. subst slack. cbv beta. split.
    - intros (lane & Hlane & Hw). apply in_zseq in Hlane; [|lia].
      destruct (Z.ltb_spec lane (n - bound)); [|destruct Hw].
      destruct Hw as [<-|[]]. unfold wrap32. rewrite wrap_small by lia.
      exists (bound + lane). split; [lia|reflexivity].
    - intros (p & Hp & ->). exists (p - bound). split; [apply in_zseq; lia|].
      destruct (Z.ltb_spec (p - bound) (n - bound)); [|lia].
      unfold wrap32. rewrite wrap_small by lia.
      replace (bound + (p - bound)) with p by lia. now left. }
  assert (Hin : forall w, In w (by_all_lanes warp_size (fun lane => packed lane ++ slack lane))
                          <-> exists p, 0 <= p < n /\ w = mk_write p (zth source p)).
  { intros w. rewrite in_by_all_lanes_app, Hpacked, Hin_slack. split.
    - intros [(p & Hp & ->)|(p & Hp & ->)]; exists p; (split; [lia|reflexivity]).
    - intros (p & Hp & ->). destruct (Z.ltb_spec p bound); [left|right];
        exists p; (split; [lia|reflexivity]). }
  split.
  - apply NoDup_Permutation; [|apply NoDup_zseq|].
    + unfold by_all_lanes.
      apply (Permutation_NoDup
               (Permutation_sym (Permutation_map w_pos (flat_map_app_split packed slack _)))).
      rewrite map_app. apply NoDup_app.
      * subst packed. apply (NoDup_packed_positions warp_size 4 bound n source); lia.
      * rewrite map_flat_map.
        apply (NoDup_flat_map_keyed _ (fun p => p - bound)); [apply NoDup_zseq| |].
        -- intros lane _. subst slack. cbv beta.
           destruct (lane <? n - bound); cbn; repeat constructor. intros [].
        -- intros lane p Hlane Hp. apply in_zseq in Hlane; [|lia]. subst slack. cbv beta in Hp.
           destruct (Z.ltb_spec lane (n - bound)); [|destruct Hp].
           destruct Hp as [<-|[]]. cbn [w_pos]. unfold wrap32. rewrite wrap_small by lia. lia.
      * intros p Hp Hs.
        apply in_map_iff in Hp as (w & <- & Hw). apply Hpacked in Hw as (q & Hq & ->).
        apply in_map_iff in Hs as (w' & Heq & Hw'). apply Hin_slack in Hw' as (q' & Hq' & ->).
        cbn in Heq. lia.
    + intros p. rewrite in_zseq by lia. rewrite in_map_iff. split.
      * intros (w & <- & Hw). apply Hin in Hw as (q & Hq & ->). cbn. lia.
      * intros Hp. exists (mk_write p (zth source p)). split; [reflexivity|].
        apply Hin. exists p. split; [lia|reflexivity].
  - rewrite <- map_zth_zseq by lia. apply apply_writes_prefix; [lia|]. exact Hin.
Qed.

Lemma copy_n_of_bytes_writes_each_element_once_witness :
  Permutation (map w_pos (copy_n 4 1 true [1; 2; 3; 4; 5; 6; 7; 8; 9; 10; 11; 12] 11))
              (zseq 0 (Z.to_nat 11))
  /\ apply_writes (copy_n 4 1 true [1; 2; 3; 4; 5; 6; 7; 8; 9; 10; 11; 12] 11)
       [0; 0; 0; 0; 0; 0; 0; 0; 0; 0; 0; 0]
     = firstn (Z.to_nat 11) [1; 2; 3; 4; 5; 6; 7; 8; 9; 10; 11; 12]
       ++ skipn (Z.to_nat 11) [0; 0; 0; 0; 0; 0; 0; 0; 0; 0; 0; 0].
Proof.
  apply (copy_n_of_bytes_writes_each_element_once 4
           [1; 2; 3; 4; 5; 6; 7; 8; 9; 10; 11; 12] [0; 0; 0; 0; 0; 0; 0; 0; 0; 0; 0; 0] 11);
    cbn; lia.
Defined.

(** X16. [copy_n] of two-byte elements, two to a packed write: the packed
    writes take the positions below [length] rounded down to an even number,
    and every lane then writes the element at that even position. For an odd
    length the target ends with the first [length] elements of the source;
    for an even length it ends with one element more. *)
Theorem copy_n_of_two_byte_elements_writes_up_to_the_even_position
    (warp_size : Z) (source target : list Z) (n : Z) :
  0 < warp_size -> n + warp_size * 2 < 2 ^ 32 -> 0 <= n ->
  n / 2 * 2 < Z.of_nat (length source) -> n / 2 * 2 < Z.of_nat (length target) ->
  (forall p, In p (map w_pos (copy_n warp_size 2 true source n)) <-> 0 <= p <= n / 2 * 2)
  /\ apply_writes (copy_n warp_size 2 true source n) target
     = firstn (Z.to_nat (n / 2 * 2 + 1)) source ++ skipn (Z.to_nat (n / 2 * 2 + 1)) target.
Proof.
  intros HW Hfit Hn0 Hsrc Htgt.
  rewrite (copy_n_packed_shape warp_size 2 2 true source n) by auto.
  cbv zeta. cbn [Z.eqb Pos.eqb].
  assert (Hn : n / 2 * 2 <= n < n / 2 * 2 + 2)
    by (pose proof (position_in_chunk 2 n ltac:(lia)); lia).
  assert (Hb0 : 0 <= n / 2 * 2) by (pose proof (Z.div_pos n 2); lia).
  set (bound := n / 2 * 2) in *.
  set (packed := fun lane : Z =>
         flat_map
           (fun pos => map (fun k => mk_write (pos + k) (zth source (pos + k)))
                           (zseq 0 (Z.to_nat 2)))
           (at_stride (Z.to_nat n) 32 (wrap32 (lane * 2)) (wrap32 (warp_size * 2)) bound)).
  assert (Hpacked : forall w, In w (by_all_lanes warp_size packed)
                              <-> exists p, 0 <= p < bound /\ w = mk_write p (zth source p)).
  { intros w. subst packed.
    rewrite (in_packed warp_size 2 bound n source) by lia.
    split; intros (p & Hp & Hw).
    - destruct Hw as [Hlt ->]. exists p. split; [|reflexivity].
      apply (chunk_below 2 n p) in Hlt; lia.
    - exists p. split; [lia|]. split; [|assumption].
      apply (chunk_below 2 n p); lia. }
  assert (Hin : forall w,
            In w (by_all_lanes warp_size
                    (fun lane => packed lane ++ [mk_write bound (zth source bound)]))
            <-> exists p, 0 <= p < bound + 1 /\ w = mk_write p (zth source p)).
  { intros w.
    rewrite (in_by_all_lanes_app warp_size packed
               (fun _ => [mk_write bound (zth source bound)])), Hpacked.
    unfold by_all_lanes. rewrite in_flat_map. split.
    - intros [(p & Hp & ->)|(lane & _ & [<-|[]])];
        [exists p|exists bound]; (split; [lia|reflexivity]).
    - intros (p & Hp & ->). destruct (Z.ltb_spec p bound); [left|right].
      + exists p. split; [lia|reflexivity].
      + exists 0. split; [apply in_zseq; lia|]. left. f_equal; [lia|f_equal; lia]. }
  split.
  - intros p. rewrite in_map_iff. split.
    + intros (w & <- & Hw). apply Hin in Hw as (q & Hq & ->). cbn. lia.
    + intros Hp. exists (mk_write p (zth source p)). split; [reflexivity|].
      apply Hin. exists p. split; [lia|reflexivity].
  - rewrite <- map_zth_zseq by lia. apply apply_writes_prefix; [lia|]. exact Hin.
Qed.

Lemma copy_n_of_two_byte_elements_writes_up_to_the_even_position_witness :
  (forall p, In p (map w_pos (copy_n 4 2 true [1; 2; 3; 4; 5; 6; 7; 8; 9; 10; 11; 12] 10))
             <-> 0 <= p <= 10 / 2 * 2)
  /\ apply_writes (copy_n 4 2 true [1; 2; 3; 4; 5; 6; 7; 8; 9; 10; 11; 12] 10)
       [0; 0; 0; 0; 0; 0; 0; 0; 0; 0; 0; 0]
     = firstn (Z.to_nat (10 / 2 * 2 + 1)) [1; 2; 3; 4; 5; 6; 7; 8; 9; 10; 11; 12]
       ++ skipn (Z.to_nat (10 / 2 * 2 + 1)) [0; 0; 0; 0; 0; 0; 0; 0; 0; 0; 0; 0].
Proof.
  apply (copy_n_of_two_byte_elements_writes_up_to_the_even_position 4
           [1; 2; 3; 4; 5; 6; 7; 8; 9; 10; 11; 12] [0; 0; 0; 0; 0; 0; 0; 0; 0; 0; 0; 0] 10);
    cbn; lia.
Defined.

(** X17. Without [MayHaveSlack], [copy_n] of elements of 1 or 2 bytes makes
    packed writes only: every position below [length] rounded up to a whole
    number of packed writes is written exactly once; when the length is such
    a whole number, as [MayHaveSlack = false] promises, these are the
    positions below [length]. *)
Theorem copy_n_without_slack_writes_whole_packed_writes
    (warp_size sizeof_T e : Z) (source target : list Z) (n : Z) :
  (sizeof_T = 1 /\ e = 4) \/ (sizeof_T = 2 /\ e = 2) ->
  0 < warp_size -> n + warp_size * e < 2 ^ 32 -> 0 <= n ->
  div_rounding_up n e * e <= Z.of_nat (length source) ->
  div_rounding_up n e * e <= Z.of_nat (length target) ->
  Permutation (map w_pos (copy_n warp_size sizeof_T false source n))
              (zseq 0 (Z.to_nat (div_rounding_up n e * e)))
  /\ apply_writes (copy_n warp_size sizeof_T false source n) target
     = firstn (Z.to_nat (div_rounding_up n e * e)) source
       ++ skipn (Z.to_nat (div_rounding_up n e * e)) target
  /\ (n mod e = 0 -> div_rounding_up n e * e = n).
Proof.
  intros Hsize HW Hfit Hn0 Hsrc Htgt.
  assert (He : 0 < e) by (destruct Hsize as [[_ ->]|[_ ->]]; lia).
  rewrite (copy_n_packed_shape warp_size sizeof_T e false source n) by assumption.
  cbv beta iota zeta.
  assert (Hup : forall p, 0 <= p -> (p / e * e < n <-> p < div_rounding_up n e * e)).
  { intros p Hp. unfold div_rounding_up.
    pose proof (position_in_chunk e p He) as Hchunk.
    pose proof (position_in_chunk e (n + e - 1) He) as Hround.
    split; intros Hlt.
    - assert (p / e < (n + e - 1) / e); [|nia].
      destruct (Z_lt_le_dec (p / e) ((n + e - 1) / e)) as [|Hge]; [assumption|exfalso].
      assert ((n + e - 1) / e * e <= p / e * e) by (apply Z.mul_le_mono_nonneg_r; lia).
      lia.
    - assert (p / e < (n + e - 1) / e) by (apply Z.div_lt_upper_bound; lia).
      assert ((p / e + 1) * e <= (n + e - 1) / e * e) by (apply Z.mul_le_mono_nonneg_r; lia).
      lia. }
  assert (Hm0 : 0 <= div_rounding_up n e * e).
  { apply Z.mul_nonneg_nonneg; [|lia]. unfold div_rounding_up. apply Z.div_pos; lia. }
  set (m := div_rounding_up n e * e) in *.
  set (packed := fun lane : Z =>
         flat_map
           (fun pos => map (fun k => mk_write (pos + k) (zth source (pos + k)))
                           (zseq 0 (Z.to_nat e)))
           (at_stride (Z.to_nat n) 32 (wrap32 (lane * e)) (wrap32 (warp_size * e)) n)).
  assert (Hsame : by_all_lanes warp_size (fun lane => packed lane ++ [])
                  = by_all_lanes warp_size packed).
  { unfold by_all_lanes. apply flat_map_agree. intros lane _. apply app_nil_r. }
  cbv beta delta [packed] in Hsame. rewrite Hsame. clear Hsame.
  assert (Hin : forall w, In w (by_all_lanes warp_size packed)
                          <-> exists p, 0 <= p < m /\ w = mk_write p (zth source p)).
  { intros w. subst packed.
    rewrite (in_packed warp_size e n n source) by lia.
    split; intros (p & Hp & Hw).
    - destruct Hw as [Hlt ->]. exists p. split; [|reflexivity].
      apply Hup in Hlt; lia.
    - exists p. split; [lia|]. split; [|assumption]. apply Hup; lia. }
  split; [|split].
  - apply NoDup_Permutation; [|apply NoDup_zseq|].
    + subst packed. apply (NoDup_packed_positions warp_size e n n source); lia.
    + intros p. rewrite in_zseq by lia. rewrite in_map_iff. split.
      * intros (w & <- & Hw). apply Hin in Hw as (q & Hq & ->). cbn. lia.
      * intros Hp. exists (mk_write p (zth source p)). split; [reflexivity|].
        apply Hin. exists p. split; [lia|reflexivity].
  - rewrite <- map_zth_zseq by lia. apply apply_writes_prefix; [lia|]. exact Hin.
  - intros Hmod. subst m. unfold div_rounding_up.
    pose proof (Z.div_mod n e ltac:(lia)) as Hdiv. rewrite Hmod in Hdiv.
    replace (n + e - 1) with (e - 1 + n / e * e) by lia.
    rewrite Z.div_add, Z.div_small by lia. lia.
Qed.

Lemma copy_n_without_slack_writes_whole_packed_writes_witness :
  Permutation (map w_pos (copy_n 4 1 false [1; 2; 3; 4; 5; 6; 7; 8; 9; 10; 11; 12] 10))
              (zseq 0 (Z.to_nat (div_rounding_up 10 4 * 4)))
  /\ apply_writes (copy_n 4 1 false [1; 2; 3; 4; 5; 6; 7; 8; 9; 10; 11; 12] 10)
       [0; 0; 0; 0; 0; 0; 0; 0; 0; 0; 0; 0]
     = firstn (Z.to_nat (div_rounding_up 10 4 * 4)) [1; 2; 3; 4; 5; 6; 7; 8; 9; 10; 11; 12]
       ++ skipn (Z.to_nat (div_rounding_up 10 4 * 4)) [0; 0; 0; 0; 0; 0; 0; 0; 0; 0; 0; 0]
  /\ (10 mod 4 = 0 -> div_rounding_up 10 4 * 4 = 10).
Proof.
  apply (copy_n_without_slack_writes_whole_packed_writes 4 1 4
           [1; 2; 3; 4; 5; 6; 7; 8; 9; 10; 11; 12] [0; 0; 0; 0; 0; 0; 0; 0; 0; 0; 0; 0] 10);
    cbn; lia.
Defined.

(** ** [compute_predicate_at_warp_stride] *)

Lemma zseq_snoc (k : nat) : zseq 0 (S k) = zseq 0 k ++ [Z.of_nat k].
Proof. unfold zseq. now rewrite seq_S, map_app. Qed.

Lemma zseq_app (i : Z) (n m : nat) :
  0 <= i -> zseq i (n + m) = zseq i n ++ zseq (i + Z.of_nat n) m.
Proof.
  intros Hi. unfold zseq. rewrite seq_app, map_app. do 3 f_equal. lia.
Qed.

Lemma flat_map_singleton {A B : Type} (h : A -> B) (l : list A) :
  flat_map (fun x => [h x]) l = map h l.
Proof. induction l as [|a l IH]; [reflexivity|]. cbn. now rewrite IH. Qed.

Lemma flat_map_below {B : Type} (h : Z -> B) (n m : nat) :
  (n <= m)%nat ->
  flat_map (fun x => if x <? Z.of_nat n then [h x] else []) (zseq 0 m) = map h (zseq 0 n).
Proof.
  intros Hnm. replace m with (n + (m - n))%nat by lia.
  rewrite zseq_app, flat_map_app by lia.
  rewrite (flat_map_agree _ (fun x => [h x]) (zseq 0 n)), flat_map_singleton.
  - rewrite (flat_map_agree _ (fun _ => []) (zseq _ _)).
    + replace (flat_map (fun _ : Z => @nil B) (zseq (0 + Z.of_nat n) (m - n))) with (@nil B)
        by (induction (zseq (0 + Z.of_nat n) (m - n)); auto).
      apply app_nil_r.
    + intros x Hx. apply in_zseq in Hx; [|lia].
      destruct (Z.ltb_spec x (Z.of_nat n)); [lia|reflexivity].
  - intros x Hx. apply in_zseq in Hx; [|lia].
    destruct (Z.ltb_spec x (Z.of_nat n)); [reflexivity|lia].
Qed.

Lemma sequence_some {A : Type} (l : list A) : sequence (map Some l) = Some l.
Proof.
  rewrite (sequence_map_some Some (fun x => x)) by reflexivity. now rewrite map_id.
Qed.

Lemma lane_at_lanes_with (groups base : Z) (buffer : Z -> option Z) (lane : Z) :
  0 <= lane < 32 ->
  lane_at (lanes_with groups base buffer) lane
  = mk_predicate_lane (lane + 32 * groups) (lane + base) (buffer lane).
Proof.
  intros Hlane. unfold lane_at, lanes_with.
  rewrite (nth_map_in_range _ _ _ 0) by (rewrite zseq_length; lia).
  rewrite nth_zseq by lia. rewrite Z2Nat.id by lia. reflexivity.
Qed.

Lemma lanes_with_agree (groups base : Z) (buffer buffer' : Z -> option Z) :
  (forall lane, 0 <= lane < 32 -> buffer lane = buffer' lane) ->
  lanes_with groups base buffer = lanes_with groups base buffer'.
Proof.
  intros Hagree. unfold lanes_with. apply map_ext_in. intros lane Hlane.
  apply in_zseq in Hlane; [|lia]. now rewrite Hagree by lia.
Qed.

Section ComputePredicateFacts.
Variable predicate : Z -> bool.
Variable PossibilityOfSlack : predicate_computation_length_slack_t.
Variable length : Z.
Hypothesis Hfit : length + 32 <= 2 ^ 32.

Local Notation word := (predicate_word predicate length).
Local Notation reads := (full_warp_reads_output_length length).
Local Notation writes := (full_warp_writes_output_length PossibilityOfSlack length).

(** A ballot on a whole group of 32 inputs, all lanes taking part. *)
Lemma ballot_turn_whole_group (take_part : predicate_lane -> bool) (groups base : Z)
    (buffer : Z -> option Z) (writing_lane : Z) :
  0 <= groups -> 32 * groups + 32 <= length ->
  (forall l, In l (lanes_with groups base buffer) -> take_part l = true) ->
  ballot_turn take_part (fun l => predicate (input_pos l)) true
    (lanes_with groups base buffer) writing_lane
  = lanes_with (groups + 1) base
      (fun lane => if lane =? writing_lane then Some (word groups) else buffer lane).
Proof.
  intros Hg Hwhole Hpart. unfold ballot_turn. cbv zeta.
  set (lanes := lanes_with groups base buffer) in *.
  unfold lanes_with. subst lanes.
  apply map_ext_in. intros lane Hlane. apply in_zseq in Hlane; [|lia].
  rewrite lane_at_lanes_with by lia.
  rewrite Hpart
    by (apply (in_map (fun lane => mk_predicate_lane (lane + 32 * groups) (lane + base)
                                     (buffer lane))); apply in_zseq; lia).
  cbn [input_pos output_pos warp_results_write_buffer].
  unfold wrap32. rewrite wrap_small by lia.
  f_equal; try lia.
  destruct (lane =? writing_lane); [|reflexivity]. f_equal.
  unfold predicate_word. f_equal. apply map_ext_in. intros b Hb.
  apply in_zseq in Hb; [|lia]. rewrite lane_at_lanes_with by lia.
  rewrite Hpart
    by (apply (in_map (fun lane => mk_predicate_lane (lane + 32 * groups) (lane + base)
                                     (buffer lane))); apply in_zseq; lia).
  cbn [input_pos andb].
  destruct (Z.ltb_spec (32 * groups + b) length); [|lia].
  cbn [andb]. f_equal. lia.
Qed.

(** The ballots of the lanes [0 .. k-1] in a row. *)
Lemma ballot_turns_whole_groups (take_part : predicate_lane -> bool) (groups base : Z)
    (k : nat) :
  0 <= groups -> 32 * (groups + Z.of_nat k) <= length -> (k <= 32)%nat ->
  (forall g buffer l, In l (lanes_with g base buffer) -> take_part l = true) ->
  fold_left (ballot_turn take_part (fun l => predicate (input_pos l)) true)
    (zseq 0 k) (lanes_with groups base (fun _ => None))
  = lanes_with (groups + Z.of_nat k) base
      (fun lane => if lane <? Z.of_nat k then Some (word (groups + lane)) else None).
Proof.
  intros Hg Hwhole Hk Hpart. induction k as [|k IH].
  - cbn [zseq seq map fold_left]. rewrite Z.add_0_r. apply lanes_with_agree.
    intros lane Hlane. destruct (Z.ltb_spec lane (Z.of_nat 0)); [lia|reflexivity].
  - rewrite zseq_snoc, fold_left_app. cbn [fold_left]. rewrite IH by lia.
    rewrite ballot_turn_whole_group by (try apply Hpart; lia).
    replace (groups + Z.of_nat k + 1) with (groups + Z.of_nat (S k)) by lia.
    apply lanes_with_agree. intros lane Hlane.
    destruct (Z.eqb_spec lane (Z.of_nat k)) as [->|Hne].
    + destruct (Z.ltb_spec (Z.of_nat k) (Z.of_nat (S k))); [reflexivity|lia].
    + destruct (Z.ltb_spec lane (Z.of_nat k)), (Z.ltb_spec lane (Z.of_nat (S k)));
        try reflexivity; lia.
Qed.

Lemma declare_buffer_all (take_part : predicate_lane -> bool) (groups base : Z)
    (buffer : Z -> option Z) :
  (forall l, In l (lanes_with groups base buffer) -> take_part l = true) ->
  declare_buffer take_part (lanes_with groups base buffer)
  = lanes_with groups base (fun _ => None).
Proof.
  intros Hpart. unfold declare_buffer.
  set (lanes := lanes_with groups base buffer) in Hpart.
  unfold lanes_with. rewrite map_map. subst lanes.
  apply map_ext_in. intros lane Hlane.
  rewrite Hpart
    by (apply (in_map (fun lane => mk_predicate_lane (lane + 32 * groups) (lane + base)
                                     (buffer lane))); assumption).
  reflexivity.
Qed.

Lemma reads_eq : reads = length / 32.
Proof. unfold full_warp_reads_output_length. now rewrite Z.shiftr_div_pow2 by lia. Qed.

Lemma in_full_writes_lanes (turn g : Z) (buffer : Z -> option Z) (l : predicate_lane) :
  32 * turn + 32 <= writes ->
  In l (lanes_with g (32 * turn) buffer) ->
  in_full_writes PossibilityOfSlack length l = true.
Proof.
  intros Hturn Hl. apply in_map_iff in Hl as (lane & <- & Hlane).
  apply in_zseq in Hlane; [|lia]. unfold in_full_writes. cbn [output_pos].
  apply Z.ltb_lt. lia.
Qed.

(** A turn of the loop over [output_pos] in which the whole warp takes
    part. *)
Lemma full_write_turn_whole_warp (turn : Z) (buffer : Z -> option Z) :
  0 <= turn -> 32 * turn + 32 <= writes -> writes <= reads ->
  full_write_turn predicate PossibilityOfSlack length
    (lanes_with (32 * turn) (32 * turn) buffer)
  = (lanes_with (32 * (turn + 1)) (32 * (turn + 1))
       (fun lane => Some (word (32 * turn + lane))),
     map (fun p => Some (mk_write p (word p))) (zseq (32 * turn) 32)).
Proof.
  intros Ht Hturn Hreads. unfold full_write_turn.
  pose proof reads_eq as Hr. pose proof (position_in_chunk 32 length ltac:(lia)) as Hchunk.
  rewrite declare_buffer_all by (intros l; apply in_full_writes_lanes; lia).
  rewrite (ballot_turns_whole_groups _ (32 * turn) (32 * turn) 32);
    [|lia|lia|lia|intros g b l; apply in_full_writes_lanes; lia].
  f_equal.
  - unfold lanes_with. rewrite map_map. apply map_ext_in. intros lane Hlane.
    apply in_zseq in Hlane; [|lia]. unfold in_full_writes. cbn [output_pos input_pos
      warp_results_write_buffer].
    destruct (Z.ltb_spec (lane + 32 * turn) writes); [|lia].
    unfold wrap32. rewrite wrap_small by lia.
    destruct (Z.ltb_spec lane (Z.of_nat 32)); [|lia]. f_equal; lia.
  - unfold lanes_with. rewrite flat_map_map.
    rewrite (flat_map_agree _
               (fun lane => [Some (mk_write (32 * turn + lane) (word (32 * turn + lane)))])).
    + rewrite flat_map_singleton, (zseq_shift (32 * turn)) by lia. now rewrite map_map.
    + intros lane Hlane. apply in_zseq in Hlane; [|lia].
      unfold in_full_writes, store_buffer.
      cbn [output_pos input_pos warp_results_write_buffer].
      destruct (Z.ltb_spec (lane + 32 * turn) writes); [|lia].
      destruct (Z.ltb_spec lane (Z.of_nat 32)); [|lia].
      cbn [option_map]. do 3 f_equal. lia.
Qed.

Lemma no_lane_in_full_writes (turns g : Z) (buffer : Z -> option Z) :
  writes = 32 * turns ->
  forallb (fun l => negb (in_full_writes PossibilityOfSlack length l))
    (lanes_with g (32 * turns) buffer) = true.
Proof.
  intros Hw. apply forallb_forall. intros l Hl.
  apply in_map_iff in Hl as (lane & <- & Hlane). apply in_zseq in Hlane; [|lia].
  unfold in_full_writes. cbn [output_pos].
  destruct (Z.ltb_spec (lane + 32 * turns) writes); [lia|reflexivity].
Qed.

(** The loop over [output_pos] when the number of full writes is a multiple
    of 32: the words of all the outputs below that number, in order. *)
Lemma full_writes_spec (turns : Z) (left : nat) (fuel : nat) (buffer : Z -> option Z) :
  writes = 32 * turns -> writes <= reads ->
  0 <= turns - Z.of_nat left -> (left <= fuel)%nat ->
  exists buffer',
    full_writes predicate PossibilityOfSlack length fuel
      (lanes_with (32 * (turns - Z.of_nat left)) (32 * (turns - Z.of_nat left)) buffer)
    = Some (lanes_with writes writes buffer',
            map (fun p => Some (mk_write p (word p)))
                (zseq (32 * (turns - Z.of_nat left)) (32 * left))).
Proof.
  intros Hw Hreads. revert fuel buffer.
  induction left as [|left IH]; intros fuel buffer Hturn Hfuel.
  - exists buffer. replace (turns - Z.of_nat 0) with turns by lia. rewrite <- Hw.
    destruct fuel; cbn [full_writes]; rewrite Hw, no_lane_in_full_writes by assumption;
      reflexivity.
  - destruct fuel as [|fuel]; [lia|]. cbn [full_writes].
    set (turn := turns - Z.of_nat (S left)) in *.
    assert (Hin : forallb (fun l => negb (in_full_writes PossibilityOfSlack length l))
                    (lanes_with (32 * turn) (32 * turn) buffer) = false).
    { apply not_true_is_false. intros Hall. rewrite forallb_forall in Hall.
      specialize (Hall (mk_predicate_lane (0 + 32 * (32 * turn)) (0 + 32 * turn) (buffer 0))).
      unfold in_full_writes in Hall. cbn [output_pos] in Hall.
      destruct (Z.ltb_spec (0 + 32 * turn) writes); [|lia].
      assert (negb true = true); [|discriminate]. apply Hall.
      apply (in_map (fun lane => mk_predicate_lane (lane + 32 * (32 * turn))
                                   (lane + 32 * turn) (buffer lane))).
      apply in_zseq; lia. }
    rewrite Hin, full_write_turn_whole_warp by lia.
    replace (turn + 1) with (turns - Z.of_nat left) by lia.
    destruct (IH fuel (fun lane => Some (word (32 * turn + lane))) ltac:(lia) ltac:(lia))
      as (buffer' & ->).
    exists buffer'. f_equal. f_equal. rewrite <- map_app. f_equal.
    replace (32 * S left)%nat with (32 + 32 * left)%nat by lia.
    rewrite zseq_app by lia. do 2 f_equal. lia.
Qed.

(** The ballot on the last inputs, which do not make a whole group. *)
Lemma ballot_turn_last_group (base : Z) (buffer : Z -> option Z) (writing_lane : Z) :
  ballot_turn (fun _ => true)
    (fun l => if input_pos l <? length then predicate (input_pos l) else false) false
    (lanes_with reads base buffer) writing_lane
  = lanes_with reads base
      (fun lane => if lane =? writing_lane then Some (word reads) else buffer lane).
Proof.
  unfold ballot_turn. cbv zeta.
  set (lanes := lanes_with reads base buffer) in *.
  unfold lanes_with. subst lanes.
  apply map_ext_in. intros lane Hlane. apply in_zseq in Hlane; [|lia].
  rewrite lane_at_lanes_with by lia.
  cbn [input_pos output_pos warp_results_write_buffer].
  f_equal. destruct (lane =? writing_lane); [|reflexivity]. f_equal.
  unfold predicate_word. f_equal. apply map_ext_in. intros b Hb.
  apply in_zseq in Hb; [|lia]. rewrite lane_at_lanes_with by lia.
  cbn [input_pos andb]. replace (b + 32 * reads) with (32 * reads + b) by lia.
  now destruct (32 * reads + b <? length).
Qed.

(** The outputs past the full writes: the lanes which hold a word store it. *)
Lemma slack_stores_spec (buffer : Z -> option Z) :
  PossibilityOfSlack <> has_no_slack ->
  0 <= writes <= reads -> reads - writes < 32 ->
  let partial :=
    match PossibilityOfSlack with
    | may_have_arbitrary_slack => if length mod 32 >? 0 then 1 else 0
    | _ => 0
    end in
  slack_stores predicate PossibilityOfSlack length (lanes_with writes writes buffer)
  = map (fun p => Some (mk_write p (word p)))
        (zseq writes (Z.to_nat (reads - writes + partial))).
Proof.
  intros Hmode Hwrites Hslack partial.
  pose proof reads_eq as Hr. pose proof (position_in_chunk 32 length ltac:(lia)) as Hchunk.
  set (s := reads - writes) in *.
  assert (Hfolded :
            (if s >? 0
             then fold_left (ballot_turn (fun _ => true) (fun l => predicate (input_pos l)) true)
                    (zseq 0 (Z.to_nat s))
                    (declare_buffer (fun _ => true) (lanes_with writes writes buffer))
             else declare_buffer (fun _ => true) (lanes_with writes writes buffer))
            = lanes_with reads writes
                (fun lane => if lane <? s then Some (word (writes + lane)) else None)).
  { rewrite declare_buffer_all by reflexivity.
    destruct (Z.gtb_spec s 0) as [Hpos|Hzero].
    - rewrite (ballot_turns_whole_groups (fun _ => true) writes writes (Z.to_nat s));
        try reflexivity; try lia.
      replace (writes + Z.of_nat (Z.to_nat s)) with reads by lia.
      apply lanes_with_agree. intros lane _. now rewrite Z2Nat.id by lia.
    - replace reads with writes by lia. apply lanes_with_agree. intros lane Hlane.
      destruct (Z.ltb_spec lane s); [lia|reflexivity]. }
  assert (Hstores : forall (nw : Z) (buffer' : Z -> option Z),
            0 <= nw <= 32 ->
            (forall lane, 0 <= lane < nw -> buffer' lane = Some (word (writes + lane))) ->
            flat_map (fun lane => if lane <? nw
                                  then [store_buffer (lane_at (lanes_with reads writes buffer') lane)]
                                  else [])
                     (zseq 0 32)
            = map (fun p => Some (mk_write p (word p))) (zseq writes (Z.to_nat nw))).
  { intros nw buffer' Hnw Hbuffer.
    rewrite (flat_map_agree _
               (fun lane => if lane <? Z.of_nat (Z.to_nat nw)
                            then [store_buffer (lane_at (lanes_with reads writes buffer') lane)]
                            else []))
      by (intros; now rewrite Z2Nat.id by lia).
    rewrite (flat_map_below (fun lane => store_buffer (lane_at (lanes_with reads writes buffer') lane)))
      by lia.
    rewrite (zseq_shift writes), map_map by lia.
    apply map_ext_in. intros lane Hlane. apply in_zseq in Hlane; [|lia].
    rewrite lane_at_lanes_with by lia. unfold store_buffer.
    cbn [output_pos warp_results_write_buffer]. rewrite Hbuffer by lia.
    cbn [option_map]. do 2 f_equal. lia. }
  unfold slack_stores. unfold wrap32. fold s. rewrite (wrap_small 32 s) by lia.
  cbv zeta. rewrite Hfolded.
  destruct PossibilityOfSlack; [contradiction| |].
  - subst partial. rewrite Z.add_0_r. apply Hstores; [lia|].
    intros lane Hlane. destruct (Z.ltb_spec lane s); [reflexivity|lia].
  - subst partial. destruct (Z.gtb_spec (length mod 32) 0) as [Hpartial|Hnone].
    + rewrite ballot_turn_last_group. rewrite (wrap_small 32 (s + 1)) by lia.
      apply Hstores; [lia|]. intros lane Hlane.
      destruct (Z.eqb_spec lane s) as [->|Hne].
      * do 2 f_equal. lia.
      * destruct (Z.ltb_spec lane s); [reflexivity|lia].
    + rewrite Z.add_0_r. apply Hstores; [lia|].
      intros lane Hlane. destruct (Z.ltb_spec lane s); [reflexivity|lia].
Qed.
End ComputePredicateFacts.

Lemma predicate_word_bits (predicate : Z -> bool) (length p b : Z) :
  0 <= b < 32 ->
  Z.testbit (predicate_word predicate length p) b
  = (32 * p + b <? length) && predicate (32 * p + b).
Proof.
  intros Hb. unfold predicate_word.
  rewrite <- (Z2Nat.id b) at 1 by lia. rewrite testbit_warp_ballot.
  rewrite (nth_map_in_range _ _ _ 0) by (rewrite zseq_length; lia).
  rewrite nth_zseq by lia. now rewrite Z2Nat.id by lia.
Qed.

(** X20. [compute_predicate_at_warp_stride] on [length] inputs, for a length
    which is of the kind [PossibilityOfSlack] promises and leaves room for
    one more stride in 32 bits: every lane store takes a buffer with a
    value, the stores go to the words [0 .. ceil(length / 32) - 1] of the
    output, one store each, and bit [b] of word [p] is the predicate of the
    input [32 * p + b], or 0 when that input is at or past [length]. *)
Theorem compute_predicate_at_warp_stride_packs_the_results
    (predicate : Z -> bool) (PossibilityOfSlack : predicate_computation_length_slack_t)
    (length : Z) :
  0 <= length -> length + 32 <= 2 ^ 32 ->
  match PossibilityOfSlack with
  | has_no_slack => length mod 1024 = 0
  | may_have_full_warps_of_slack => length mod 32 = 0
  | may_have_arbitrary_slack => True
  end ->
  compute_predicate_at_warp_stride predicate PossibilityOfSlack length
  = Some (map (fun p => mk_write p (predicate_word predicate length p))
              (zseq 0 (Z.to_nat (div_rounding_up length 32))))
  /\ forall p b, 0 <= b < 32 ->
       Z.testbit (predicate_word predicate length p) b
       = (32 * p + b <? length) && predicate (32 * p + b).
Proof.
  intros Hlength Hfit Hmode. split; [|intros p b Hb; now apply predicate_word_bits].
  pose proof (reads_eq length) as Hr.
  pose proof (Z.div_mod length 32 ltac:(lia)) as Hdiv.
  pose proof (Z.mod_pos_bound length 32 ltac:(lia)) as Hmod.
  assert (Hreads0 : 0 <= length / 32) by (apply Z.div_pos; lia).
  assert (Hwords : div_rounding_up length 32
                   = length / 32 + (if length mod 32 >? 0 then 1 else 0)).
  { unfold div_rounding_up.
    destruct (Z.gtb_spec (length mod 32) 0).
    - symmetry. apply (Z.div_unique _ _ _ (length mod 32 - 1)); lia.
    - symmetry. apply (Z.div_unique _ _ _ 31); lia. }
  assert (Hwrites : exists turns,
            0 <= turns
            /\ full_warp_writes_output_length PossibilityOfSlack length = 32 * turns
            /\ 32 * turns <= length / 32 /\ length / 32 - 32 * turns < 32).
  { unfold full_warp_writes_output_length. rewrite Hr.
    pose proof (position_in_chunk 32 (length / 32) ltac:(lia)) as Hchunk.
    assert (Hround : round_down_to_warp_size (length / 32) = length / 32 / 32 * 32).
    { unfold round_down_to_warp_size, clear_lower_k_bits.
      now rewrite Z.shiftr_div_pow2, Z.shiftl_mul_pow2 by lia. }
    assert (0 <= length / 32 / 32) by (apply Z.div_pos; lia).
    destruct PossibilityOfSlack.
    - exists (length / 1024).
      pose proof (Z.div_mod length 1024 ltac:(lia)) as Hk. rewrite Hmode in Hk.
      assert (0 <= length / 1024) by (apply Z.div_pos; lia).
      assert (length / 32 = 32 * (length / 1024))
        by (symmetry; apply (Z.div_unique _ _ _ 0); lia).
      repeat split; lia.
    - exists (length / 32 / 32). rewrite Hround. repeat split; lia.
    - exists (length / 32 / 32). rewrite Hround. repeat split; lia. }
  assert (Hpartial :
            (PossibilityOfSlack = has_no_slack
             /\ full_warp_writes_output_length PossibilityOfSlack length = length / 32
             /\ length mod 32 = 0)
            \/ (PossibilityOfSlack <> has_no_slack
                /\ match PossibilityOfSlack with
                   | may_have_arbitrary_slack => if length mod 32 >? 0 then 1 else 0
                   | _ => 0
                   end = (if length mod 32 >? 0 then 1 else 0))).
  { unfold full_warp_writes_output_length. rewrite Hr. destruct PossibilityOfSlack.
    - left. split; [reflexivity|]. split; [reflexivity|].
      pose proof (Z.div_mod length 1024 ltac:(lia)) as Hk. rewrite Hmode in Hk.
      rewrite Hk, Z.add_0_r.
      replace (1024 * (length / 1024)) with (32 * (length / 1024) * 32) by lia.
      apply Z_mod_mult.
    - right. split; [discriminate|]. now rewrite Hmode.
    - right. split; [discriminate|reflexivity]. }
  destruct Hwrites as (turns & Hturns & Hw & Hwr & Hslack).
  unfold compute_predicate_at_warp_stride. cbv zeta.
  assert (Hinitial : map (fun lane => mk_predicate_lane lane lane None) (zseq 0 32)
                     = lanes_with (32 * (turns - Z.of_nat (Z.to_nat turns)))
                         (32 * (turns - Z.of_nat (Z.to_nat turns))) (fun _ => None)).
  { unfold lanes_with. apply map_ext. intros lane. f_equal; lia. }
  rewrite Hinitial.
  destruct (full_writes_spec predicate PossibilityOfSlack length Hfit turns
              (Z.to_nat turns) (Z.to_nat length) (fun _ => None) Hw ltac:(lia) ltac:(lia)
              ltac:(lia))
    as (buffer' & ->).
  replace (32 * (turns - Z.of_nat (Z.to_nat turns))) with 0 by lia.
  replace (32 * Z.to_nat turns)%nat with (Z.to_nat (32 * turns)) by lia.
  destruct Hpartial as [(Hkind & Hall & Hnone)|(Hkind & Hpartial)].
  - assert (Hstores : slack_stores predicate PossibilityOfSlack length
                        (lanes_with (full_warp_writes_output_length PossibilityOfSlack length)
                           (full_warp_writes_output_length PossibilityOfSlack length) buffer')
                      = []) by (unfold slack_stores; now rewrite Hkind).
    rewrite Hstores, app_nil_r.
    rewrite <- (map_map (fun p => mk_write p (predicate_word predicate length p)) Some).
    rewrite sequence_some. do 3 f_equal. rewrite Hwords, Hnone.
    destruct (Z.gtb_spec 0 0); lia.
  - rewrite (slack_stores_spec predicate PossibilityOfSlack length Hfit buffer' Hkind)
      by (rewrite ?Hr; lia).
    cbv zeta. rewrite Hpartial, Hr, Hw.
    rewrite <- map_app, <- (map_map (fun p => mk_write p (predicate_word predicate length p)) Some).
    rewrite sequence_some. do 2 f_equal.
    set (partial := if length mod 32 >? 0 then 1 else 0) in *.
    assert (0 <= partial <= 1) by (subst partial; destruct (length mod 32 >? 0); lia).
    replace (zseq (32 * turns) (Z.to_nat (length / 32 - 32 * turns + partial)))
      with (zseq (0 + Z.of_nat (Z.to_nat (32 * turns)))
                 (Z.to_nat (length / 32 - 32 * turns + partial)))
      by (f_equal; lia).
    rewrite <- zseq_app by lia. f_equal. lia.
Qed.

Lemma compute_predicate_at_warp_stride_packs_the_results_witness :
  compute_predicate_at_warp_stride (fun p => p mod 3 =? 0) may_have_arbitrary_slack 70
  = Some (map (fun p => mk_write p (predicate_word (fun p => p mod 3 =? 0) 70 p))
              (zseq 0 (Z.to_nat (div_rounding_up 70 32))))
  /\ forall p b, 0 <= b < 32 ->
       Z.testbit (predicate_word (fun p => p mod 3 =? 0) 70 p) b
       = (32 * p + b <? 70) && (fun p => p mod 3 =? 0) (32 * p + b).
Proof.
  apply (compute_predicate_at_warp_stride_packs_the_results
           (fun p => p mod 3 =? 0) may_have_arbitrary_slack 70); [lia|lia|exact I].
Defined.

(** ** A segment, with relative or absolute positions *)

(** X21. [decompress_segment], with positions relative to the segment or
    absolute: when [covering q] is, for every position [q] of the segment,
    the run of the block's tables which starts at or before [q] while the
    next run starts after it, when the segment starts at a multiple of the
    number of elements of a thread write, and when the last lane of a warp
    has a further write whenever another lane of the warp has one, a block
    of whole warps returns, writes every position of the segment exactly
    once, and leaves at each the datum of its run. *)
Theorem decompress_segment_expands_the_runs
    (IndexSize UncompressedSize PositionOffsetSize : Z) (PositionsAreRelative : bool)
    (warp_size block_length warps_in_block decompressed_at : Z)
    (run_start_positions run_data : list Z)
    (params : segment_decompression_params_t) (covering : Z -> Z) (decompressed : list Z) :
  UncompressedSize = 1 \/ UncompressedSize = 2 \/ UncompressedSize = 4 \/ UncompressedSize = 8 ->
  4 <= IndexSize -> 4 <= PositionOffsetSize ->
  elements_per_thread_write UncompressedSize <= warp_size <= 32 ->
  0 < warps_in_block /\ block_length = warps_in_block * warp_size ->
  block_length * elements_per_thread_write UncompressedSize < 2 ^ 32 ->
  0 <= decompressed_length params ->
  0 <= segment_offset PositionsAreRelative params ->
  segment_offset PositionsAreRelative params + decompressed_length params
  + block_length * elements_per_thread_write UncompressedSize
  < 2 ^ position_offset_bits PositionOffsetSize ->
  num_runs params < 2 ^ index_bits IndexSize ->
  tables_cover_segment PositionsAreRelative run_start_positions run_data params covering
    (fun q => zth run_data (covering q)) ->
  (decompressed_at + segment_offset PositionsAreRelative params)
    mod elements_per_thread_write UncompressedSize = 0 ->
  shuffles_include_the_last_lane UncompressedSize warp_size block_length
    (decompressed_length params) ->
  segment_offset PositionsAreRelative params + decompressed_length params
  <= Z.of_nat (length decompressed) ->
  exists tr,
    decompress_segment IndexSize UncompressedSize PositionOffsetSize PositionsAreRelative
      warp_size block_length decompressed_at run_start_positions run_data params = Some tr
    /\ Permutation (map w_pos tr)
         (zseq (segment_offset PositionsAreRelative params)
               (Z.to_nat (decompressed_length params)))
    /\ forall q, 0 <= q < decompressed_length params ->
         zth (apply_writes tr decompressed) (segment_offset PositionsAreRelative params + q)
         = zth run_data (covering q).
Proof.
  intros Hsize Hidx Hpos Hwarp Hblock Hstride Hdl Hoff Hfit Hruns Hcover
         Haligned Hshuffles Hbuffer.
  destruct (decompress_segment_spec IndexSize UncompressedSize PositionOffsetSize
              PositionsAreRelative warp_size block_length warps_in_block decompressed_at
              run_start_positions run_data params covering
              (fun q => zth run_data (covering q)))
    as (tr & Hreturns & Hin & Hnodup); try assumption;
    try (unfold index_bits, position_offset_bits; lia).
  exists tr. split; [assumption|].
  set (off := segment_offset PositionsAreRelative params) in *.
  assert (Hin' : forall wr, In wr tr
                            <-> exists p, off <= p < off + decompressed_length params
                                          /\ wr = mk_write p (zth run_data (covering (p - off)))).
  { intros wr. rewrite Hin. unfold expected_write. fold off. split.
    - intros (q & Hq & ->). exists (off + q). split; [lia|].
      now replace (off + q - off) with q by lia.
    - intros (p & Hp & ->). exists (p - off). split; [lia|].
      now replace (off + (p - off)) with p by lia. }
  split.
  - apply (positions_permutation tr (fun p => zth run_data (covering (p - off))));
      assumption.
  - intros q Hq. unfold zth at 1.
    rewrite (nth_apply_writes (zth run_data (covering q))) by
      (try lia; intros w Hw Hp; apply Hin' in Hw as (p & _ & ->); cbn in Hp |- *;
       do 2 f_equal; lia).
    assert (Hex : existsb (fun w => w_pos w =? Z.of_nat (Z.to_nat (off + q))) tr = true).
    { apply existsb_exists. exists (mk_write (off + q) (zth run_data (covering q))).
      split; [|cbn; apply Z.eqb_eq; lia].
      apply Hin'. exists (off + q). split; [lia|].
      now replace (off + q - off) with q by lia. }
    now rewrite Hex.
Qed.

Lemma decompress_segment_expands_the_runs_witness :
  exists tr,
    decompress_segment 4 2 4 true 2 2 100 [0; 3] [7; 9] (mk_params 0 2 100 7) = Some tr
    /\ Permutation (map w_pos tr)
         (zseq (segment_offset true (mk_params 0 2 100 7))
               (Z.to_nat (decompressed_length (mk_params 0 2 100 7))))
    /\ forall q, 0 <= q < decompressed_length (mk_params 0 2 100 7) ->
         zth (apply_writes tr (repeat 0 7%nat)) (segment_offset true (mk_params 0 2 100 7) + q)
         = zth [7; 9] ((fun q => if q <? 3 then 0 else 1) q).
Proof.
  apply (decompress_segment_expands_the_runs 4 2 4 true 2 2 1 100 [0; 3] [7; 9]
           (mk_params 0 2 100 7) (fun q => if q <? 3 then 0 else 1) (repeat 0 7%nat)).
  - auto.
  - lia.
  - lia.
  - cbn. lia.
  - lia.
  - cbn. lia.
  - cbn. lia.
  - cbn. lia.
  - cbn. lia.
  - cbn. lia.
  - intros q Hq. cbn [decompressed_length num_runs segment_offset] in *.
    destruct (Z.ltb_spec q 3); cbv beta iota; (split; [lia|]);
      (split; [|split; [|reflexivity]]);
      intros j Hj; assert (j = 1) by lia; subst j;
      replace (zth [0; 3] 1) with 3 by reflexivity; lia.
  - reflexivity.
  - intros k Hrow Hfirst. change (elements_per_thread_write 2) with 2 in *.
    cbn [decompressed_length] in *. lia.
  - cbn. lia.
Defined.
